(** * API automation reports: suite report builder and combined report aggregator

    A shallow embedding of [scripts/make-suite-report.js] (the execution
    record normalizer and the suite report builder), of
    [combine-email-report.js] (the combined report aggregator, shipped in
    the second half of [scripts/cleanup-temp.js]) and of the script that
    empties the [Temp] directory (the first half of that file).

    Conventions of the embedding.
    - A JavaScript string is a [string]: a sequence of opaque units.  Case
      mapping, [\s], [\w], [\d] and [trim] are the ASCII ones; a character
      outside ASCII is carried as its bytes and is never a letter, a digit
      or white space.
    - A JavaScript number that the scripts use as a counter, a percentage or
      a response time in milliseconds is an integer ([Z]); divisions are
      exact rationals ([Q]) and [Math.round] rounds half up.  The average
      of response times is also given for times that are not whole
      ([avg_num]).
    - In a comment a back quote stands for a double quote.
    - A regular expression literal is a value of type [regex], run by a
      backtracking matcher with the priorities of ECMAScript (ordered
      alternatives, greedy and lazy quantifiers, leftmost match).
    - What the host decides is a variable of a section: the collation of
      [localeCompare], [path.resolve], the text of a number and the
      snapshots of a request and of a response.  [toLocaleString] groups
      the digits by three with commas, as the en-US locale does.
    - A call that throws in JavaScript returns [None]; a call of the [fs]
      module returns the file system it leaves and whether it returned or
      threw.  The file system is a tree of files, symbolic links and
      directories, and a path is the list of the names that lead to a node;
      what the operating system refuses and how many links it follows are
      variables of a section too. *)

From Stdlib Require Import List Ascii String ZArith QArith Qround Lia Bool Arith.
From Stdlib Require Import Permutation.
From Stdlib Require Import DecimalString.
Import ListNotations.

Open Scope string_scope.
Open Scope Z_scope.

Set Implicit Arguments.

(* ================================================================== *)
(** ** Strings *)

Module Str.

Definition dquote : ascii := ascii_of_nat 34.

Fixpoint map (f : ascii -> ascii) (s : string) : string :=
  match s with
  | EmptyString => EmptyString
  | String c t => String (f c) (map f t)
  end.

(** Template text is written with a back quote wherever the script has a
    double quote. *)
Definition q (s : string) : string :=
  map (fun c => if Ascii.eqb c "`" then dquote else c) s.

Fixpoint rev_append (s acc : string) : string :=
  match s with
  | EmptyString => acc
  | String c t => rev_append t (String c acc)
  end.

Definition rev (s : string) : string := rev_append s EmptyString.

Fixpoint firstn (n : nat) (s : string) : string :=
  match n, s with
  | S m, String c t => String c (firstn m t)
  | _, _ => EmptyString
  end.

Fixpoint skipn (n : nat) (s : string) : string :=
  match n, s with
  | S m, String _ t => skipn m t
  | _, _ => s
  end.

(** [s.slice(a, b)] for [0 <= a] and [0 <= b]. *)
Definition slice (a b : nat) (s : string) : string :=
  firstn (b - a) (skipn a s).

Definition is_empty (s : string) : bool :=
  match s with EmptyString => true | _ => false end.

Fixpoint concat (l : list string) : string :=
  match l with
  | [] => EmptyString
  | x :: r => x ++ concat r
  end.

(** [arr.join(sep)] *)
Fixpoint join (sep : string) (l : list string) : string :=
  match l with
  | [] => EmptyString
  | [x] => x
  | x :: r => x ++ sep ++ join sep r
  end.

(** The code of a character. *)
Definition code (c : ascii) : N := N_of_ascii c.

Definition between (lo hi : N) (c : ascii) : bool :=
  (N.leb lo (code c) && N.leb (code c) hi)%bool.

Definition is_upper : ascii -> bool := between 65 90.
Definition is_lower : ascii -> bool := between 97 122.
Definition is_digit : ascii -> bool := between 48 57.

(** [\w] *)
Definition is_word (c : ascii) : bool :=
  (is_upper c || is_lower c || is_digit c || Ascii.eqb c "_")%bool.

(** [\s], and the characters [trim] removes *)
Definition is_space (c : ascii) : bool :=
  (between 9 13 c || Ascii.eqb c " ")%bool.

Definition lower (c : ascii) : ascii :=
  if is_upper c then ascii_of_N (code c + 32) else c.

Definition upper (c : ascii) : ascii :=
  if is_lower c then ascii_of_N (code c - 32) else c.

Definition toLowerCase : string -> string := map lower.
Definition toUpperCase : string -> string := map upper.

Fixpoint trimStart (s : string) : string :=
  match s with
  | String c t => if is_space c then trimStart t else s
  | EmptyString => EmptyString
  end.

Definition trimEnd (s : string) : string := rev (trimStart (rev s)).

Definition trim (s : string) : string := trimEnd (trimStart s).

(** [s.split(c)] for a separator of one character. *)
Fixpoint split_go (c : ascii) (s cur : string) : list string :=
  match s with
  | EmptyString => [rev cur]
  | String x t =>
      if Ascii.eqb x c then rev cur :: split_go c t EmptyString
      else split_go c t (String x cur)
  end.

Definition split (c : ascii) (s : string) : list string :=
  split_go c s EmptyString.

(** [haystack.indexOf(needle, from)] *)
Fixpoint indexOf_go (needle s : string) (pos fuel : nat) : option nat :=
  if prefix needle s then Some pos
  else match fuel, s with
       | S f, String _ t => indexOf_go needle t (S pos) f
       | _, _ => None
       end.

Definition indexOf (needle s : string) (from : nat) : option nat :=
  if Nat.ltb (length s) from then
    (if is_empty needle then Some (length s) else None)
  else indexOf_go needle (skipn from s) from (length s).

(** [haystack.lastIndexOf(needle, from)]: the last occurrence that starts
    at or before [from]. *)
Fixpoint lastIndexOf_go (needle s : string) (pos left : nat)
                        (best : option nat) : option nat :=
  let best' := if prefix needle s then Some pos else best in
  match s, left with
  | String _ t, S n => lastIndexOf_go needle t (S pos) n best'
  | _, _ => best'
  end.

Definition lastIndexOf (needle s : string) (from : nat) : option nat :=
  lastIndexOf_go needle s 0 from None.

(** [String(n)] for an integer. *)
Definition of_Z (n : Z) : string := NilZero.string_of_int (Z.to_int n).

Definition of_nat (n : nat) : string := of_Z (Z.of_nat n).

Fixpoint repeat (c : ascii) (n : nat) : string :=
  match n with O => EmptyString | S m => String c (repeat c m) end.

(** [s.padStart(n, c)] *)
Definition padStart (n : nat) (c : ascii) (s : string) : string :=
  repeat c (n - length s) ++ s.

(** [Number(s)] / [parseInt] on a string of decimal digits. *)
Fixpoint digits_go (s : string) (acc : Z) : Z :=
  match s with
  | EmptyString => acc
  | String c t => digits_go t (10 * acc + Z.of_N (code c - 48))
  end.

Definition to_Z (s : string) : Z := digits_go s 0.

End Str.

(* ================================================================== *)
(** ** Regular expressions *)

Module Re.

(** The abstract syntax of the regular expression literals the scripts
    contain.  [Chr p] is one character of the class [p]; [Star true r] is
    the greedy [r*], [Star false r] the lazy [r*?]; [Group n r] is the
    [n]-th capturing group; [Bol], [Eol] and [WordB] are [^], [$] and
    [\b]. *)
Inductive regex : Type :=
| Eps : regex
| Chr : (ascii -> bool) -> regex
| Seq : regex -> regex -> regex
| Alt : regex -> regex -> regex
| Star : bool -> regex -> regex
| Group : nat -> regex -> regex
| Bol : regex
| Eol : regex
| WordB : regex.

(** What a capturing group caught: the input from the start of the group
    on, and the number of characters caught. *)
Record capture : Type := Capture { cap_from : string; cap_len : N }.

Definition capture_text (c : capture) : string :=
  Str.firstn (N.to_nat (cap_len c)) (cap_from c).

(** A position of the matcher in its input: the offset, the character
    just before it, the text still to read, and the captures so far. *)
Record mstate : Type := MState {
  m_pos : N;
  m_prev : option ascii;
  m_rest : string;
  m_caps : list (nat * capture)
}.

Definition advance (st : mstate) (c : ascii) (t : string) : mstate :=
  MState (N.succ (m_pos st)) (Some c) t (m_caps st).

Definition set_cap (n : nat) (c : capture) (st : mstate) : mstate :=
  MState (m_pos st) (m_prev st) (m_rest st) ((n, c) :: m_caps st).



Definition word_before (st : mstate) : bool :=
  match m_prev st with Some c => Str.is_word c | None => false end.

Definition word_after (st : mstate) : bool :=
  match m_rest st with String c _ => Str.is_word c | EmptyString => false end.

(** One greedy or lazy star around a matcher [ma] of the starred
    expression.  An iteration that reads nothing is rejected, as in
    ECMAScript, so that a star makes no more iterations than there are
    characters left: [fuel], a text longer than the input still to read,
    counts them down and is never exhausted. *)
Fixpoint star_loop (ma : mstate -> (mstate -> option mstate) -> option mstate)
         (greedy : bool) (k : mstate -> option mstate)
         (fuel : string) (st : mstate) {struct fuel} : option mstate :=
  match fuel with
  | EmptyString => k st
  | String _ f =>
      if greedy then
        match ma st (fun st1 => if N.eqb (m_pos st1) (m_pos st)
                                then None else star_loop ma greedy k f st1) with
        | Some x => Some x
        | None => k st
        end
      else
        match k st with
        | Some x => Some x
        | None =>
            ma st (fun st1 => if N.eqb (m_pos st1) (m_pos st)
                              then None else star_loop ma greedy k f st1)
        end
  end.

(** The matcher, in continuation-passing style: [rmatch r st k] matches
    [r] at [st] and hands every way of doing so, in priority order, to
    [k], until [k] succeeds. *)
Fixpoint rmatch (r : regex) (st : mstate) (k : mstate -> option mstate)
  {struct r} : option mstate :=
  match r with
  | Eps => k st
  | Chr p =>
      match m_rest st with
      | String c t => if p c then k (advance st c t) else None
      | EmptyString => None
      end
  | Seq a b => rmatch a st (fun st1 => rmatch b st1 k)
  | Alt a b =>
      match rmatch a st k with
      | Some x => Some x
      | None => rmatch b st k
      end
  | Star greedy a =>
      star_loop (rmatch a) greedy k (String " " (m_rest st)) st
  | Group n a =>
      rmatch a st
        (fun st1 =>
           k (set_cap n (Capture (m_rest st) (m_pos st1 - m_pos st)) st1))
  | Bol => match m_prev st with None => k st | Some _ => None end
  | Eol => match m_rest st with EmptyString => k st | String _ _ => None end
  | WordB => if xorb (word_before st) (word_after st) then k st else None
  end.

(** Derived forms. *)
Definition Plus (greedy : bool) (r : regex) : regex := Seq r (Star greedy r).
Definition Opt (r : regex) : regex := Alt r Eps.
Definition any : ascii -> bool := fun _ => true.
(** [.]: anything but a line terminator *)
Definition dot (c : ascii) : bool :=
  negb (Ascii.eqb c (ascii_of_nat 10) || Ascii.eqb c (ascii_of_nat 13)).
Definition only (c : ascii) : ascii -> bool := Ascii.eqb c.
Definition but (c : ascii) : ascii -> bool := fun x => negb (Ascii.eqb c x).
(** a character under the [i] flag *)
Definition ci (c : ascii) : ascii -> bool :=
  fun x => Ascii.eqb (Str.upper x) (Str.upper c).

(** The text [s], literally; [lit_i] under the [i] flag. *)
Fixpoint lit (s : string) : regex :=
  match s with
  | EmptyString => Eps
  | String c t => Seq (Chr (only c)) (lit t)
  end.

Fixpoint lit_i (s : string) : regex :=
  match s with
  | EmptyString => Eps
  | String c t => Seq (Chr (ci c)) (lit_i t)
  end.

Fixpoint seq (l : list regex) : regex :=
  match l with
  | [] => Eps
  | r :: t => Seq r (seq t)
  end.

(** One result of [exec]: where the match starts and ends, and the
    captures. *)
Record rmatch_result : Type := Match {
  index : N;
  stop : N;
  last : option ascii;   (* the character before [stop] *)
  after : string;        (* the input from [stop] on *)
  caps : list (nat * capture)
}.

Definition at_pos (r : regex) (pos : N) (prev : option ascii)
                  (rest : string) : option rmatch_result :=
  match rmatch r (MState pos prev rest []) Some with
  | Some st => Some (Match pos (m_pos st) (m_prev st) (m_rest st) (m_caps st))
  | None => None
  end.

(** The leftmost match at or after the current position. *)
Fixpoint search (r : regex) (pos : N) (prev : option ascii)
                (rest : string) : option rmatch_result :=
  match at_pos r pos prev rest with
  | Some m => Some m
  | None =>
      match rest with
      | EmptyString => None
      | String c t => search r (N.succ pos) (Some c) t
      end
  end.

(** [s.match(re)] and [re.exec(s)] for a regular expression without the
    [g] flag. *)
Definition exec (r : regex) (s : string) : option rmatch_result :=
  search r 0%N None s.

(** [re.test(s)] *)
Definition test (r : regex) (s : string) : bool :=
  match exec r s with Some _ => true | None => false end.

(** The text of capturing group [n] (the first record is the latest). *)
Fixpoint cap (n : nat) (l : list (nat * capture)) : option string :=
  match l with
  | [] => None
  | (i, c) :: t => if Nat.eqb i n then Some (capture_text c) else cap n t
  end.

Definition group (n : nat) (m : rmatch_result) : option string := cap n (caps m).

(** All matches of a regular expression with the [g] flag, as the loop
    [while ((m = re.exec(s)))] and [replace] visit them: after a match the
    scan resumes where it stopped, one character further when the match
    was empty. *)
Fixpoint matches_go (fuel : nat) (r : regex) (pos : N)
         (prev : option ascii) (rest : string) : list rmatch_result :=
  match fuel with
  | O => []
  | S f =>
      match search r pos prev rest with
      | None => []
      | Some m =>
          if N.eqb (stop m) (index m) then
            match after m with
            | EmptyString => [m]
            | String c t => m :: matches_go f r (N.succ (stop m)) (Some c) t
            end
          else m :: matches_go f r (stop m) (last m) (after m)
      end
  end.

Definition matches (r : regex) (s : string) : list rmatch_result :=
  matches_go (S (String.length s)) r 0%N None s.

(** [s.replace(re, rep)] with the [g] flag, for a replacement text without
    [$] patterns. *)
Fixpoint splice (s : string) (pos : N) (ms : list rmatch_result)
                (rep : string) : string :=
  match ms with
  | [] => s
  | m :: rest =>
      Str.firstn (N.to_nat (index m - pos)) s ++ rep
        ++ splice (Str.skipn (N.to_nat (stop m - pos)) s) (stop m) rest rep
  end.

Definition replace_all (r : regex) (rep : string) (s : string) : string :=
  splice s 0%N (matches r s) rep.

(** [s.replace(re, rep)] without the [g] flag: the first match only. *)
Definition replace_first (r : regex) (rep : string) (s : string) : string :=
  match exec r s with
  | None => s
  | Some m => Str.firstn (N.to_nat (index m)) s ++ rep ++ Str.skipn (N.to_nat (stop m)) s
  end.

(** [s.split(re)] for a regular expression that cannot match the empty
    text, on a non-empty [s] or not. *)
Fixpoint split_go (fuel : nat) (r : regex) (prev : option ascii)
         (rest cur : string) : list string :=
  match fuel with
  | O => [Str.rev cur ++ rest]
  | S f =>
      match rest with
      | EmptyString => [Str.rev cur]
      | String c t =>
          match at_pos r 0%N prev rest with
          | Some m =>
              if N.eqb (stop m) 0 then split_go f r (Some c) t (String c cur)
              else Str.rev cur :: split_go f r (last m) (after m) EmptyString
          | None => split_go f r (Some c) t (String c cur)
          end
      end
  end.

Definition split (r : regex) (s : string) : list string :=
  split_go (S (String.length s)) r None s EmptyString.

End Re.

(* ================================================================== *)
(** ** Numbers *)

Module Num.

(** [a / b] on integers, as an exact quotient. *)
Definition div (a b : Z) : Q := (inject_Z a / inject_Z b)%Q.

(** [Math.round]: the nearest integer, a half rounding up. *)
Definition Math_round (x : Q) : Z := Qfloor (x + (1 # 2))%Q.

(** [Math.round(100 * num / den)] *)
Definition pct (num den : Z) : Z := Math_round (div (100 * num) den).

Fixpoint sum (l : list Z) : Z :=
  match l with
  | [] => 0
  | x :: r => x + sum r
  end.

Definition len {A : Type} (l : list A) : Z := Z.of_nat (List.length l).

End Num.

(** [a || d] on strings: the empty string and an absent value are falsy. *)
Definition or_else (a : option string) (d : string) : string :=
  match a with
  | Some s => if Str.is_empty s then d else s
  | None => d
  end.

(** [a ?? d] *)
Definition nullish {A : Type} (a : option A) (d : A) : A :=
  match a with Some x => x | None => d end.

(** [o?.f] *)
Definition opt_get {A B : Type} (o : option A) (f : A -> option B) : option B :=
  match o with Some x => f x | None => None end.

(* ================================================================== *)
(** ** The data model of a suite report (make-suite-report.js) *)

Inductive Outcome : Type := Pass | Fail | Skipped | NotRun.

Definition Outcome_eqb (a b : Outcome) : bool :=
  match a, b with
  | Pass, Pass | Fail, Fail | Skipped, Skipped | NotRun, NotRun => true
  | _, _ => false
  end.

(** The text of an outcome: ['Pass'], ['Fail'], ['Skipped'], ['Not Run']. *)
Definition Outcome_text (o : Outcome) : string :=
  match o with
  | Pass => "Pass" | Fail => "Fail" | Skipped => "Skipped" | NotRun => "Not Run"
  end.

Record Check : Type := mkCheck {
  name : string;
  ok : bool;
  message : string
}.

(** One element of [testCases] (lines 159-166). *)
Record TestCase : Type := mkTestCase {
  id : string;
  group : string;
  api : string;
  iteration : Z;
  tcId : string;
  result : Outcome;
  checksPassed : Z;
  checksFailed : Z;
  checksTotal : Z;
  statusCode : option Z;      (* [''] is [None] *)
  respMs : option Z;          (* [null] is [None] *)
  checks : list Check;
  reqB64 : string;
  resB64 : string
}.

(** [idfy] (line 48) *)
Definition idfy (s : string) : string :=
  Re.replace_all
    (Re.Group 1 (Re.Alt (Re.Seq Re.Bol (Re.Chr (Re.only "-")))
                        (Re.Seq (Re.Chr (Re.only "-")) Re.Eol))) ""
    (Re.replace_all
       (Re.Plus true (Re.Chr (fun c => negb (Str.is_lower c || Str.is_digit c))))
       "-" (Str.toLowerCase s)).

(** [pretty] (line 49) *)
Definition pretty (s : string) : string :=
  let t := Str.trim
             (Re.replace_all (Re.Chr (Re.only "_")) " "
                (Re.replace_first
                   (Re.seq [Re.Bol; Re.lit "SC_"; Re.Plus true (Re.Chr Str.is_digit);
                            Re.Chr (Re.only "_")]) "" s)) in
  if Str.is_empty t then "Untitled" else t.

(** [esc] (lines 45-47): five replacements in the order of the script. *)
Definition replace_char (c : ascii) (rep : string) (s : string) : string :=
  Re.replace_all (Re.Chr (Re.only c)) rep s.

Definition esc (s : string) : string :=
  replace_char "'" "&#39;"
    (replace_char Str.dquote "&quot;"
       (replace_char ">" "&gt;"
          (replace_char "<" "&lt;"
             (replace_char "&" "&amp;" s)))).

(* ================================================================== *)
(** ** The execution record normalizer (lines 117-167) *)

Module Normalizer.

(** The error a failed assertion carries. *)
Record RawError : Type := mkRawError {
  err_test : option string;
  err_name : option string;
  err_message : option string;
  err_stack : option string
}.

Record RawAssertion : Type := mkRawAssertion {
  assertion : option string;
  error : option RawError
}.

Section WithSnapshots.

(** The request of an execution, and what a response carries besides its
    code and its time (status text, headers, body): lines 142-157 turn them
    into two base64 snapshots that no statistic reads. *)
Variables Request Payload : Type.

Record RawResponse : Type := mkRawResponse {
  code : option Z;
  responseTime : option Z;
  res_payload : Payload
}.

Record RawItem : Type := mkRawItem { item_name : option string }.
Record RawCursor : Type := mkRawCursor { cursor_iteration : option Z }.

(** One entry of [run.executions]; an entry that is [null] is [None]. *)
Record RawExecution : Type := mkRawExecution {
  item : option RawItem;
  assertions : option (list RawAssertion);
  request : option Request;
  response : option RawResponse;
  cursor : option RawCursor
}.

Variable snapshotRequest : option Request -> string.
Variable snapshotResponse : option RawResponse -> string.

(** [/\bskip\b/i] *)
Definition skip_re : Re.regex := Re.seq [Re.WordB; Re.lit_i "skip"; Re.WordB].

(** Lines 126-130. *)
Definition check_of (a : RawAssertion) : Check :=
  mkCheck
    (or_else (assertion a)
       (or_else (opt_get (error a) err_test)
          (or_else (opt_get (error a) err_name) "Assertion")))
    (match error a with Some _ => false | None => true end)
    (match error a with
     | Some e => Str.trim (or_else (err_message e) (or_else (err_stack e) ""))
     | None => "OK"
     end).

Definition has_error (a : RawAssertion) : bool :=
  match error a with Some _ => true | None => false end.

Definition is_skip_check (c : Check) : bool :=
  (Re.test skip_re (name c) || Re.test skip_re (message c))%bool.

Definition item_name_of (ex : option RawExecution) : string :=
  or_else (opt_get (opt_get ex item) item_name) "Request".

Definition iteration_of (ex : option RawExecution) : Z :=
  nullish (opt_get (opt_get ex cursor) cursor_iteration) 0 + 1.

(** [ex?.assertions || []] *)
Definition assertions_of (ex : option RawExecution) : list RawAssertion :=
  nullish (opt_get ex assertions) [].

(** The body of [execs.map(ex => ...)]. *)
Definition normalize (ex : option RawExecution) : TestCase :=
  let assertions := assertions_of ex in
  let total := Num.len assertions in
  let failed := Num.len (filter has_error assertions) in
  let passed := total - failed in
  let statusCode := opt_get (opt_get ex response) code in
  let respMs := opt_get (opt_get ex response) responseTime in
  let checks := List.map check_of assertions in
  let isSkip := existsb is_skip_check checks in
  let result :=
    match ex with
    | None => NotRun
    | Some _ =>
        if isSkip then Skipped
        else if failed >? 0 then Fail
        else Pass
    end in
  let group :=
    or_else (hd_error (Str.split "/" (item_name_of ex))) "Ungrouped" in
  let api := item_name_of ex in
  mkTestCase
    (idfy (api ++ "-" ++ Str.of_Z (iteration_of ex)))
    group api
    (iteration_of ex)
    ("TC" ++ Str.padStart 3 "0" (Str.of_Z (iteration_of ex)))
    result passed failed total
    statusCode respMs checks
    (snapshotRequest (opt_get ex request))
    (snapshotResponse (opt_get ex response)).

Definition testCases (execs : list (option RawExecution)) : list TestCase :=
  List.map normalize execs.

End WithSnapshots.

End Normalizer.

(* ================================================================== *)
(** ** Suite aggregates (lines 170-194) *)

Module Suite.

Definition is_considered (tc : TestCase) : bool :=
  (Outcome_eqb (result tc) Pass || Outcome_eqb (result tc) Fail)%bool.

Definition considered (tcs : list TestCase) : list TestCase :=
  filter is_considered tcs.

Definition is_pass (tc : TestCase) : bool := Outcome_eqb (result tc) Pass.
Definition is_fail (tc : TestCase) : bool := Outcome_eqb (result tc) Fail.

Definition totalCases (tcs : list TestCase) : Z := Num.len (considered tcs).

Definition passedCases (tcs : list TestCase) : Z :=
  Num.len (filter is_pass (considered tcs)).

Definition failedCases (tcs : list TestCase) : Z :=
  Num.len (filter is_fail (considered tcs)).

Definition passPct (tcs : list TestCase) : Z :=
  if totalCases tcs =? 0 then 0 else Num.pct (passedCases tcs) (totalCases tcs).

Definition within (sla : Z) (tc : TestCase) : bool :=
  match respMs tc with
  | Some ms => ms <=? sla
  | None => false
  end.

Definition withinSLA (sla : Z) (tcs : list TestCase) : Z :=
  Num.len (filter (within sla) (considered tcs)).

Definition withinPct (sla : Z) (tcs : list TestCase) : Z :=
  if totalCases tcs =? 0 then 0 else Num.pct (withinSLA sla tcs) (totalCases tcs).

(** The six aggregates of a suite (lines 171-176). *)
Record Aggregates : Type := mkAggregates {
  agg_totalCases : Z;
  agg_passedCases : Z;
  agg_failedCases : Z;
  agg_passPct : Z;
  agg_withinSLA : Z;
  agg_withinPct : Z
}.

Definition aggregates (sla : Z) (tcs : list TestCase) : Aggregates :=
  mkAggregates (totalCases tcs) (passedCases tcs) (failedCases tcs)
               (passPct tcs) (withinSLA sla tcs) (withinPct sla tcs).

(** [avg] (line 43) *)
Definition avg (a : list Z) : Z :=
  match a with
  | [] => 0
  | _ => Num.Math_round (Num.div (Num.sum a) (Num.len a))
  end.

(** [avg] on numbers that need not be whole: line 124 keeps every finite
    [responseTime].  The sum and the quotient are exact. *)
Fixpoint sum_num (l : list Q) : Q :=
  match l with
  | [] => 0%Q
  | x :: r => (x + sum_num r)%Q
  end.

Definition avg_num (a : list Q) : Z :=
  match a with
  | [] => 0
  | _ => Num.Math_round (sum_num a / inject_Z (Num.len a))%Q
  end.

(** An entry of the [byFolder] map. *)
Record FolderAcc : Type := mkFolderAcc {
  acc_group : string;
  acc_total : Z;
  acc_pass : Z;
  acc_fail : Z;
  acc_resp : list Z;
  acc_apis : list TestCase
}.

(** A [Map] with string keys: the entries in insertion order. *)
Fixpoint map_get {V : Type} (k : string) (m : list (string * V)) : option V :=
  match m with
  | [] => None
  | (k', v) :: r => if String.eqb k' k then Some v else map_get k r
  end.

Fixpoint map_set {V : Type} (k : string) (v : V) (m : list (string * V))
  : list (string * V) :=
  match m with
  | [] => [(k, v)]
  | (k', v') :: r =>
      if String.eqb k' k then (k', v) :: r else (k', v') :: map_set k v r
  end.

(** [tc.group || 'Ungrouped'] *)
Definition group_key (tc : TestCase) : string :=
  if Str.is_empty (group tc) then "Ungrouped" else group tc.

(** One turn of the loop of lines 180-187. *)
Definition byFolder_step (m : list (string * FolderAcc)) (tc : TestCase)
  : list (string * FolderAcc) :=
  let g := group_key tc in
  let a := nullish (map_get g m) (mkFolderAcc g 0 0 0 [] []) in
  map_set g
    (mkFolderAcc (acc_group a)
       (acc_total a + 1)
       (if is_pass tc then acc_pass a + 1 else acc_pass a)
       (if is_pass tc then acc_fail a else acc_fail a + 1)
       (match respMs tc with
        | Some ms => acc_resp a ++ [ms]
        | None => acc_resp a
        end)
       (acc_apis a ++ [tc]))
    m.

Definition byFolder (tcs : list TestCase) : list (string * FolderAcc) :=
  fold_left byFolder_step (considered tcs) [].

(** A row of [folderRows]: the FolderSummary of a folder. *)
Record FolderRow : Type := mkFolderRow {
  row_group : string;
  row_pretty : string;
  row_total : Z;
  row_pass : Z;
  row_fail : Z;
  row_passPct : Z;
  row_avgMs : Z;
  row_apis : list TestCase
}.

Definition folderRow_of (r : FolderAcc) : FolderRow :=
  mkFolderRow (acc_group r) (pretty (acc_group r))
    (acc_total r) (acc_pass r) (acc_fail r)
    (if acc_total r =? 0 then 0 else Num.pct (acc_pass r) (acc_total r))
    (avg (acc_resp r))
    (acc_apis r).

(** [arr.sort(cmp)]: a stable sort, here by insertion. *)
Section Sort.
Variable A : Type.
Variable cmp : A -> A -> comparison.

Fixpoint insert_sorted (x : A) (l : list A) : list A :=
  match l with
  | [] => [x]
  | y :: r =>
      match cmp x y with
      | Lt => x :: y :: r
      | _ => y :: insert_sorted x r
      end
  end.

Definition sort (l : list A) : list A :=
  fold_left (fun acc x => insert_sorted x acc) l [].

End Sort.

Section WithCollation.

(** [a.localeCompare(b)], the collation of the host. *)
Variable localeCompare : string -> string -> comparison.

Definition folderRows (tcs : list TestCase) : list FolderRow :=
  sort (fun a b => localeCompare (row_pretty a) (row_pretty b))
    (List.map (fun kv => folderRow_of (snd kv)) (byFolder tcs)).

End WithCollation.

End Suite.

(* ================================================================== *)
(** ** The suite report builder: the rendered document (lines 196-543) *)

Module Builder.

Import Suite.

(** [fmt] (line 44) on an integer: [n.toLocaleString()] groups the digits by
    three with commas, the format the aggregator undoes when it strips the
    commas of a latency cell. *)
Fixpoint group3 (s : string) : string :=
  match s with
  | String a (String b (String c (String d t as r))) =>
      String a (String b (String c (String "," (group3 r))))
  | _ => s
  end.

Definition fmt (n : Z) : string :=
  (if n <? 0 then "-" else "")
    ++ Str.rev (group3 (Str.rev (Str.of_Z (Z.abs n)))).

(** [JSON.stringify] of a string. *)
Definition hex_digit (n : N) : ascii :=
  if N.ltb n 10 then ascii_of_N (48 + n) else ascii_of_N (87 + n).

Definition json_quote_char (c : ascii) : string :=
  if Ascii.eqb c Str.dquote then String "\" (String Str.dquote EmptyString)
  else if Ascii.eqb c "\" then "\\"
  else match Str.code c with
       | 8%N => "\b"
       | 9%N => "\t"
       | 10%N => "\n"
       | 12%N => "\f"
       | 13%N => "\r"
       | n => if N.ltb n 32
              then "\u00" ++ String (hex_digit (n / 16)) (String (hex_digit (n mod 16)) EmptyString)
              else String c EmptyString
       end.

Fixpoint json_quote_body (s : string) : string :=
  match s with
  | EmptyString => EmptyString
  | String c t => json_quote_char c ++ json_quote_body t
  end.

Definition json_string (s : string) : string :=
  String Str.dquote (json_quote_body s) ++ String Str.dquote EmptyString.

Definition json_array (items : list string) : string :=
  "[" ++ Str.join "," items ++ "]".

Definition json_field (k v : string) : string := json_string k ++ ":" ++ v.

Definition json_object (fields : list (string * string)) : string :=
  "{" ++ Str.join "," (List.map (fun kv => json_field (fst kv) (snd kv)) fields) ++ "}".

(** The keys of an object in the order [Object.keys] and [JSON.stringify]
    list them: the array indices in ascending order, then the other keys in
    the order they were created. *)
Definition all_digits (s : string) : bool :=
  Str.is_empty (Re.replace_all (Re.Chr Str.is_digit) "" s).

Definition is_array_index (s : string) : bool :=
  match s with
  | EmptyString => false
  | String c t =>
      (all_digits s
       && (negb (Ascii.eqb c "0") || Str.is_empty t)
       && (Str.to_Z s <=? 4294967294))%bool
  end.

Definition own_keys_order {V : Type} (m : list (string * V)) : list (string * V) :=
  sort (fun a b => Z.compare (Str.to_Z (fst a)) (Str.to_Z (fst b)))
       (filter (fun kv => is_array_index (fst kv)) m)
    ++ filter (fun kv => negb (is_array_index (fst kv))) m.

(** The properties every object inherits from [Object.prototype]: reading
    one of them on [{}] gives a function (or, for [__proto__], the prototype
    itself), never [undefined]. *)
Definition prototype_keys : list string :=
  ["constructor"; "__defineGetter__"; "__defineSetter__"; "hasOwnProperty";
   "__lookupGetter__"; "__lookupSetter__"; "isPrototypeOf";
   "propertyIsEnumerable"; "toString"; "valueOf"; "__proto__";
   "toLocaleString"].

Definition inherited (k : string) : bool := existsb (String.eqb k) prototype_keys.

(** A [Set] of strings, in insertion order. *)
Definition set_add (x : string) (s : list string) : list string :=
  if existsb (String.eqb x) s then s else s ++ [x].

(** [tc.api || 'Request'] *)
Definition api_key (tc : TestCase) : string :=
  if Str.is_empty (api tc) then "Request" else api tc.

(** [suiteApiSet] (lines 198-202) *)
Definition suiteApiSet (tcs : list TestCase) : list string :=
  fold_left (fun s tc => set_add (pretty (api_key tc)) s) (considered tcs) [].

(** Appends [tc] to the entry of [k], created at the end when missing. *)
Fixpoint push_case (k : string) (tc : TestCase) (m : list (string * list TestCase))
  : list (string * list TestCase) :=
  match m with
  | [] => [(k, [tc])]
  | (k', v) :: r =>
      if String.eqb k' k then (k', (v ++ [tc])%list) :: r
      else (k', v) :: push_case k tc r
  end.

(** [folderToApiMap.get(folderName)] (lines 197-208): the cases of a folder
    by API, in the order the APIs were first met. *)
Definition executedMap (tcs : list TestCase) (folderName : string)
  : list (string * list TestCase) :=
  fold_left
    (fun m tc => if String.eqb (group_key tc) folderName
                 then push_case (api_key tc) tc m else m)
    (considered tcs) [].

Record ApiSummary : Type := mkApiSummary {
  as_api : string;
  as_pretty : string;
  as_pass : Z;
  as_fail : Z;
  as_tot : Z;
  as_pct : Z
}.

(** [buildApiSummaryForFolder] (lines 209-218) *)
Definition buildApiSummaryForFolder (tcs : list TestCase) (folderName : string)
  : list ApiSummary :=
  List.map
    (fun e =>
       let pass := Num.len (filter is_pass (snd e)) in
       let fail := Num.len (filter is_fail (snd e)) in
       let tot := pass + fail in
       mkApiSummary (fst e) (pretty (fst e)) pass fail tot
         (if tot =? 0 then 0 else Num.pct pass tot))
    (executedMap tcs folderName).

Definition json_ApiSummary (a : ApiSummary) : string :=
  json_object
    [("api", json_string (as_api a)); ("pretty", json_string (as_pretty a));
     ("pass", Str.of_Z (as_pass a)); ("fail", Str.of_Z (as_fail a));
     ("tot", Str.of_Z (as_tot a)); ("pct", Str.of_Z (as_pct a))].

(** The style sheet (lines 224-282). *)
Definition css : string := "
:root{
  --bg:#f7f8fc; --card:#fff; --text:#0f172a; --muted:#6b7280; --line:#e5e7eb;
  --ok:#166534; --ng:#991b1b; --accent:#3b82f6;
}
*{box-sizing:border-box}
body{font-family:Inter,system-ui,-apple-system,Segoe UI,Roboto,Arial,sans-serif;margin:24px;background:var(--bg);color:var(--text)}
h1{margin:0 0 6px;font-size:34px}
small{color:var(--muted)}
.kpis{display:grid;grid-template-columns:repeat(5,minmax(0,1fr));gap:14px;margin:16px 0}
@media(max-width:1200px){.kpis{grid-template-columns:repeat(3,minmax(0,1fr))}}
@media(max-width:760px){.kpis{grid-template-columns:repeat(2,minmax(0,1fr))}}
.kpi{background:var(--card);border:1px solid var(--line);border-radius:16px;padding:16px}
.kpi b{display:block;font-size:28px}
.kpi span{color:var(--muted)}
.card{border:1px solid var(--line);border-radius:16px;padding:16px;margin:16px 0;background:var(--card)}
.canvas-row{display:grid;grid-template-columns:repeat(2,minmax(0,1fr));gap:16px}
@media(max-width:1100px){.canvas-row{grid-template-columns:1fr}}
.chart-box{border:1px solid var(--line);border-radius:16px;padding:10px;background:#fff}
table{width:100%;border-collapse:collapse;border-radius:12px;overflow:hidden}
th,td{border-bottom:1px solid var(--line);padding:12px 14px;text-align:left;vertical-align:top}
th{background:#f3f4f6}
tr:last-child td{border-bottom:none}
.badge{display:inline-block;padding:2px 8px;border-radius:999px;font-size:12px}
.badge.pass{background:#dcfce7;color:var(--ok)}
.badge.fail{background:#fee2e2;color:var(--ng)}
/* Inline expand card */
tr.subrow td{background:#f9fafb;border-top:none;padding:0}
.expand-card{
  background:#fff;border:1px solid var(--line);border-radius:16px;
  margin:10px 0;padding:12px 16px;box-shadow:0 1px 3px rgba(0,0,0,.05)
}
.api-chip{
  display:inline-flex;align-items:center;gap:6px;border:1px solid var(--line);
  border-radius:999px;padding:6px 10px;margin:6px 8px 0 0;background:#fdfdfd
}
.api-chip b{font-weight:600}
.api-chip .muted{font-size:12px;color:var(--muted)}
/* Details + modal */
details{margin:10px 0;border:1px solid var(--line);border-radius:12px;overflow:hidden;background:#fff}
summary{cursor:pointer;padding:12px 14px;background:#f8fafc;display:flex;gap:10px;align-items:center;flex-wrap:wrap}
summary button{margin-left:auto}
.block{padding:12px;border-top:1px solid var(--line)}
.muted{color:var(--muted)}
.modal{position:fixed;inset:0;display:none}
.modal.show{display:block}
.modal .backdrop{position:absolute;inset:0;background:rgba(0,0,0,.35)}
.modal .dialog{
  position:absolute;top:50%;left:50%;transform:translate(-50%,-50%);
  width:min(940px,92vw);max-height:85vh;background:#fff;border-radius:14px;
  border:1px solid var(--line);box-shadow:0 10px 30px rgba(0,0,0,.2);
  display:flex;flex-direction:column;overflow:hidden
}
.modal .head{display:flex;justify-content:space-between;align-items:center;padding:10px 12px;border-bottom:1px solid var(--line)}
.modal .head h4{margin:0;font-size:16px}
.modal .head .x{border:none;background:transparent;font-size:22px;line-height:1;cursor:pointer;padding:4px 8px}
.modal .body{padding:12px;overflow:auto}
.modal pre{white-space:pre-wrap;word-wrap:break-word;background:#f8fafc;border:1px solid var(--line);border-radius:10px;padding:12px;margin:0}
".

(** The script of the page (lines 428-541), after the two constants. *)
Definition page_script : string := Str.q ";

  function computeChartHeight(labelCount){
    const basePerLabel = Math.max(18, Math.min(28, Math.round(window.innerHeight / 45)));
    const minH = 220;
    const maxH = Math.round(window.innerHeight * 0.6);
    return Math.max(minH, Math.min(maxH, basePerLabel * Math.max(4, labelCount)));
  }
  function trunc(s){
    if(!s) return s;
    const max = window.innerWidth < 700 ? 10 : (window.innerWidth < 1100 ? 18 : 26);
    return s.length > max ? s.slice(0, max-1) + '…' : s;
  }
  function escHtml(s){return String(s||'').replace(/&/g,'&amp;').replace(/</g,'&lt;').replace(/>/g,'&gt;')}

  let chartPass = null, chartResp = null;
  function buildCharts(){
    const labels = DATA.labels || [];
    const h = computeChartHeight(labels.length);
    const c1 = document.getElementById('barPass');
    const c2 = document.getElementById('barResp');
    if (c1) c1.style.height = h + 'px';
    if (c2) c2.style.height = h + 'px';

    const common = (title, max) => ({
      indexAxis: 'y',
      maintainAspectRatio: false,
      responsive: true,
      scales: {
        x: { beginAtZero: true, max, grid: { display:false } },
        y: { ticks:{ autoSkip:true, callback:(v,i)=>trunc(labels[i]) }, grid:{display:false} }
      },
      plugins: { legend:{ display:false }, title:{ display:true, text:title } },
      layout: { padding:{top:6,right:6,bottom:6,left:6} }
    });

    chartPass && chartPass.destroy();
    chartResp && chartResp.destroy();

    if (c1) chartPass = new Chart(c1, {
      type:'bar',
      data:{ labels, datasets:[{ label:'Pass %', data:DATA.passPct }]},
      options: common('Pass % by Folder', 100)
    });
    if (c2) chartResp = new Chart(c2, {
      type:'bar',
      data:{ labels, datasets:[{ label:'Average Response (ms)', data:DATA.avgMs }]},
      options: common('Average Response Time (ms) by Folder')
    });
  }

  // Inline expand in table (card style)
  window.addEventListener('DOMContentLoaded', () => {
    document.querySelectorAll('#tbl tbody tr.clickable').forEach(tr=>{
      tr.addEventListener('click', ()=>{
        const id   = tr.getAttribute('data-row');      // e.g. `folder-availability`
        const name = tr.getAttribute('data-folder');   // raw folder key
        const sub  = document.getElementById('sub-'+id);
        const box  = document.getElementById('box-'+id);

        // close others
        document.querySelectorAll('#tbl tbody tr.subrow').forEach(s=>{
          if (s !== sub) s.style.display = 'none';
        });

        const open = sub.style.display !== 'none';
        if (open) { sub.style.display = 'none'; return; }

        const list = (API_SUMMARY[name] || []);
        box.innerHTML = list.length
          ? list.map(a =>
              '<div class=`api-chip`><b>'+escHtml(a.pretty)+'</b>'+
              '<span class=`badge pass`>'+a.pass+'</span>'+
              '<span class=`badge fail`>'+a.fail+'</span>'+
              '<span class=`muted`>'+a.pct+'%</span></div>'
            ).join('')
          : '<span class=`muted`>No executed APIs in this folder for this run.</span>';

        sub.style.display = 'table-row'; // required for <tr>
      });
    });

    buildCharts();
  });

  // Modal for req/res payloads
  (function(){
    const modal=document.getElementById('modal');
    const mPre =document.getElementById('mPre');
    const mTitle=document.getElementById('mTitle');
    function openModal(kind, id){
      const tag=document.getElementById('payload-'+kind+'-'+id);
      if(!tag) return;
      try{
        const rawB64 = tag.textContent.trim();
        const obj = JSON.parse(atob(rawB64));
        mTitle.textContent = (kind==='req'?'Request':'Response') + ' • ' + id;
        mPre.textContent = JSON.stringify(obj, null, 2);
        modal.classList.add('show');
      }catch(err){
        mTitle.textContent='Payload';
        mPre.textContent='Unable to parse payload';
        modal.classList.add('show');
      }
    }
    function closeModal(){ modal.classList.remove('show'); mPre.textContent=''; }
    document.addEventListener('click',e=>{
      const btn=e.target.closest('[data-open]'); if(btn){ openModal(btn.getAttribute('data-open'), btn.getAttribute('data-for')); }
      if(e.target.closest('[data-close]')) closeModal();
      if(e.target.classList.contains('backdrop')) closeModal();
    });
    document.addEventListener('keydown',e=>{ if(e.key==='Escape') closeModal(); });
  })();

  window.addEventListener('resize', ()=>{ clearTimeout(window.__rt); window.__rt=setTimeout(buildCharts,150); });
  </script>
</body>
</html>".

(** One row of the folder table and its hidden companion (lines 329-345). *)
Definition render_folder_row (r : FolderRow) : string :=
  let fid := "folder-" ++ idfy (row_group r) in
  Str.concat
    [Str.q "
            <tr class=`clickable` data-row=`"; fid; Str.q "` data-folder=`"; esc (row_group r); Str.q "`>
              <td>";
     esc (row_pretty r); Str.q " <span class=`badge`>"; Str.of_nat (List.length (row_apis r)); Str.q "</span></td>
              <td><span class=`badge pass`>";
     fmt (row_pass r); Str.q "</span></td>
              <td><span class=`badge fail`>";
     fmt (row_fail r); "</span></td>
              <td>";
     fmt (row_total r); "</td>
              <td>";
     fmt (row_passPct r); "%</td>
              <td>";
     fmt (row_avgMs r); Str.q "</td>
            </tr>
            <tr class=`subrow` id=`sub-";
     fid; Str.q "` style=`display:none`>
              <td colspan=`6`>
                <div class=`expand-card` id=`box-";
     fid; Str.q "`>
                  <span class=`muted`>Loading…</span>
                </div>
              </td>
            </tr>"].

(** One row of the table of checks (line 386). *)
Definition render_check (i : nat) (c : Check) : string :=
  Str.concat
    [Str.q "<tr class=`"; (if ok c then "ok" else "ng"); Str.q "`><td>";
     Str.of_nat (i + 1); "</td><td>"; esc (name c); "</td><td>";
     (if ok c then "PASS" else "FAIL"); "</td><td>";
     esc (if ok c then "OK" else message c); "</td></tr>"].

Fixpoint mapi_from {A B : Type} (f : nat -> A -> B) (i : nat) (l : list A) : list B :=
  match l with
  | [] => []
  | x :: r => f i x :: mapi_from f (S i) r
  end.

(** One test case of an API (lines 371-390). *)
Definition render_case (apiName : string) (tc : TestCase) : string :=
  Str.concat
    [Str.q "<div class=`block` id=`"; id tc; Str.q "`>";
     "<div>";
     Str.q "<span class=`badge "; (if is_pass tc then "pass" else "fail"); Str.q "`>";
     Str.toUpperCase (Outcome_text (result tc)); "</span> ";
     "<b>"; tcId tc; "-"; esc (pretty apiName); "</b> ";
     (match statusCode tc with
      | Some n => if n =? 0 then "" else "· <b>Status:</b> " ++ Str.of_Z n ++ " "
      | None => ""
      end);
     (match respMs tc with
      | Some ms => "· <b>Resp:</b> " ++ fmt ms ++ " ms "
      | None => ""
      end);
     Str.q "<button class=`btn-mini` data-open=`req` data-for=`"; id tc;
     Str.q "`>View Request</button>";
     Str.q " <button class=`btn-mini` data-open=`res` data-for=`"; id tc;
     Str.q "`>View Response</button>";
     "</div>";
     Str.q "<script type=`application/json` id=`payload-req-"; id tc; Str.q "`>";
     reqB64 tc; "</script>";
     Str.q "<script type=`application/json` id=`payload-res-"; id tc; Str.q "`>";
     resB64 tc; "</script>";
     "<div><b>Checks:</b> "; fmt (checksPassed tc); " / "; fmt (checksTotal tc); "</div>";
     (match checks tc with
      | [] => Str.q "<div class=`muted`>— no assertions —</div>"
      | cs =>
          Str.q "<table class=`checks`><thead><tr><th>#</th><th>Assertion</th><th>Status</th><th>Message</th></tr></thead><tbody>"
            ++ Str.concat (mapi_from render_check 0 cs)
            ++ "</tbody></table>"
      end);
     "</div>"].

Section WithCollation.

Variable localeCompare : string -> string -> comparison.

(** One API of a folder (lines 361-393). *)
Definition render_api (fr : FolderRow) (e : string * list TestCase) : string :=
  let apiName := fst e in
  let cases := sort (fun a b => Z.compare (iteration a) (iteration b)) (snd e) in
  let passCnt := List.length (filter is_pass cases) in
  let failCnt := List.length (filter is_fail cases) in
  Str.concat
    [Str.q "<details id=`api-"; idfy (row_group fr ++ "-" ++ apiName);
     Str.q "` style=`margin:8px 12px`>";
     "<summary><b>"; esc (pretty apiName); "</b> — ";
     Str.of_nat (List.length cases); " case(s) · ";
     Str.q "<span class=`badge pass`>"; Str.of_nat passCnt; "</span> ";
     Str.q "<span class=`badge fail`>"; Str.of_nat failCnt; "</span></summary>";
     Str.concat (List.map (render_case apiName) cases);
     "</details>"].

(** The object [apimap] of line 356: the cases of a folder by [tc.api].  The
    first case of an API whose name [{}] inherits finds a value that is not
    an array and has no [push]: the reducer throws a [TypeError] ([None]). *)
Definition apimap (apis : list TestCase) : option (list (string * list TestCase)) :=
  if existsb (fun tc => inherited (api tc)) apis then None
  else Some (fold_left (fun m tc => push_case (api tc) tc m) apis []).

(** One folder of the details (lines 355-396). *)
Definition render_folder (fr : FolderRow) : option string :=
  match apimap (row_apis fr) with
  | None => None
  | Some m =>
      let apiNames :=
        sort (fun a b => localeCompare (pretty (fst a)) (pretty (fst b)))
             (own_keys_order m) in
      Some (Str.concat
        [Str.q "<details id=`folder-"; idfy (row_group fr); Str.q "`>";
         "<summary><b>"; esc (pretty (row_group fr)); "</b> — ";
         Str.of_nat (List.length apiNames); " API(s)</summary>";
         Str.concat (List.map (render_api fr) apiNames);
         "</details>"])
  end.

Fixpoint all_or_none {A : Type} (l : list (option A)) : option (list A) :=
  match l with
  | [] => Some []
  | Some x :: r =>
      match all_or_none r with Some xs => Some (x :: xs) | None => None end
  | None :: _ => None
  end.

(** The inputs of a render besides the test cases. *)
Record Settings : Type := mkSettings {
  TITLE : string;
  SLA_MS : Z;
  SUITE_PARENT : string;
  SUITE_MODULE : string;
  generated : string     (* [new Date(startedAt).toLocaleString()] *)
}.

(** The document [html] (lines 284-543); [None] when the render throws. *)
Definition render (cfg : Settings) (tcs : list TestCase) : option string :=
  let rows := folderRows localeCompare tcs in
  match all_or_none (List.map render_folder rows) with
  | None => None
  | Some folders =>
      Some (Str.concat
        [Str.q "<!doctype html>
<html>
<head>
<meta http-equiv=`Content-Type` content=`text/html; charset=utf-8`>
<meta charset=`utf-8`/>
<meta name=`viewport` content=`width=device-width,initial-scale=1`/>
<meta name=`suite-parent` content=`"; esc (SUITE_PARENT cfg);
         Str.q "`/>
<meta name=`suite-module` content=`"; esc (SUITE_MODULE cfg);
         Str.q "`/>
<title>"; esc (TITLE cfg);
         "</title>
<style>"; css;
         "</style>
</head>
<body>
  <h1>"; esc (TITLE cfg);
         "</h1>
  <small>Generated: "; generated cfg;
         Str.q "</small>

  <div class=`kpis`>
    <div class=`kpi`><b>"; fmt (passPct tcs);
         Str.q "%</b><span>Pass Rate</span></div>
    <div class=`kpi`><b>"; fmt (totalCases tcs);
         Str.q "</b><span>Total Test Cases</span></div>
    <div class=`kpi`><b>"; fmt (passedCases tcs);
         Str.q "</b><span>Passed</span></div>
    <div class=`kpi`><b>"; fmt (failedCases tcs);
         Str.q "</b><span>Failed</span></div>
    <div class=`kpi`><b>"; fmt (withinPct (SLA_MS cfg) tcs);
         "%</b><span>Within SLA ("; fmt (SLA_MS cfg);
         Str.q " ms)</span></div>
  </div>

  <div class=`card`>
    <div class=`canvas-row`>
      <div class=`chart-box`><canvas id=`barPass`></canvas></div>
      <div class=`chart-box`><canvas id=`barResp`></canvas></div>
    </div>
  </div>

  <div class=`card`>
    <h3 style=`margin:0 0 8px`>Consolidated by <b>Folder</b></h3>
    <table id=`tbl`>
      <thead>
        <tr>
          <th>Folder</th>
          <th>Passed</th>
          <th>Failed</th>
          <th>Total</th>
          <th>Pass %</th>
          <th>Avg Resp (ms)</th>
        </tr>
      </thead>
      <tbody>
        "; Str.concat (List.map render_folder_row rows);
         Str.q "
      </tbody>
    </table>
  </div>

  <div class=`card`>
    <h3 style=`margin:0 0 8px`>Folder-wise Execution Details (APIs & Checks)</h3>
    ";
         (match rows with
          | [] => Str.q "<div class=`muted`>No folders found.</div>"
          | _ => Str.concat folders
          end);
         Str.q "
  </div>

  <!-- Hidden JSON: suite API list (for combiner unique count) -->
  <script type=`application/json` id=`suite-apis`>"; json_array (List.map json_string (suiteApiSet tcs));
         Str.q "</script>

  <!-- Modal -->
  <div class=`modal` id=`modal`>
    <div class=`backdrop` data-close=`1`></div>
    <div class=`dialog`>
      <div class=`head`>
        <h4 id=`mTitle`>Payload</h4>
        <button class=`x` data-close=`1` aria-label=`Close`>×</button>
      </div>
      <div class=`body`>
        <pre id=`mPre`></pre>
      </div>
    </div>
  </div>

  <script src=`https://cdn.jsdelivr.net/npm/chart.js`></script>
  <script>
  const DATA = ";
         json_object
           [("labels", json_array (List.map (fun r => json_string (pretty (row_group r))) rows));
            ("passPct", json_array (List.map (fun r => Str.of_Z (row_passPct r)) rows));
            ("avgMs", json_array (List.map (fun r => Str.of_Z (row_avgMs r)) rows))];
         ";
  const API_SUMMARY = ";
         json_object
           (own_keys_order
              (List.map
                 (fun fr => (row_group fr,
                             json_array (List.map json_ApiSummary
                                           (buildApiSummaryForFolder tcs (row_group fr)))))
                 rows));
         page_script])
  end.

End WithCollation.

End Builder.

(* ================================================================== *)
(** ** JSON texts, as [JSON.parse] reads them *)

Module Json.

(** A parsed JSON value.  A number keeps its text: the aggregator only asks
    whether it is zero and what [String] prints for it. *)
#[local] Unset Elimination Schemes.
Inductive json : Type :=
| JNull : json
| JBool : bool -> json
| JNum : string -> json
| JStr : string -> json
| JArr : list json -> json
| JObj : list (string * json) -> json.
#[local] Set Elimination Schemes.

Definition is_ws (c : ascii) : bool :=
  (Ascii.eqb c " " || Ascii.eqb c (ascii_of_nat 9)
   || Ascii.eqb c (ascii_of_nat 10) || Ascii.eqb c (ascii_of_nat 13))%bool.

Fixpoint skip_ws (s : string) : string :=
  match s with
  | String c t => if is_ws c then skip_ws t else s
  | EmptyString => EmptyString
  end.

Definition hex_value (c : ascii) : option N :=
  let n := Str.code c in
  if Str.is_digit c then Some (n - 48)%N
  else if Str.between 97 102 c then Some (n - 87)%N
  else if Str.between 65 70 c then Some (n - 55)%N
  else None.

(** The bytes of the character [\uXXXX] stands for. *)
Definition unit_bytes (n : N) : string :=
  if N.ltb n 128 then String (ascii_of_N n) EmptyString
  else if N.ltb n 2048 then
    String (ascii_of_N (192 + n / 64))
      (String (ascii_of_N (128 + n mod 64)) EmptyString)
  else
    String (ascii_of_N (224 + n / 4096))
      (String (ascii_of_N (128 + (n / 64) mod 64))
         (String (ascii_of_N (128 + n mod 64)) EmptyString)).

(** The characters of a string after its opening quote; the result is the
    string and the text after the closing quote. *)
Fixpoint parse_chars (s acc : string) : option (string * string) :=
  match s with
  | EmptyString => None
  | String c t =>
      if Ascii.eqb c Str.dquote then Some (Str.rev acc, t)
      else if N.ltb (Str.code c) 32 then None
      else if Ascii.eqb c "\" then
        match t with
        | String e t' =>
            let simple (x : ascii) := parse_chars t' (String x acc) in
            if Ascii.eqb e Str.dquote then simple Str.dquote
            else if Ascii.eqb e "\" then simple "\"%char
            else if Ascii.eqb e "/" then simple "/"%char
            else if Ascii.eqb e "b" then simple (ascii_of_nat 8)
            else if Ascii.eqb e "f" then simple (ascii_of_nat 12)
            else if Ascii.eqb e "n" then simple (ascii_of_nat 10)
            else if Ascii.eqb e "r" then simple (ascii_of_nat 13)
            else if Ascii.eqb e "t" then simple (ascii_of_nat 9)
            else if Ascii.eqb e "u" then
              match t' with
              | String h1 (String h2 (String h3 (String h4 t''))) =>
                  match hex_value h1, hex_value h2, hex_value h3, hex_value h4 with
                  | Some a, Some b, Some c', Some d =>
                      parse_chars t''
                        (Str.rev_append
                           (unit_bytes (((a * 16 + b) * 16 + c') * 16 + d)%N) acc)
                  | _, _, _, _ => None
                  end
              | _ => None
              end
            else None
        | EmptyString => None
        end
      else parse_chars t (String c acc)
  end.

(** A JSON number: an optional sign, an integer part without a leading
    zero, an optional fraction, an optional exponent. *)
Definition number_re : Re.regex :=
  Re.seq
    [Re.Opt (Re.Chr (Re.only "-"));
     Re.Alt (Re.Chr (Re.only "0"))
            (Re.Seq (Re.Chr (Str.between 49 57)) (Re.Star true (Re.Chr Str.is_digit)));
     Re.Opt (Re.Seq (Re.Chr (Re.only ".")) (Re.Plus true (Re.Chr Str.is_digit)));
     Re.Opt (Re.seq [Re.Chr (Re.ci "e");
                     Re.Opt (Re.Chr (fun c => Ascii.eqb c "+" || Ascii.eqb c "-"));
                     Re.Plus true (Re.Chr Str.is_digit)])].

Definition parse_number (s : string) : option (json * string) :=
  match Re.at_pos number_re 0%N None s with
  | Some m => Some (JNum (Str.firstn (N.to_nat (Re.stop m)) s), Re.after m)
  | None => None
  end.

Definition after_word (w s : string) (v : json) : option (json * string) :=
  if prefix w s then Some (v, Str.skipn (String.length w) s) else None.

Fixpoint parse_value (fuel : nat) (s : string) {struct fuel} : option (json * string) :=
  match fuel with
  | O => None
  | S f =>
      match skip_ws s with
      | EmptyString => None
      | String c t as s' =>
          if Ascii.eqb c "[" then
            match skip_ws t with
            | String "]" t' => Some (JArr [], t')
            | _ =>
                match parse_elements f t with
                | Some (vs, r) => Some (JArr vs, r)
                | None => None
                end
            end
          else if Ascii.eqb c "{" then
            match skip_ws t with
            | String "}" t' => Some (JObj [], t')
            | _ =>
                match parse_members f t with
                | Some (kvs, r) => Some (JObj kvs, r)
                | None => None
                end
            end
          else if Ascii.eqb c Str.dquote then
            match parse_chars t EmptyString with
            | Some (x, r) => Some (JStr x, r)
            | None => None
            end
          else if Ascii.eqb c "t" then after_word "true" s' (JBool true)
          else if Ascii.eqb c "f" then after_word "false" s' (JBool false)
          else if Ascii.eqb c "n" then after_word "null" s' JNull
          else parse_number s'
      end
  end
with parse_elements (fuel : nat) (s : string) {struct fuel}
  : option (list json * string) :=
  match fuel with
  | O => None
  | S f =>
      match parse_value f s with
      | Some (v, r) =>
          match skip_ws r with
          | String "," r' =>
              match parse_elements f r' with
              | Some (vs, r'') => Some (v :: vs, r'')
              | None => None
              end
          | String "]" r' => Some ([v], r')
          | _ => None
          end
      | None => None
      end
  end
with parse_members (fuel : nat) (s : string) {struct fuel}
  : option (list (string * json) * string) :=
  match fuel with
  | O => None
  | S f =>
      match skip_ws s with
      | String c t =>
          if Ascii.eqb c Str.dquote then
            match parse_chars t EmptyString with
            | Some (k, r) =>
                match skip_ws r with
                | String ":" r1 =>
                    match parse_value f r1 with
                    | Some (v, r2) =>
                        match skip_ws r2 with
                        | String "," r3 =>
                            match parse_members f r3 with
                            | Some (kvs, r4) => Some ((k, v) :: kvs, r4)
                            | None => None
                            end
                        | String "}" r3 => Some ([(k, v)], r3)
                        | _ => None
                        end
                    | None => None
                    end
                | _ => None
                end
            | None => None
            end
          else None
      | EmptyString => None
      end
  end.

(** [JSON.parse(text)]; [None] when it throws a [SyntaxError]. *)
Definition parse (text : string) : option json :=
  match parse_value (2 * String.length text + 2) text with
  | Some (v, r) => if Str.is_empty (skip_ws r) then Some v else None
  | None => None
  end.

(** A number is falsy when it is zero: no digit of its mantissa differs
    from [0]. *)
Fixpoint mantissa_zero (s : string) : bool :=
  match s with
  | EmptyString => true
  | String c t =>
      if Ascii.eqb (Str.lower c) "e" then true
      else if Str.between 49 57 c then false
      else mantissa_zero t
  end.

Definition truthy (v : json) : bool :=
  match v with
  | JNull => false
  | JBool b => b
  | JNum lx => negb (mantissa_zero lx)
  | JStr s => negb (Str.is_empty s)
  | JArr _ | JObj _ => true
  end.

Section WithNumbers.

(** [String(n)] for the number a JSON text denotes. *)
Variable Number_toString : string -> string.

(** [String(v)] *)
Fixpoint to_String (v : json) : string :=
  match v with
  | JNull => "null"
  | JBool true => "true"
  | JBool false => "false"
  | JNum lx => Number_toString lx
  | JStr s => s
  | JArr items =>
      Str.join ","
        ((fix each (l : list json) : list string :=
            match l with
            | [] => []
            | JNull :: r => EmptyString :: each r
            | x :: r => to_String x :: each r
            end) items)
  | JObj _ => "[object Object]"
  end.

(** [String(v || ``)] *)
Definition to_String_or_empty (v : json) : string :=
  if truthy v then to_String v else EmptyString.

End WithNumbers.

End Json.

(* ================================================================== *)
(** ** The combined report aggregator (combine-email-report.js) *)

Module Aggregator.

Import Re.

Definition quote_char (c : ascii) : bool :=
  (Ascii.eqb c Str.dquote || Ascii.eqb c "'")%bool.

Definition not_gt : regex := Star true (Chr (but ">")).
Definition spaces : regex := Star true (Chr Str.is_space).

(** [/<meta name=`suite-parent` content=`([^`]+)`/i] and its sibling for
    [suite-module]. *)
Definition meta_re (what : string) : regex :=
  seq [lit_i (Str.q "<meta name=`" ++ what ++ Str.q "` content=`");
       Group 1 (Plus true (Chr (but Str.dquote)));
       Chr (only Str.dquote)].

Definition extract_meta (what fallback : string) (htmlText : string) : string :=
  or_else (opt_get (exec (meta_re what) htmlText) (group 1)) fallback.

(** [extractParent], [extractModule] (lines 111-116) *)
Definition extractParent : string -> string := extract_meta "suite-parent" "Parent".
Definition extractModule : string -> string := extract_meta "suite-module" "Module".

(** [/<script[^>]*id=[`']suite-apis[`'][^>]*>([\s\S]*?)<\/script>/i] *)
Definition suite_apis_re : regex :=
  seq [lit_i "<script"; not_gt; lit_i "id="; Chr quote_char;
       lit_i "suite-apis"; Chr quote_char; not_gt; Chr (only ">");
       Group 1 (Star false (Chr any)); lit_i "</script>"].

(** [/<tr[^>]*>\s*<td>(.*?)<\/td>\s*<td[^>]*>(?:<span[^>]*>)?(\d+)(?:<\/span>)?<\/td>
    \s*<td[^>]*>(?:<span[^>]*>)?(\d+)(?:<\/span>)?<\/td>\s*<td[^>]*>(\d+)<\/td>
    \s*<td[^>]*>(\d+(?:\.\d+)?)\s*%?\s*<\/td>\s*<td[^>]*>([\d,\.]+)\s*<\/td>\s*<\/tr>/gi]
    (one line in the script) *)
Definition digits : regex := Plus true (Chr Str.is_digit).
Definition td_open : regex := seq [lit_i "<td"; not_gt; Chr (only ">")].
Definition td_close : regex := lit_i "</td>".

Definition badge_cell (n : nat) : regex :=
  seq [td_open; Opt (seq [lit_i "<span"; not_gt; Chr (only ">")]);
       Group n digits; Opt (lit_i "</span>"); td_close].

Definition row_re : regex :=
  seq [lit_i "<tr"; not_gt; Chr (only ">"); spaces;
       lit_i "<td>"; Group 1 (Star false (Chr dot)); td_close; spaces;
       badge_cell 2; spaces;
       badge_cell 3; spaces;
       td_open; Group 4 digits; td_close; spaces;
       td_open;
       Group 5 (Seq digits (Opt (Seq (Chr (only ".")) digits)));
       spaces; Opt (Chr (only "%")); spaces; td_close; spaces;
       td_open;
       Group 6 (Plus true (Chr (fun c => Str.is_digit c || Ascii.eqb c ","
                                          || Ascii.eqb c ".")));
       spaces; td_close; spaces;
       lit_i "</tr>"].

(** [/<span[^>]*class=[`'][^`']*badge[^`']*[`'][^>]*>.*?<\/span>/gi] *)
Definition badge_span_re : regex :=
  let not_quote := Star true (Chr (fun c => negb (quote_char c))) in
  seq [lit_i "<span"; not_gt; lit_i "class="; Chr quote_char; not_quote;
       lit_i "badge"; not_quote; Chr quote_char; not_gt; Chr (only ">");
       Star false (Chr dot); lit_i "</span>"].

(** [/<[^>]*>/g] *)
Definition tag_re : regex := seq [Chr (only "<"); not_gt; Chr (only ">")].

(** [/\s+\d+$/] *)
Definition trailing_count_re : regex :=
  seq [Plus true (Chr Str.is_space); digits; Eol].

(** [Number(s)] for a text made of digits and dots: [None] is [NaN]. *)
Definition Number_decimal (s : string) : option Q :=
  match Str.split "." s with
  | [i] => Some (inject_Z (Str.to_Z i))
  | [i; f] =>
      if (Str.is_empty i && Str.is_empty f)%bool then None
      else Some (Qred (inject_Z (Str.to_Z i)
                       + inject_Z (Str.to_Z f) / inject_Z (10 ^ Z.of_nat (String.length f))))
  | _ => None
  end.

(** A row of a suite document, as [parseSuiteRows] returns it. *)
Record Row : Type := mkRow {
  parent : string;
  module : string;
  api : string;
  pass : Z;
  fail : Z;
  total : Z;
  passPct : option Q;
  avg : option Q
}.

Definition cap_text (n : nat) (m : rmatch_result) : string :=
  nullish (group n m) EmptyString.

(** The body of the loop of [parseSuiteRows] (lines 138-152). *)
Definition row_of_match (parent module : string) (m : rmatch_result) : Row :=
  let cell := replace_all badge_span_re "" (cap_text 1 m) in
  let api := Str.trim (replace_all tag_re "" cell) in
  let api := replace_first trailing_count_re "" api in
  mkRow parent module api
    (Str.to_Z (cap_text 2 m))
    (Str.to_Z (cap_text 3 m))
    (Str.to_Z (cap_text 4 m))
    (Number_decimal (cap_text 5 m))
    (Number_decimal (replace_char "," "" (cap_text 6 m))).

(** [parseSuiteRows] (lines 130-155) *)
Definition parseSuiteRows (htmlText : string) : list Row :=
  let parent := extractParent htmlText in
  let module := extractModule htmlText in
  List.map (row_of_match parent module) (matches row_re htmlText).

(** [/(\+\s*-->\s*Failing|\+\s*--&gt;\s*Failing)/i] *)
Definition SOFT : regex :=
  Group 1
    (Alt (seq [Chr (only "+"); spaces; lit_i "-->"; spaces; lit_i "Failing"])
         (seq [Chr (only "+"); spaces; lit_i "--&gt;"; spaces; lit_i "Failing"])).

(** The expression [apiRe] of line 179: [escapeRegExp] makes the name a
    literal text, and the flag [i] makes it case-insensitive. *)
Definition apiRe (api : string) : regex :=
  seq [lit_i "<summary"; not_gt; Chr (only ">"); spaces; lit_i "<b>"; spaces;
       lit_i api; spaces; lit_i "</b>"; Star false (Chr any); lit_i "</summary>"].

(** [Array.from(new Set(l))] *)
Definition dedup (l : list string) : list string :=
  fold_left (fun s x => Builder.set_add x s) l [].

Definition nonempty (s : string) : bool := negb (Str.is_empty s).

(** The names found in the rows: [rows.map(r => r.api).filter(Boolean)],
    without repetition. *)
Definition row_apis (rows : list Row) : list string :=
  dedup (filter nonempty (List.map api rows)).

(** The window of 30000 characters of lines 187 and 198. *)
Definition window : nat := 30 * 1000.

(** What the scan of one API decides (the body of the loop, lines 177-200):
    is the API flagged? *)
Definition soft_section (htmlText api : string) : option string :=
  match exec (apiRe api) htmlText with
  | None =>
      match Str.indexOf ("<b>" ++ Str.toLowerCase api ++ "</b>")
                        (Str.toLowerCase htmlText) 0 with
      | None => None
      | Some roughIdx =>
          Some (Str.slice roughIdx
                  (Nat.min (String.length htmlText) (roughIdx + window)) htmlText)
      end
  | Some startMatch =>
      let startIdx := N.to_nat (index startMatch) in
      let from :=
        match Str.lastIndexOf "<details" htmlText startIdx with
        | Some i => i
        | None => startIdx
        end in
      let to :=
        match Str.indexOf "</details>" htmlText startIdx with
        | Some i => i
        | None => Nat.min (String.length htmlText) (startIdx + window)
        end in
      Some (Str.slice from to htmlText)
  end.

Definition soft_flagged (htmlText api : string) : bool :=
  match soft_section htmlText api with
  | Some section => test SOFT section
  | None => false
  end.

Section WithNumbers.

Variable Number_toString : string -> string.

(** [extractSuiteApis] (lines 117-127) *)
Definition extractSuiteApis (htmlText : string) : list string :=
  match exec suite_apis_re htmlText with
  | None => []
  | Some m =>
      match Json.parse (cap_text 1 m) with
      | Some (Json.JArr arr) =>
          filter nonempty
            (List.map (fun s => Str.trim (Json.to_String_or_empty Number_toString s)) arr)
      | _ => []
      end
  end.

(** The list [apiList] of lines 171 and 336: the registry of the document,
    or else the names in its rows. *)
Definition apiList (htmlText : string) (rows : list Row) : list string :=
  match extractSuiteApis htmlText with
  | [] => row_apis rows
  | apis => apis
  end.

(** [detectSoftFailApis] (lines 169-204): the set [flagged]. *)
Definition detectSoftFailApis (htmlText : string) (fallbackRows : list Row)
  : list string :=
  fold_left
    (fun flagged api =>
       if Str.is_empty api then flagged
       else if soft_flagged htmlText api then Builder.set_add api flagged
       else flagged)
    (apiList htmlText fallbackRows) [].

End WithNumbers.

(** [pctStr] (line 93).  The quotient is exact here; the script multiplies
    the double [num/den] by 100, so that a rate whose hundredfold ends in a
    half (23 of 40) can be printed one lower by the script. *)
Definition pctStr (num den : Z) : string :=
  if den >? 0 then Str.of_Z (Num.Math_round (Num.div num den * 100)%Q) ++ "%"
  else "0%".

Record Sums : Type := mkSums { passSum : Z; failSum : Z; totalSum : Z }.

Definition row_key (r : Row) : string :=
  parent r ++ "|" ++ module r ++ "|" ++ api r.

(** The map [keyMap] of [aggregateApiStatsFromRows] (lines 208-216): the
    CombinedApiAggregate of every key. *)
Definition keyMap_step (m : list (string * Sums)) (r : Row) : list (string * Sums) :=
  let cur := nullish (Suite.map_get (row_key r) m) (mkSums 0 0 0) in
  Suite.map_set (row_key r)
    (mkSums (passSum cur + pass r) (failSum cur + fail r) (totalSum cur + total r)) m.

Definition keyMap (rows : list Row) : list (string * Sums) :=
  fold_left keyMap_step rows [].

Definition api_passed (v : Sums) : bool :=
  ((totalSum v >? 0) && (failSum v =? 0))%bool.

Record ApiStats : Type := mkApiStats {
  unique : Z;
  passed : Z;
  failed : Z;
  rate : string
}.

(** [aggregateApiStatsFromRows] (lines 207-223) *)
Definition aggregateApiStatsFromRows (rows : list Row) : ApiStats :=
  let m := keyMap rows in
  let unique := Num.len m in
  let passed := Num.len (filter (fun kv => api_passed (snd kv)) m) in
  mkApiStats unique passed (Z.max 0 (unique - passed)) (pctStr passed unique).

Record CaseStats : Type := mkCaseStats {
  cs_total : Z;
  cs_pass : Z;
  cs_fail : Z;
  cs_rate : string
}.

(** [aggregateCaseStats] (lines 224-233) *)
Definition aggregateCaseStats (rows : list Row) : CaseStats :=
  let pass_ := fold_left (fun a r => a + pass r) rows 0 in
  let fail_ := fold_left (fun a r => a + fail r) rows 0 in
  let total_ :=
    fold_left (fun a r => a + (if total r =? 0 then pass r + fail r else total r))
              rows 0 in
  mkCaseStats total_ pass_ fail_ (pctStr pass_ total_).

(** What the loop over the suite documents accumulates (lines 305-345). *)
Record Scan : Type := mkScan {
  allRows : list Row;
  grandUniqueSet : list string;                 (* keys [parent|name] *)
  uniqueByParent : list (string * list string);
  softFailKeySet : list string;                 (* keys [parent|module|api] *)
  softFailByParent : list (string * list string)
}.

Definition empty_scan : Scan := mkScan [] [] [] [] [].

Definition set_of (k : string) (m : list (string * list string)) : list string :=
  nullish (Suite.map_get k m) [].

Section Main.

Variable Number_toString : string -> string.

(** The names one document adds to the unique APIs of its parent (lines
    335-344). *)
Definition unique_names (html : string) (rows : list Row) : list string :=
  filter nonempty (List.map Str.trim (apiList Number_toString html rows)).

(** One turn of the loop over the files (lines 312-345). *)
Definition scan_step (st : Scan) (html : string) : Scan :=
  let rows := parseSuiteRows html in
  let parent := extractParent html in
  let softApis := detectSoftFailApis Number_toString html rows in
  let names := unique_names html rows in
  mkScan
    (allRows st ++ rows)
    (fold_left (fun s n => Builder.set_add (parent ++ "|" ++ n) s) names
               (grandUniqueSet st))
    (Suite.map_set parent
       (fold_left (fun s n => Builder.set_add n s) names
                  (set_of parent (uniqueByParent st)))
       (uniqueByParent st))
    (fold_left
       (fun s r => if existsb (String.eqb (api r)) softApis
                   then Builder.set_add (row_key r) s else s)
       rows (softFailKeySet st))
    (Suite.map_set parent
       (fold_left (fun s a => Builder.set_add a s) softApis
                  (set_of parent (softFailByParent st)))
       (softFailByParent st)).

Definition scan (docs : list string) : Scan := fold_left scan_step docs empty_scan.

(** The tiles of unique APIs (lines 355-359 and 366-370): the registry gives
    the number of unique APIs, the rows give the number of passed ones. *)
Definition api_tiles (registry : Z) (rows : list Row) : ApiStats :=
  let fromRows := aggregateApiStatsFromRows rows in
  let unique := if registry =? 0 then unique fromRows else registry in
  let passed := passed fromRows in
  mkApiStats unique passed (Z.max 0 (unique - passed)) (pctStr passed unique).

Definition grandApiDisp (st : Scan) : ApiStats :=
  api_tiles (Num.len (grandUniqueSet st)) (allRows st).

Definition grandCase (st : Scan) : CaseStats := aggregateCaseStats (allRows st).

Definition rows_of_parent (p : string) (rows : list Row) : list Row :=
  filter (fun r => String.eqb (parent r) p) rows.

Definition pApiDisp (st : Scan) (p : string) : ApiStats :=
  api_tiles (Num.len (set_of p (uniqueByParent st))) (rows_of_parent p (allRows st)).

Definition pCase (st : Scan) (p : string) : CaseStats :=
  aggregateCaseStats (rows_of_parent p (allRows st)).

(** The objects [rowsByParent] (lines 348-352) and [byModule] (lines
    374-378) are indexed by the parent and by the module of the rows: a
    parent or a module that is the name of a property every object inherits
    finds a value without [push], and the script throws before it writes
    anything. *)
Definition throws (rows : list Row) : bool :=
  existsb (fun r => (Builder.inherited (parent r) || Builder.inherited (module r))%bool)
          rows.

(** The tiles at the head of the combined report: [None] when there is no
    document to combine (the script returns at once) or when it throws. *)
Definition grand_tiles (docs : list string) : option (ApiStats * CaseStats) :=
  match docs with
  | [] => None
  | _ =>
      let st := scan docs in
      if throws (allRows st) then None else Some (grandApiDisp st, grandCase st)
  end.

(** A row of the combined tables is highlighted when its key is in
    [softFailKeySet] (lines 384-386). *)
Definition isSoft (st : Scan) (r : Row) : bool :=
  existsb (String.eqb (row_key r)) (softFailKeySet st).

End Main.

End Aggregator.

(* ================================================================== *)
(** ** The identity of a suite (make-suite-report.js, lines 51-62) *)

Module Identity.

(** [/[\\/]+/] *)
Definition sep_re : Re.regex :=
  Re.Plus true (Re.Chr (fun c => (Ascii.eqb c "\" || Ascii.eqb c "/")%bool)).

(** [/newmancollectionlist/i] *)
Definition anchor_re : Re.regex := Re.lit_i "newmancollectionlist".

Fixpoint findIndex {A : Type} (p : A -> bool) (l : list A) : option nat :=
  match l with
  | [] => None
  | x :: r =>
      if p x then Some O
      else match findIndex p r with Some i => Some (S i) | None => None end
  end.

Section WithPath.

(** [path.resolve] of the host: it depends on the platform and on the
    working directory of the process. *)
Variable path_resolve : string -> string.

Definition segments (p : string) : list string :=
  Re.split sep_re (path_resolve p).

(** [deriveParentFromPath] (lines 51-55) *)
Definition deriveParentFromPath (p : string) : string :=
  let segs := segments p in
  match findIndex (Re.test anchor_re) segs with
  | Some i => or_else (nth_error segs (i + 1)) "Misc"
  | None => "Misc"
  end.

(** [collection?.info?.name?.split(`-`).pop()?.trim() || `Module`]; the
    name of the collection is [None] when the collection, its [info] or the
    name is missing. *)
Definition module_fallback (collection_name : option string) : string :=
  or_else
    (option_map (fun n => Str.trim (List.last (Str.split "-" n) EmptyString))
                collection_name)
    "Module".

(** [deriveModuleFromPath] (lines 56-60) *)
Definition deriveModuleFromPath (collection_name : option string) (p : string)
  : string :=
  let segs := segments p in
  match findIndex (Re.test anchor_re) segs with
  | Some i => or_else (nth_error segs (i + 2)) (module_fallback collection_name)
  | None => module_fallback collection_name
  end.

End WithPath.

End Identity.

(* ================================================================== *)
(** ** Vocabulary of the statements *)

Module Spec.

(** Two texts equal up to the case of their letters. *)
Definition ci_eq (a b : string) : Prop := Str.toUpperCase a = Str.toUpperCase b.

(** [s] contains [needle], whatever the case of the letters. *)
Definition contains_ci (needle s : string) : Prop :=
  exists pre w post, s = pre ++ w ++ post /\ ci_eq w needle.

(** Is the character a letter, a digit or an underscore?  (No character
    is none of them.) *)
Definition wordc (o : option ascii) : bool :=
  match o with Some c => Str.is_word c | None => false end.

Definition head (s : string) : option ascii :=
  match s with String c _ => Some c | EmptyString => None end.

Definition starts_nonword (s : string) : Prop :=
  match s with
  | EmptyString => True
  | String c _ => Str.is_word c = false
  end.

(** The last character of [pre], or [prev] when [pre] is empty. *)
Fixpoint prev_after (prev : option ascii) (pre : string) : option ascii :=
  match pre with
  | EmptyString => prev
  | String c t => prev_after (Some c) t
  end.

Definition ends_nonword (s : string) : Prop :=
  match prev_after None s with
  | None => True
  | Some c => Str.is_word c = false
  end.

(** [s] contains the word [skip], whatever the case of its letters: an
    occurrence with no letter, digit or underscore just before or just
    after it. *)
Definition has_skip_word (s : string) : Prop :=
  exists pre w post,
    s = pre ++ w ++ post /\ ci_eq w "skip"
    /\ ends_nonword pre /\ starts_nonword post.

(** What a regular expression accepts: [accepts r prev m post] when [r]
    matches the text [m], found after the character [prev] and before the
    text [post].  An iteration of a star reads at least one character. *)
Inductive accepts : Re.regex -> option ascii -> string -> string -> Prop :=
| acc_eps : forall prev post, accepts Re.Eps prev EmptyString post
| acc_chr : forall (p : ascii -> bool) prev c post,
    p c = true -> accepts (Re.Chr p) prev (String c EmptyString) post
| acc_seq : forall a b prev m1 m2 post,
    accepts a prev m1 (m2 ++ post) ->
    accepts b (prev_after prev m1) m2 post ->
    accepts (Re.Seq a b) prev (m1 ++ m2) post
| acc_alt_l : forall a b prev m post,
    accepts a prev m post -> accepts (Re.Alt a b) prev m post
| acc_alt_r : forall a b prev m post,
    accepts b prev m post -> accepts (Re.Alt a b) prev m post
| acc_star_nil : forall g a prev post,
    accepts (Re.Star g a) prev EmptyString post
| acc_star_cons : forall g a prev m1 m2 post,
    m1 <> EmptyString ->
    accepts a prev m1 (m2 ++ post) ->
    accepts (Re.Star g a) (prev_after prev m1) m2 post ->
    accepts (Re.Star g a) prev (m1 ++ m2) post
| acc_group : forall n a prev m post,
    accepts a prev m post -> accepts (Re.Group n a) prev m post
| acc_bol : forall post, accepts Re.Bol None EmptyString post
| acc_eol : forall prev, accepts Re.Eol prev EmptyString EmptyString
| acc_wordb : forall prev post,
    xorb (wordc prev) (wordc (head post)) = true ->
    accepts Re.WordB prev EmptyString post.

(** The state [st'] is [st] after the text [m] was read, up to the
    captures. *)
Definition reads (st : Re.mstate) (m post : string) (st' : Re.mstate) : Prop :=
  Re.m_rest st' = post
  /\ Re.m_prev st' = prev_after (Re.m_prev st) m
  /\ Re.m_pos st' = (Re.m_pos st + N.of_nat (String.length m))%N.

(** What the matcher promises when it succeeds with the result [x]: the
    expression accepts a prefix [m] of the input, and the continuation gave
    [x] after that prefix. *)
Definition sound_at (r : Re.regex) (st : Re.mstate)
           (k : Re.mstate -> option Re.mstate) (x : Re.mstate) : Prop :=
  exists m post st',
    Re.m_rest st = m ++ post /\ accepts r (Re.m_prev st) m post
    /\ reads st m post st' /\ k st' = Some x.

(** [s] holds a match of [r]. *)
Definition found (r : Re.regex) (s : string) : Prop :=
  exists pre m post, s = pre ++ m ++ post /\ accepts r (prev_after None pre) m post.

(** A text of white space only. *)
Fixpoint all_space (s : string) : Prop :=
  match s with
  | EmptyString => True
  | String c t => Str.is_space c = true /\ all_space t
  end.

(** [s] holds the soft-failure marker: a plus sign, an arrow written [-->]
    or [--&gt;] and the word [Failing] in any letter case, with or without
    white space between them. *)
Definition has_soft_marker (s : string) : Prop :=
  exists pre ws1 arrow ws2 word post,
    s = pre ++ "+" ++ ws1 ++ arrow ++ ws2 ++ word ++ post
    /\ all_space ws1 /\ all_space ws2
        /\ (ci_eq arrow "-->" \/ ci_eq arrow "--&gt;")
    /\ ci_eq word "Failing".

(** The nearest integer to [num / den], a half rounding up. *)
Definition nearest (num den r : Z) : Prop :=
  2 * den * r <= 2 * num + den < 2 * den * (r + 1).

Definition count {A : Type} (p : A -> bool) (l : list A) : Z :=
  Num.len (filter p l).

(** The test cases of folder [k] that satisfy [p]. *)
Definition in_folder (k : string) (p : TestCase -> bool) (tc : TestCase) : bool :=
  (p tc && String.eqb (Suite.group_key tc) k)%bool.

(** What the entry [a] of folder [k] holds once the cases [done] are
    counted. *)
Definition folder_counts (done : list TestCase) (k : string)
           (a : Suite.FolderAcc) : Prop :=
  Suite.acc_group a = k
  /\ Suite.acc_pass a = count (in_folder k Suite.is_pass) done
  /\ Suite.acc_fail a = count (in_folder k Suite.is_fail) done
  /\ Suite.acc_total a = Suite.acc_pass a + Suite.acc_fail a.

(** The map [byFolder] after the cases [done]: one entry for each folder met
    and no other. *)
Definition folders_counted (m : list (string * Suite.FolderAcc))
           (done : list TestCase) : Prop :=
  NoDup (List.map fst m)
  /\ forall k,
       match Suite.map_get k m with
       | Some a => folder_counts done k a
       | None => forall tc, In tc done -> Suite.group_key tc <> k
       end.

End Spec.

(* ================================================================== *)
(** ** Concrete hosts and runs *)

(** Stand-ins for what the host provides, used where a statement needs a
    concrete run: a snapshot encoder that ignores its input, the ordinal
    order of strings for the collation, the text of a JSON number for its
    decimal form, the identity for [path.resolve] (right for an absolute,
    normalized path). *)
Module Host.

Definition no_snapshot {A : Type} (_ : A) : string := "e30=".
Definition ordinal : string -> string -> comparison := String.compare.
Definition number_text (lexeme : string) : string := lexeme.
Definition resolved (p : string) : string := p.

End Host.

(** ** Runs used by the witnesses and the counterexamples *)

Module Runs.

Import Normalizer.

Definition Execution : Type := RawExecution unit unit.

Definition passing (title : string) : RawAssertion :=
  mkRawAssertion (Some title) None.

Definition failing (title msg : string) : RawAssertion :=
  mkRawAssertion (Some title)
    (Some (mkRawError None (Some "AssertionError") (Some msg) None)).

Definition timed (status ms : Z) : option (RawResponse unit) :=
  Some (mkRawResponse (Some status) (Some ms) tt).

Definition execution (title : string) (checks : list RawAssertion)
           (res : option (RawResponse unit)) (iter : Z) : Execution :=
  mkRawExecution (Some (mkRawItem (Some title))) (Some checks) None res
                 (Some (mkRawCursor (Some iter))).

Definition normalized (execs : list (option Execution)) : list TestCase :=
  testCases Host.no_snapshot Host.no_snapshot execs.

(** The scenario of three executions: two passing assertions in 400 ms, one
    failing assertion in 1500 ms, no assertion and no response. *)
Definition login : Execution :=
  execution "Login" [passing "status is 200"; passing "has token"] (timed 200 400) 0.

Definition orders : Execution :=
  execution "Orders" [failing "status is 200" "expected 500 to equal 200"]
            (timed 500 1500) 0.

Definition ping : Execution := execution "Ping" [] None 0.

Definition three : list (option Execution) := [Some login; Some orders; Some ping].

Definition three_cases : list TestCase := normalized three.

(** A failed assertion whose title contains [skip] inside a longer word. *)
Definition skipped_title : RawAssertion :=
  failing "Skipped orders are listed" "expected 0 to equal 2".

Definition skipped_title_run : Execution :=
  execution "Orders" [skipped_title] (timed 200 120) 0.

(** A failed assertion whose title holds the word [skip]. *)
Definition skip_word_run : Execution :=
  execution "Orders" [failing "skip: feature off" "expected 0 to equal 2"]
            (timed 200 120) 0.

End Runs.

(** ** Documents used by the witnesses and the failing inputs *)

Module Docs.

Import Runs.

Definition settings (parent module : string) : Builder.Settings :=
  Builder.mkSettings "Digital API Automation" 1000 parent module
                     "1/1/2025, 10:00:00 AM".

(** The suite document of a run. *)
Definition rendered (parent module : string) (execs : list (option Execution))
  : option string :=
  Builder.render Host.ordinal (settings parent module) (normalized execs).

(** The numbers of a FolderSummary. *)
Definition summary (r : Suite.FolderRow) : string * (Z * Z * Z * Z * Z) :=
  (Suite.row_pretty r,
   (Suite.row_pass r, Suite.row_fail r, Suite.row_total r,
    Suite.row_passPct r, Suite.row_avgMs r)).

(** The numbers of a parsed row; a percentage or an average outside the
    integers is left out. *)
Definition parsed (r : Aggregator.Row) : string * (Z * Z * Z * option Q * option Q) :=
  (Aggregator.api r,
   (Aggregator.pass r, Aggregator.fail r, Aggregator.total r,
    Aggregator.passPct r, Aggregator.avg r)).

(** A request without test script, run [n] times. *)
Definition pings (n : nat) : list (option Execution) :=
  List.map (fun i => Some (execution "Ping" [] (timed 200 120) (Z.of_nat i)))
           (seq 0 n).

(** A request whose name holds the end tag of a script. *)
Definition script_tag : list (option Execution) :=
  [Some (execution "Render </script> tag" [passing "status is 200"]
           (timed 200 120) 0)].

(** The text of a document that was rendered. *)
Definition text (o : option string) : string := nullish o EmptyString.

(** [Get Invoice], five times with success. *)
Definition all_pass : list (option Execution) :=
  List.map (fun i => Some (execution "Get Invoice" [passing "status is 200"]
                             (timed 200 120) i))
           [0; 1; 2; 3; 4].

(** [Get Invoice], three times with success and twice without. *)
Definition some_fail : list (option Execution) :=
  List.map (fun i => Some (execution "Get Invoice" [passing "status is 200"]
                             (timed 200 120) i))
           [0; 1; 2]
  ++ List.map (fun i => Some (execution "Get Invoice"
                                [failing "status is 200" "expected 500 to equal 200"]
                                (timed 500 90) i))
              [3; 4].

(** A request whose failed assertion carries the soft-failure marker. *)
Definition soft (title msg : string) : list (option Execution) :=
  [Some (execution title [failing "Body schema" msg] (timed 200 120) 0)].

(** A document written by hand: one API with one check, whose message is
    given as it stands in the markup, and the registry of the API. *)
Definition by_hand (title cell : string) : string :=
  Str.concat
    [Str.q "<details id=`api-x`><summary><b>"; title;
     Str.q "</b> - 1 case(s)</summary><table class=`checks`><tbody>";
     Str.q "<tr class=`ng`><td>1</td><td>Body schema</td><td>FAIL</td><td>";
     cell; "</td></tr></tbody></table></details>";
     Str.q "<script type=`application/json` id=`suite-apis`>";
     Builder.json_array [Builder.json_string title]; "</script>"].

End Docs.

(* ================================================================== *)
(** ** Which files are suite documents (combine-email-report.js, line 105;
       make-suite-report.js, line 554) *)

Module Files.

Import Re.

(** [n] times [r] in a row: [r{n}]. *)
Fixpoint times (n : nat) (r : regex) : regex :=
  match n with
  | O => Eps
  | S m => Seq r (times m r)
  end.

(** [/_latest\.html$/i] *)
Definition latest_re : regex := seq [lit_i "_latest.html"; Eol].

(** [/_\d{8}_\d{6}\.html$/i] *)
Definition stamped_re : regex :=
  seq [Chr (only "_"); times 8 (Chr Str.is_digit);
       Chr (only "_"); times 6 (Chr Str.is_digit);
       lit_i ".html"; Eol].

(** The test of line 105 on the name of a file. *)
Definition is_suite_html (name : string) : bool :=
  (test latest_re name || test stamped_re name)%bool.

(** The name of the copy that [writeTemp] writes under [Temp] (line 554). *)
Definition temp_name (SUITE_MODULE : string) : string :=
  SUITE_MODULE ++ "_latest.html".

End Files.

(* ================================================================== *)
(** ** Emptying the [Temp] directory (cleanup-temp.js, lines 1-65) *)

Module Cleanup.

(** The file system: a node is a file, a symbolic link or a directory with
    its entries by name, in the order [readdirSync] lists them; a path is
    the list of the names that lead from the root to a node.  A link holds
    the path of its target, from the root.  The content of a file plays no
    part. *)
#[local] Unset Elimination Schemes.
Inductive node : Type :=
| File : node
| Link : list string -> node
| Dir : list (string * node) -> node.
#[local] Set Elimination Schemes.

Definition path : Type := list string.

Fixpoint find_entry (name : string) (es : list (string * node)) : option node :=
  match es with
  | [] => None
  | (k, c) :: r => if String.eqb k name then Some c else find_entry name r
  end.

Fixpoint remove_entry (name : string) (es : list (string * node))
  : list (string * node) :=
  match es with
  | [] => []
  | (k, c) :: r => if String.eqb k name then r else (k, c) :: remove_entry name r
  end.

Fixpoint update_entry (name : string) (f : node -> node) (es : list (string * node))
  : list (string * node) :=
  match es with
  | [] => []
  | (k, c) :: r =>
      if String.eqb k name then (k, f c) :: r else (k, c) :: update_entry name f r
  end.

(** The node at a path that goes through directories only, when there is
    one: no link is followed. *)
Fixpoint lookup (p : path) (n : node) : option node :=
  match p with
  | [] => Some n
  | name :: q =>
      match n with
      | Dir es =>
          match find_entry name es with
          | Some c => lookup q c
          | None => None
          end
      | _ => None
      end
  end.

(** The file system without the entry at a path. *)
Fixpoint remove (p : path) (n : node) : node :=
  match p, n with
  | [name], Dir es => Dir (remove_entry name es)
  | name :: q, Dir es => Dir (update_entry name (remove q) es)
  | _, _ => n
  end.

(** The file system with another node at a path. *)
Fixpoint replace_at (p : path) (new : node) (n : node) : node :=
  match p with
  | [] => new
  | name :: q =>
      match n with
      | Dir es => Dir (update_entry name (replace_at q new) es)
      | _ => n
      end
  end.

(** The number of levels of a tree. *)
Fixpoint depth (n : node) : nat :=
  match n with
  | Dir es =>
      S ((fix deepest (l : list (string * node)) : nat :=
            match l with
            | [] => O
            | (_, c) :: r => Nat.max (depth c) (deepest r)
            end) es)
  | _ => 1
  end.

(** A tree that holds no link. *)
Fixpoint plain (n : node) : bool :=
  match n with
  | File => true
  | Link _ => false
  | Dir es =>
      (fix all (l : list (string * node)) : bool :=
         match l with
         | [] => true
         | (_, c) :: r => (plain c && all r)%bool
         end) es
  end.

Definition not_a_link (n : node) : Prop :=
  match n with Link _ => False | _ => True end.

(** The calls of the [fs] module the script makes. *)
Inductive call : Type := Exists | Stat | Readdir | Unlink | Rmdir.

(** The path the operating system reaches from a path, every link on the
    way followed; [None] when a name is missing, when a file is used as a
    directory, or when more than [links] links would be followed. *)
Fixpoint follow (links : nat) (fs : node) : path -> path -> option path :=
  fix walk (done todo : path) {struct todo} : option path :=
    match todo with
    | [] => Some done
    | name :: rest =>
        match lookup (done ++ [name])%list fs with
        | Some (Link target) =>
            match links with
            | O => None
            | S l => follow l fs [] (target ++ rest)%list
            end
        | Some _ => walk (done ++ [name])%list rest
        | None => None
        end
    end.

(** A loop [for (const name of names) f(name)], left at the first call
    that throws. *)
Fixpoint each (f : string -> node -> node * bool) (names : list string) (fs : node)
  : node * bool :=
  match names with
  | [] => (fs, true)
  | name :: r =>
      let (fs1, ok) := f name fs in
      if ok then each f r fs1 else (fs1, false)
  end.

Section WithHost.

(** What the host decides: the calls the operating system refuses
    (permissions, a file in use) and the number of links it follows in
    one path. *)
Variable refused : call -> path -> bool.
Variable max_links : nat.

(** The operating system refuses nothing at a path or below it. *)
Definition quiet (p : path) : Prop :=
  forall c q, refused c (p ++ q)%list = false.

Definition realpath (p : path) (fs : node) : option path :=
  follow max_links fs [] p.

(** [existsSync] follows links and answers [false] where it fails. *)
Definition existsSync (p : path) (fs : node) : bool :=
  if refused Exists p then false
  else match realpath p fs with
       | Some _ => true
       | None => false
       end.

(** [statSync(p).isDirectory()]: links are followed; [None] when the
    call throws. *)
Definition statSync (p : path) (fs : node) : option bool :=
  if refused Stat p then None
  else match realpath p fs with
       | Some q =>
           match lookup q fs with
           | Some (Dir _) => Some true
           | Some File => Some false
           | _ => None
           end
       | None => None
       end.

(** [readdirSync]: links are followed. *)
Definition readdirSync (p : path) (fs : node) : option (list string) :=
  if refused Readdir p then None
  else match realpath p fs with
       | Some q =>
           match lookup q fs with
           | Some (Dir es) => Some (List.map fst es)
           | _ => None
           end
       | None => None
       end.

(** Where the entry a path names is: the links of the directories on the
    way are followed, the last name is not. *)
Definition entry (p : path) (fs : node) : option path :=
  match p with
  | [] => None
  | _ =>
      match realpath (removelast p) fs with
      | Some d => Some (d ++ [last p EmptyString])%list
      | None => None
      end
  end.

(** A call of the [fs] module that changes the file system leaves a file
    system and either returns ([true]) or throws ([false]).  [unlinkSync]
    removes a file or a link and throws on anything else. *)
Definition unlinkSync (p : path) (fs : node) : node * bool :=
  if refused Unlink p then (fs, false)
  else match entry p fs with
       | Some q =>
           match lookup q fs with
           | Some File | Some (Link _) => (remove q fs, true)
           | _ => (fs, false)
           end
       | None => (fs, false)
       end.

(** [rmdirSync] removes an empty directory and throws on anything else,
    a link to a directory included (as on a POSIX system). *)
Definition rmdirSync (p : path) (fs : node) : node * bool :=
  if refused Rmdir p then (fs, false)
  else match entry p fs with
       | Some q =>
           match lookup q fs with
           | Some (Dir []) => (remove q fs, true)
           | _ => (fs, false)
           end
       | None => (fs, false)
       end.

(** [rmrf] (lines 23-34).  [fuel] bounds the depth of the calls; calls
    nested deeper than the fuel are reported as a throw. *)
Fixpoint rmrf (fuel : nat) (p : path) (fs : node) : node * bool :=
  match fuel with
  | O => (fs, false)
  | S f =>
      if negb (existsSync p fs) then (fs, true)
      else
        match statSync p fs with
        | None => (fs, false)
        | Some true =>
            match readdirSync p fs with
            | None => (fs, false)
            | Some names =>
                let (fs1, ok) :=
                  each (fun name => rmrf f (p ++ [name])%list) names fs in
                if ok then rmdirSync p fs1 else (fs1, false)
            end
        | Some false => unlinkSync p fs
        end
  end.

(** One turn of the loop of lines 49-58: a throw of [statSync] or of
    [rmrf] is caught and the loop goes on with the next entry. *)
Definition clean_entry (fuel : nat) (tempDir : path) (fs : node) (name : string)
  : node :=
  let p := (tempDir ++ [name])%list in
  match statSync p fs with
  | None => fs
  | Some _ => fst (rmrf fuel p fs)
  end.

(** The script (lines 36-64): the file system it leaves and its exit
    code.  A throw of [readdirSync] on [Temp] is caught at the end and the
    script exits with 1. *)
Definition main (fuel : nat) (tempDir : path) (fs : node) : node * Z :=
  if negb (existsSync tempDir fs) then (fs, 0)
  else
    match readdirSync tempDir fs with
    | None => (fs, 1)
    | Some [] => (fs, 0)
    | Some entries => (fold_left (clean_entry fuel tempDir) entries fs, 0)
    end.

End WithHost.

(** A host that refuses nothing and follows up to 40 links, as Linux does. *)
Definition willing : call -> path -> bool := fun _ _ => false.
Definition linux_links : nat := 40.

(** A host that refuses to remove one file: a file in use. *)
Definition busy (file : path) : call -> path -> bool :=
  fun c p =>
    match c with
    | Unlink => if list_eq_dec String.string_dec p file then true else false
    | _ => false
    end.

End Cleanup.

(* ================================================================== *)
(** ** Vocabulary of the further properties *)

Module Terms.

(** The entries of the map [byFolder] hold, in their lists [apis], the
    cases [done] and no other. *)
Definition holds_cases (m : list (string * Suite.FolderAcc))
           (done : list TestCase) : Prop :=
  forall tc, (exists k a, In (k, a) m /\ In tc (Suite.acc_apis a)) <-> In tc done.

(** [s.replace(/[...]/g, rep)] for a class of characters [p]: every
    character of the class gives way to [rep]. *)
Fixpoint subst (p : ascii -> bool) (rep : string) (s : string) : string :=
  match s with
  | EmptyString => EmptyString
  | String c t => (if p c then rep else String c EmptyString) ++ subst p rep t
  end.

(** What stands for a character in escaped text: one of five entities, or
    the character itself. *)
Definition entity (c : ascii) : string :=
  if Ascii.eqb c "&" then "&amp;"
  else if Ascii.eqb c "<" then "&lt;"
  else if Ascii.eqb c ">" then "&gt;"
  else if Ascii.eqb c Str.dquote then "&quot;"
  else if Ascii.eqb c "'" then "&#39;"
  else String c EmptyString.

(** The five characters that [esc] rewrites. *)
Definition special : list ascii := ["&"; "<"; ">"; Str.dquote; "'"]%char.

(** [s.replace(/[...]+/g, rep)]: every run of characters of the class [p]
    gives way to one [rep]; [inside] tells that the scan is in a run. *)
Fixpoint squeeze (p : ascii -> bool) (rep : string) (inside : bool) (s : string)
  : string :=
  match s with
  | EmptyString => EmptyString
  | String c t =>
      if p c then
        (if inside then squeeze p rep true t else rep ++ squeeze p rep true t)
      else String c (squeeze p rep false t)
  end.

(** The run of characters of the class [p] at the head of a text, and the
    text after it. *)
Fixpoint run_of (p : ascii -> bool) (s : string) : string :=
  match s with
  | String c t => if p c then String c (run_of p t) else EmptyString
  | EmptyString => EmptyString
  end.

Fixpoint after_run (p : ascii -> bool) (s : string) : string :=
  match s with
  | String c t => if p c then after_run p t else s
  | EmptyString => EmptyString
  end.

(** A text without its first character when that is [c], and without its
    last character when that is [c]. *)
Definition drop_first (c : ascii) (s : string) : string :=
  match s with
  | String d t => if Ascii.eqb d c then t else s
  | EmptyString => EmptyString
  end.

Fixpoint drop_last (c : ascii) (s : string) : string :=
  match s with
  | EmptyString => EmptyString
  | String d EmptyString => if Ascii.eqb d c then EmptyString else s
  | String d t => String d (drop_last c t)
  end.

(** The text before the first [c], or the whole text. *)
Fixpoint before (c : ascii) (s : string) : string :=
  match s with
  | EmptyString => EmptyString
  | String x t => if Ascii.eqb x c then EmptyString else String x (before c t)
  end.

(** Is every character of the text in the class? *)
Fixpoint all_in (p : ascii -> bool) (s : string) : bool :=
  match s with
  | EmptyString => true
  | String c t => (p c && all_in p t)%bool
  end.

(** The characters of an identifier: a small letter, a digit or a
    hyphen. *)
Definition id_char (c : ascii) : bool :=
  (Str.is_lower c || Str.is_digit c || Ascii.eqb c "-")%bool.

(** No two [c] in a row. *)
Fixpoint spaced (c : ascii) (s : string) : bool :=
  match s with
  | EmptyString => true
  | String a t =>
      match t with
      | EmptyString => true
      | String b _ => (negb (Ascii.eqb a c && Ascii.eqb b c) && spaced c t)%bool
      end
  end.

(** The class [[^a-z0-9]]. *)
Definition not_alnum (c : ascii) : bool := negb (Str.is_lower c || Str.is_digit c).

(** The text [s] cannot start with the word [w], whatever the case of the
    letters and whatever follows [s]: one of its characters differs from
    the character of [w] at the same place. *)
Fixpoint clash (w s : string) : bool :=
  match w, s with
  | String a w', String b s' => if Re.ci a b then clash w' s' else true
  | _, _ => false
  end.

(** No place of [pre] starts the word [w] in the text [pre ++ nxt]. *)
Fixpoint clashes (w pre nxt : string) : bool :=
  match pre with
  | EmptyString => true
  | String _ t => (clash w (pre ++ nxt) && clashes w t nxt)%bool
  end.

(** The text ends with [w], whatever the case of the letters. *)
Definition ends_ci (w s : string) : Prop :=
  exists pre m, s = pre ++ m /\ Spec.ci_eq m w.

(** The text ends with a time stamp and the extension of a page: an
    underscore, eight digits, an underscore, six digits and [.html] in any
    letter case. *)
Definition ends_stamped (s : string) : Prop :=
  exists pre day time ext,
    s = pre ++ "_" ++ day ++ "_" ++ time ++ ext
    /\ String.length day = 8%nat /\ all_in Str.is_digit day = true
    /\ String.length time = 6%nat /\ all_in Str.is_digit time = true
    /\ Spec.ci_eq ext ".html".

(** Does the text hold the character? *)
Fixpoint has_char (c : ascii) (s : string) : bool :=
  match s with
  | EmptyString => false
  | String d t => (Ascii.eqb d c || has_char c t)%bool
  end.

(** The rows of a key, and the sums of their three counters. *)
Definition rows_of_key (k : string) (rows : list Aggregator.Row) : list Aggregator.Row :=
  filter (fun r => String.eqb (Aggregator.row_key r) k) rows.

Definition sums_of (rows : list Aggregator.Row) : Aggregator.Sums :=
  Aggregator.mkSums (Num.sum (List.map Aggregator.pass rows))
                    (Num.sum (List.map Aggregator.fail rows))
                    (Num.sum (List.map Aggregator.total rows)).

End Terms.

(* ================================================================== *)
(** * Properties *)

#[local] Unset Implicit Arguments.

(** ** Strings *)

Lemma append_nil_r (s : string) : s ++ "" = s.
Proof. induction s as [|c s IH]; simpl; [reflexivity | now rewrite IH]. Qed.

Lemma append_assoc (a b c : string) : (a ++ b) ++ c = a ++ (b ++ c).
Proof. induction a as [|x a IH]; simpl; [reflexivity | now rewrite IH]. Qed.

(** ** Characters *)

Ltac each_char c :=
  destruct c as [[] [] [] [] [] [] [] []]; vm_compute; intuition congruence.

Lemma upper_letter_word (c d : ascii) :
  Str.is_lower d = true -> Str.upper c = Str.upper d -> Str.is_word c = true.
Proof.
  intros Hd H.
  assert (Hu : Str.is_upper (Str.upper d) = true).
  { clear H. revert Hd. each_char d. }
  rewrite <- H in Hu. clear H Hd. revert Hu. each_char c.
Qed.

(** ** The leftmost search *)

Import Re.


Lemma search_found (r : regex) (s : string) :
  forall pos prev m,
    search r pos prev s = Some m ->
    exists pre rest,
      s = pre ++ rest
      /\ at_pos r (pos + N.of_nat (String.length pre)) (Spec.prev_after prev pre) rest = Some m.
Proof.
  induction s as [|c s IH]; intros pos prev m H; simpl in H.
  - destruct (at_pos r pos prev "") eqn:E; [|discriminate].
    exists "", "". simpl. rewrite N.add_0_r. split; congruence.
  - destruct (at_pos r pos prev (String c s)) eqn:E.
    + exists "", (String c s). simpl. rewrite N.add_0_r. split; congruence.
    + destruct (IH _ _ _ H) as (pre & rest & -> & Hat).
      exists (String c pre), rest. split; [reflexivity|].
      simpl. rewrite <- Hat. f_equal. lia.
Qed.

Lemma search_finds (r : regex) (pre rest : string) :
  forall pos prev,
    at_pos r (pos + N.of_nat (String.length pre)) (Spec.prev_after prev pre) rest <> None ->
    search r pos prev (pre ++ rest) <> None.
Proof.
  induction pre as [|c pre IH]; intros pos prev H; simpl in *.
  - rewrite N.add_0_r in H.
    destruct rest; simpl; destruct (at_pos r pos prev _); congruence.
  - destruct (at_pos r pos prev _); [congruence|].
    apply IH. replace (N.succ pos + N.of_nat (String.length pre))%N
      with (pos + N.pos (Pos.of_succ_nat (String.length pre)))%N by lia.
    exact H.
Qed.

Lemma test_true_iff (r : regex) (s : string) :
  test r s = true <->
  exists pre rest,
    s = pre ++ rest
    /\ at_pos r (N.of_nat (String.length pre)) (Spec.prev_after None pre) rest <> None.
Proof.
  unfold test, exec. split.
  - destruct (search r 0 None s) eqn:E; [|discriminate]. intros _.
    destruct (search_found _ _ _ _ _ E) as (pre & rest & -> & H).
    exists pre, rest. split; [reflexivity|]. simpl in H. congruence.
  - intros (pre & rest & -> & H).
    destruct (search r 0 None (pre ++ rest)) eqn:E; [reflexivity|].
    exfalso. revert E. apply search_finds. exact H.
Qed.

Import Normalizer.

Import Spec.

Ltac split_ifs :=
  repeat match goal with
         | |- context [if ?b then _ else _] => destruct b eqn:?
         | H : context [if ?b then _ else _] |- _ => destruct b eqn:?
         end.

Lemma skip_at (pos : N) (prev : option ascii) (rest : string) :
  at_pos (skip_re) pos prev rest <> None <->
  exists c1 c2 c3 c4 post,
    rest = String c1 (String c2 (String c3 (String c4 post)))
    /\ ci "s" c1 = true /\ ci "k" c2 = true /\ ci "i" c3 = true /\ ci "p" c4 = true
    /\ xorb (wordc prev) (Str.is_word c1) = true
    /\ xorb (Str.is_word c4) (wordc (head post)) = true.
Proof.
  unfold at_pos, skip_re. simpl seq. simpl lit_i.
  split.
  - destruct rest as [|c1 [|c2 [|c3 [|c4 post]]]]; cbn;
      unfold word_before, word_after; cbn; intro H; split_ifs; try congruence.
    exists c1, c2, c3, c4, post; unfold wordc, head; repeat split; try assumption;
      destruct post; assumption.
  - intros (c1 & c2 & c3 & c4 & post & -> & H1 & H2 & H3 & H4 & H5 & H6).
    cbn. unfold word_before, word_after. cbn.
    change (match prev with Some c => Str.is_word c | None => false end) with (wordc prev).
    rewrite H5, H1, H2, H3, H4.
    unfold wordc, head in H6. destruct post; rewrite H6; congruence.
Qed.

Lemma ci_letter_word (d c : ascii) :
  Str.is_lower d = true -> ci d c = true -> Str.is_word c = true.
Proof.
  unfold ci. intros Hd H. apply Ascii.eqb_eq in H.
  now apply upper_letter_word with d.
Qed.

Lemma toUpperCase_cons_inv (w : string) (d : ascii) (t : string) :
  Str.toUpperCase w = String d t ->
  exists c w', w = String c w' /\ Str.upper c = d /\ Str.toUpperCase w' = t.
Proof.
  destruct w as [|c w']; simpl; [discriminate|].
  intros H. injection H as H1 H2. now exists c, w'.
Qed.

Lemma toUpperCase_nil_inv (w : string) : Str.toUpperCase w = "" -> w = "".
Proof. destruct w; simpl; [reflexivity | discriminate]. Qed.

Lemma ci_of_upper (c d : ascii) : Str.upper c = Str.upper d -> ci d c = true.
Proof. unfold ci. intros ->. apply Ascii.eqb_refl. Qed.

Lemma upper_of_ci (c d : ascii) : ci d c = true -> Str.upper c = Str.upper d.
Proof. unfold ci. apply Ascii.eqb_eq. Qed.

Lemma prev_after_app (prev : option ascii) (a b : string) :
  Spec.prev_after prev (a ++ b) = Spec.prev_after (Spec.prev_after prev a) b.
Proof. revert prev. induction a as [|c a IH]; intro prev; simpl; [reflexivity | apply IH]. Qed.

(** [/\bskip\b/i] accepts exactly the texts that hold the word [skip]. *)
Lemma skip_re_spec (s : string) :
  test skip_re s = true <-> Spec.has_skip_word s.
Proof.
  rewrite test_true_iff. unfold Spec.has_skip_word, Spec.ci_eq. split.
  - intros (pre & rest & -> & H). apply skip_at in H.
    destruct H as (c1 & c2 & c3 & c4 & post & -> & H1 & H2 & H3 & H4 & H5 & H6).
    exists pre, (String c1 (String c2 (String c3 (String c4 ""))) ), post.
    split; [reflexivity|]. split.
    { unfold Str.toUpperCase. cbn [Str.map]. now rewrite (upper_of_ci _ _ H1), (upper_of_ci _ _ H2),
                         (upper_of_ci _ _ H3), (upper_of_ci _ _ H4). }
    rewrite (ci_letter_word "s" c1 eq_refl H1) in H5.
    rewrite (ci_letter_word "p" c4 eq_refl H4) in H6.
    unfold Spec.ends_nonword, Spec.starts_nonword. split.
    + unfold wordc in H5. destruct (Spec.prev_after None pre); [|exact I].
      now destruct (Str.is_word a).
    + unfold wordc, head in H6. destruct post; [exact I|].
      now destruct (Str.is_word a).
  - intros (pre & w & post & -> & Hw & Hpre & Hpost).
    change (Str.toUpperCase "skip") with "SKIP" in Hw.
    apply toUpperCase_cons_inv in Hw. destruct Hw as (c1 & w1 & -> & U1 & Hw).
    apply toUpperCase_cons_inv in Hw. destruct Hw as (c2 & w2 & -> & U2 & Hw).
    apply toUpperCase_cons_inv in Hw. destruct Hw as (c3 & w3 & -> & U3 & Hw).
    apply toUpperCase_cons_inv in Hw. destruct Hw as (c4 & w4 & -> & U4 & Hw).
    apply toUpperCase_nil_inv in Hw. subst w4.
    exists pre, (String c1 (String c2 (String c3 (String c4 post)))).
    split; [reflexivity|]. apply skip_at.
    exists c1, c2, c3, c4, post.
    assert (H1 : ci "s" c1 = true) by (apply ci_of_upper; exact U1).
    assert (H4 : ci "p" c4 = true) by (apply ci_of_upper; exact U4).
    repeat split; try (apply ci_of_upper; assumption).
    + rewrite (ci_letter_word "s" c1 eq_refl H1).
      unfold Spec.ends_nonword in Hpre. unfold wordc.
      destruct (Spec.prev_after None pre); [now rewrite Hpre | reflexivity].
    + rewrite (ci_letter_word "p" c4 eq_refl H4).
      unfold Spec.starts_nonword in Hpost. unfold wordc, head.
      destruct post; [reflexivity | now rewrite Hpost].
Qed.

(** ** The normalizer *)

Section Normalizer_facts.

Variables Request Payload : Type.
Variable snapshotRequest : option Request -> string.
Variable snapshotResponse : option (RawResponse Payload) -> string.

#[local] Abbreviation Execution := (RawExecution Request Payload).
#[local] Abbreviation normal := (normalize snapshotRequest snapshotResponse).

Lemma result_present (ex : Execution) :
  result (normal (Some ex)) =
  if existsb is_skip_check (List.map check_of (assertions_of (Some ex))) then Skipped
  else if Num.len (filter has_error (assertions_of (Some ex))) >? 0 then Fail
  else Pass.
Proof. reflexivity. Qed.

Lemma respMs_present (ex : Execution) :
  respMs (normal (Some ex)) = opt_get (response ex) (@responseTime Payload).
Proof. reflexivity. Qed.

Lemma is_skip_check_spec (c : Check) :
  is_skip_check c = true <->
  Spec.has_skip_word (name c) \/ Spec.has_skip_word (message c).
Proof.
  unfold is_skip_check. rewrite orb_true_iff, !skip_re_spec. reflexivity.
Qed.

(** C2, as amended.  For every present execution entry, if one of its
    assertions has a name or a failure message that holds the word [skip]
    (whatever the case of the letters, with no letter, digit or underscore
    just before or after it), the outcome is Skipped, whether or not an
    assertion of the entry recorded an error. *)
Theorem skip_word_gives_Skipped (ex : Execution) (a : RawAssertion) :
  In a (assertions_of (Some ex)) ->
  Spec.has_skip_word (name (check_of a))
  \/ Spec.has_skip_word (message (check_of a)) ->
  result (normal (Some ex)) = Skipped.
Proof.
  intros Hin Hskip. rewrite result_present.
  replace (existsb is_skip_check (List.map check_of (assertions_of (Some ex))))
    with true; [reflexivity|].
  symmetry. apply existsb_exists. exists (check_of a). split.
  - apply in_map. exact Hin.
  - apply is_skip_check_spec. exact Hskip.
Qed.

(** C8.  A slot of the executions that holds no entry yields, at the same
    position of the normalized sequence, a TestCase whose outcome is NotRun
    (with no check); the normalizer is a total function and raises
    nothing. *)
Theorem missing_entry_is_NotRun (execs : list (option Execution)) (i : nat) :
  nth_error execs i = Some None ->
  exists tc,
    nth_error (testCases snapshotRequest snapshotResponse execs) i = Some tc
    /\ result tc = NotRun /\ checksTotal tc = 0 /\ checks tc = [].
Proof.
  intro H. exists (normal None). split.
  - unfold testCases. apply map_nth_error. exact H.
  - repeat split.
Qed.

(** C1, as amended.  Three present executions, the first with two passing
    assertions and a response time of 400 ms, the second with one failing
    assertion and 1500 ms, the third with no assertion and no response, none
    of them marked as skipped: with a threshold of 1000 ms the aggregates
    are 3 cases, 2 passed, 1 failed, 67 percent passed, 1 within the
    threshold, 33 percent within. *)
Theorem three_executions_aggregates (a b c : Execution) (a1 a2 b1 : RawAssertion) :
  assertions_of (Some a) = [a1; a2] -> error a1 = None -> error a2 = None ->
  opt_get (response a) (@responseTime Payload) = Some 400 ->
  assertions_of (Some b) = [b1] -> error b1 <> None ->
  opt_get (response b) (@responseTime Payload) = Some 1500 ->
  assertions_of (Some c) = [] -> response c = None ->
  existsb is_skip_check (List.map check_of [a1; a2; b1]) = false ->
  Suite.aggregates 1000
    (testCases snapshotRequest snapshotResponse [Some a; Some b; Some c])
  = Suite.mkAggregates 3 2 1 67 1 33.
Proof.
  intros Ha E1 E2 Ta Hb E3 Tb Hc Rc Hskip.
  assert (Sa : existsb is_skip_check (List.map check_of [a1; a2]) = false
               /\ existsb is_skip_check (List.map check_of [b1]) = false).
  { simpl in Hskip |- *. rewrite !orb_false_r.
    apply orb_false_iff in Hskip. destruct Hskip as [H1 H2].
    apply orb_false_iff in H2. destruct H2 as [H2 H3].
    rewrite orb_false_r in H3. rewrite H1, H2, H3. split; reflexivity. }
  destruct Sa as [Sa Sb].
  assert (Ra : result (normal (Some a)) = Pass).
  { rewrite result_present, Ha, Sa. unfold has_error. simpl. now rewrite E1, E2. }
  assert (Rb : result (normal (Some b)) = Fail).
  { rewrite result_present, Hb, Sb. unfold has_error. simpl.
    destruct (error b1); [reflexivity | contradiction]. }
  assert (Rcc : result (normal (Some c)) = Pass).
  { rewrite result_present, Hc. reflexivity. }
  assert (Ma : respMs (normal (Some a)) = Some 400) by (rewrite respMs_present; exact Ta).
  assert (Mb : respMs (normal (Some b)) = Some 1500) by (rewrite respMs_present; exact Tb).
  assert (Mc : respMs (normal (Some c)) = None) by (rewrite respMs_present, Rc; reflexivity).
  unfold testCases. cbn [List.map].
  unfold Suite.aggregates, Suite.passPct, Suite.withinPct, Suite.totalCases,
    Suite.passedCases, Suite.failedCases, Suite.withinSLA, Suite.considered.
  cbn [filter]. unfold Suite.is_considered. rewrite Ra, Rb, Rcc.
  cbn [Outcome_eqb orb filter]. unfold Suite.is_pass, Suite.is_fail, Suite.within.
  rewrite Ra, Rb, Rcc, Ma, Mb, Mc.
  vm_compute. reflexivity.
Qed.

End Normalizer_facts.

(** C1: on the scenario as the claim words it, with a third entry that is
    present, the third case is a Pass and is counted: the aggregates are
    3, 2, 1, 67, 1, 33 and not the claimed 2, 1, 1, 50, 1, 50. *)
Lemma three_executions_counterexample :
  List.map result Runs.three_cases = [Pass; Fail; Pass]
  /\ Suite.aggregates 1000 Runs.three_cases = Suite.mkAggregates 3 2 1 67 1 33
  /\ Suite.aggregates 1000 Runs.three_cases <> Suite.mkAggregates 2 1 1 50 1 50.
Proof.
  repeat split; try (vm_compute; reflexivity).
  vm_compute. discriminate.
Qed.

Lemma three_executions_witness :
  Suite.aggregates 1000 Runs.three_cases = Suite.mkAggregates 3 2 1 67 1 33.
Proof.
  refine (three_executions_aggregates unit unit Host.no_snapshot Host.no_snapshot
            Runs.login Runs.orders Runs.ping
            (Runs.passing "status is 200") (Runs.passing "has token")
            (Runs.failing "status is 200" "expected 500 to equal 200")
            eq_refl eq_refl eq_refl eq_refl eq_refl _ eq_refl eq_refl eq_refl _).
  - discriminate.
  - vm_compute. reflexivity.
Defined.

(** C2: a failed assertion named [Skipped orders are listed] contains the
    letters [skip], yet the entry is a Fail and not Skipped. *)
Lemma skip_substring_counterexample :
  In Runs.skipped_title (assertions_of (Some Runs.skipped_title_run))
  /\ Spec.contains_ci "skip" (name (check_of Runs.skipped_title))
  /\ result (normalize Host.no_snapshot Host.no_snapshot (Some Runs.skipped_title_run))
     = Fail.
Proof.
  split; [left; reflexivity|]. split; [|vm_compute; reflexivity].
  exists "", "Skip", "ped orders are listed". split; reflexivity.
Qed.

Lemma skip_word_gives_Skipped_witness :
  result (normalize Host.no_snapshot Host.no_snapshot (Some Runs.skip_word_run))
  = Skipped.
Proof.
  apply (skip_word_gives_Skipped unit unit Host.no_snapshot Host.no_snapshot
           Runs.skip_word_run
           (Runs.failing "skip: feature off" "expected 0 to equal 2")).
  - left. reflexivity.
  - left. exists "", "skip", ": feature off".
    repeat split; vm_compute; reflexivity.
Defined.

Lemma missing_entry_is_NotRun_witness :
  exists tc,
    nth_error (Runs.normalized [Some Runs.skip_word_run; None]) 1 = Some tc
    /\ result tc = NotRun /\ checksTotal tc = 0 /\ checks tc = [].
Proof.
  apply (missing_entry_is_NotRun unit unit Host.no_snapshot Host.no_snapshot
           [Some Runs.skip_word_run; None] 1).
  reflexivity.
Defined.

(** ** Rounding *)

Lemma Math_round_div (a den : Z) :
  0 < den -> Num.Math_round (Num.div a den) = (2 * a + den) / (2 * den).
Proof.
  intro H. destruct den as [|p|p]; try lia.
  unfold Num.Math_round, Num.div, Qfloor, Qdiv, Qinv, Qmult, Qplus, inject_Z.
  cbn [Qnum Qden]. f_equal; lia.
Qed.

Lemma pct_nearest (p t : Z) :
  0 < t -> Spec.nearest (100 * p) t (Num.pct p t).
Proof.
  intro H. unfold Spec.nearest, Num.pct. rewrite Math_round_div by exact H.
  pose proof (Z.div_mod (2 * (100 * p) + t) (2 * t) ltac:(lia)) as D.
  pose proof (Z.mod_pos_bound (2 * (100 * p) + t) (2 * t) ltac:(lia)) as B.
  lia.
Qed.

Lemma pct_bounds (p t : Z) :
  0 <= p <= t -> 0 < t -> 0 <= Num.pct p t <= 100.
Proof.
  intros Hp Ht. pose proof (pct_nearest p t Ht) as N. unfold Spec.nearest in N.
  nia.
Qed.

(** ** Sorting *)

Section Sort_facts.
Variable A : Type.
Variable cmp : A -> A -> comparison.

Lemma In_insert_sorted (x y : A) (l : list A) :
  In x (Suite.insert_sorted cmp y l) <-> x = y \/ In x l.
Proof.
  induction l as [|z l IH]; simpl.
  - intuition.
  - destruct (cmp y z); simpl; rewrite ?IH; intuition.
Qed.

Lemma In_sort (x : A) (l : list A) : In x (Suite.sort cmp l) <-> In x l.
Proof.
  unfold Suite.sort.
  assert (G : forall acc, In x (fold_left (fun a y => Suite.insert_sorted cmp y a) l acc)
                          <-> In x acc \/ In x l).
  { induction l as [|y l IH]; intro acc; simpl.
    - intuition.
    - rewrite IH, In_insert_sorted. intuition. }
  rewrite G. simpl. intuition.
Qed.

End Sort_facts.

(** ** The map of folders *)

Section Map_facts.
Variable V : Type.

Lemma map_get_set (g k : string) (v : V) (m : list (string * V)) :
  Suite.map_get k (Suite.map_set g v m)
  = if String.eqb g k then Some v else Suite.map_get k m.
Proof.
  induction m as [|[k' v'] m IH]; simpl.
  - destruct (String.eqb_spec g k); reflexivity.
  - destruct (String.eqb_spec k' g) as [->|Hne]; simpl.
    + destruct (String.eqb_spec g k); reflexivity.
    + rewrite IH. destruct (String.eqb_spec k' k) as [->|]; [|reflexivity].
      destruct (String.eqb_spec g k); [congruence | reflexivity].
Qed.

Lemma keys_map_set (g k : string) (v : V) (m : list (string * V)) :
  In k (List.map fst (Suite.map_set g v m)) <-> k = g \/ In k (List.map fst m).
Proof.
  induction m as [|[k' v'] m IH]; simpl.
  - intuition.
  - destruct (String.eqb_spec k' g) as [->|Hne]; simpl; [|rewrite IH]; intuition.
Qed.

Lemma NoDup_map_set (g : string) (v : V) (m : list (string * V)) :
  NoDup (List.map fst m) -> NoDup (List.map fst (Suite.map_set g v m)).
Proof.
  induction m as [|[k' v'] m IH]; simpl; intro H.
  - constructor; [intros [] | constructor].
  - inversion H as [|? ? Hnin Hnd]; subst.
    destruct (String.eqb_spec k' g) as [->|Hne]; simpl.
    + exact H.
    + constructor; [|apply IH; exact Hnd].
      rewrite keys_map_set. intros [->|Hin]; [congruence | contradiction].
Qed.

Lemma In_map_get (k : string) (v : V) (m : list (string * V)) :
  NoDup (List.map fst m) -> In (k, v) m -> Suite.map_get k m = Some v.
Proof.
  induction m as [|[k' v'] m IH]; simpl; intros Hnd Hin; [contradiction|].
  inversion Hnd as [|? ? Hnin Hnd']; subst.
  destruct Hin as [E|Hin].
  - injection E as -> ->. now rewrite String.eqb_refl.
  - destruct (String.eqb_spec k' k) as [->|]; [|apply IH; assumption].
    exfalso. apply Hnin. change k with (fst (k, v)). now apply in_map.
Qed.

End Map_facts.

(** ** Folder summaries *)

Import Suite.

Lemma count_app {A : Type} (p : A -> bool) (l1 l2 : list A) :
  Spec.count p (l1 ++ l2) = Spec.count p l1 + Spec.count p l2.
Proof.
  unfold Spec.count, Num.len. rewrite filter_app, length_app. lia.
Qed.

Lemma count_one {A : Type} (p : A -> bool) (x : A) :
  Spec.count p [x] = if p x then 1 else 0.
Proof. unfold Spec.count, Num.len. simpl. now destruct (p x). Qed.

Lemma count_none {A : Type} (p : A -> bool) (l : list A) :
  (forall x, In x l -> p x = false) -> Spec.count p l = 0.
Proof.
  intro H. unfold Spec.count, Num.len.
  induction l as [|x l IH]; simpl; [reflexivity|].
  rewrite (H x (or_introl eq_refl)). apply IH. intros y Hy. apply H. now right.
Qed.

Lemma considered_pass_or_fail (tc : TestCase) :
  is_considered tc = true -> is_fail tc = negb (is_pass tc).
Proof. unfold is_considered, is_fail, is_pass. now destruct (result tc). Qed.

Lemma byFolder_step_counted (m : list (string * FolderAcc))
      (done : list TestCase) (tc : TestCase) :
  is_considered tc = true ->
  Spec.folders_counted m done ->
  Spec.folders_counted (byFolder_step m tc) (done ++ [tc]).
Proof.
  intros Hc [Hnd Hm]. unfold byFolder_step. split.
  - apply NoDup_map_set. exact Hnd.
  - intro k. rewrite map_get_set.
    destruct (String.eqb_spec (group_key tc) k) as [E|Hne].
    + (* the folder of [tc] *)
      subst k. specialize (Hm (group_key tc)).
      unfold Spec.folder_counts. rewrite !count_app, !count_one.
      unfold Spec.in_folder at 2 4. rewrite String.eqb_refl, !andb_true_r.
      rewrite (considered_pass_or_fail tc Hc).
      destruct (map_get (group_key tc) m) as [a|]; cbn [nullish acc_group acc_total acc_pass acc_fail].
      * destruct Hm as (G & P & F & T). rewrite G, <- P, <- F.
        destruct (is_pass tc); cbn [negb]; repeat split; lia.
      * rewrite !count_none.
        { destruct (is_pass tc); cbn [negb]; repeat split; lia. }
        { intros x Hx. unfold Spec.in_folder.
          destruct (String.eqb_spec (group_key x) (group_key tc)) as [E|];
            [exfalso; exact (Hm x Hx E) | apply andb_false_r]. }
        { intros x Hx. unfold Spec.in_folder.
          destruct (String.eqb_spec (group_key x) (group_key tc)) as [E|];
            [exfalso; exact (Hm x Hx E) | apply andb_false_r]. }
    + (* another folder *)
      specialize (Hm k). destruct (map_get k m) as [a|].
      * unfold Spec.folder_counts in *. rewrite !count_app, !count_one.
        unfold Spec.in_folder at 2 4.
        destruct (String.eqb_spec (group_key tc) k); [contradiction|].
        rewrite !andb_false_r. destruct Hm as (G & P & F & T).
        repeat split; [exact G | lia | lia | lia].
      * intros x Hx. apply in_app_or in Hx. destruct Hx as [Hx|[<-|[]]].
        { apply Hm. exact Hx. }
        { exact Hne. }
Qed.

Lemma byFolder_fold_counted (l : list TestCase) :
  forall m done,
    (forall tc, In tc l -> is_considered tc = true) ->
    Spec.folders_counted m done ->
    Spec.folders_counted (fold_left byFolder_step l m) (done ++ l).
Proof.
  induction l as [|tc l IH]; intros m done Hl H; simpl.
  - now rewrite app_nil_r.
  - replace (done ++ tc :: l)%list with ((done ++ [tc]) ++ l)%list
      by now rewrite <- app_assoc.
    apply IH.
    + intros x Hx. apply Hl. now right.
    + apply byFolder_step_counted; [apply Hl; now left | exact H].
Qed.

Lemma byFolder_counted (tcs : list TestCase) :
  Spec.folders_counted (byFolder tcs) (considered tcs).
Proof.
  unfold byFolder.
  apply (byFolder_fold_counted (considered tcs) [] []).
  - intros tc H. unfold considered in H. apply filter_In in H. tauto.
  - split; [constructor | intros k tc []].
Qed.

Lemma count_considered (k : string) (p : TestCase -> bool) (tcs : list TestCase) :
  (forall tc, p tc = true -> is_considered tc = true) ->
  Spec.count (Spec.in_folder k p) (considered tcs) = Spec.count (Spec.in_folder k p) tcs.
Proof.
  intro H. unfold Spec.count, Num.len, considered. f_equal. f_equal.
  induction tcs as [|tc tcs IH]; simpl; [reflexivity|].
  destruct (is_considered tc) eqn:C; simpl; rewrite IH; [reflexivity|].
  unfold Spec.in_folder. destruct (p tc) eqn:P; [|reflexivity].
  rewrite (H tc P) in C. discriminate.
Qed.

(** C9.  Every FolderSummary counts the Pass cases and the Fail cases of
    its folder and nothing else; its total is the sum of the two counts; its
    pass rate is between 0 and 100, is 0 when the total is 0, and is
    otherwise [Math.round(100 * pass / total)], the nearest integer to that
    quotient with a half rounding up. *)
Theorem folder_summary_invariants
        (localeCompare : string -> string -> comparison)
        (tcs : list TestCase) (r : FolderRow) :
  In r (folderRows localeCompare tcs) ->
  row_pass r = Spec.count (Spec.in_folder (row_group r) is_pass) tcs
  /\ row_fail r = Spec.count (Spec.in_folder (row_group r) is_fail) tcs
  /\ row_total r = row_pass r + row_fail r
  /\ 0 <= row_passPct r <= 100
  /\ (row_total r = 0 -> row_passPct r = 0)
  /\ (row_total r <> 0 ->
      row_passPct r = Num.Math_round (Num.div (100 * row_pass r) (row_total r))
      /\ Spec.nearest (100 * row_pass r) (row_total r) (row_passPct r)).
Proof.
  unfold folderRows. rewrite In_sort, in_map_iff.
  intros ([k a] & <- & Hin). cbn [snd].
  destruct (byFolder_counted tcs) as [Hnd Hm].
  specialize (Hm k). rewrite (In_map_get _ k a (byFolder tcs) Hnd Hin) in Hm.
  destruct Hm as (G & P & F & T).
  rewrite count_considered in P by (intros tc; unfold is_pass, is_considered; now intros ->).
  rewrite count_considered in F
    by (intros tc; unfold is_fail, is_considered; intros ->; apply orb_true_r).
  unfold folderRow_of. cbn [row_pass row_fail row_total row_passPct row_group].
  rewrite G.
  assert (P0 : 0 <= acc_pass a) by (rewrite P; unfold Spec.count, Num.len; lia).
  assert (F0 : 0 <= acc_fail a) by (rewrite F; unfold Spec.count, Num.len; lia).
  split; [exact P|]. split; [exact F|]. split; [exact T|].
  destruct (Z.eqb_spec (acc_total a) 0) as [Z0|NZ].
  - repeat split; try lia.
  - assert (0 < acc_total a) by lia.
    split; [apply pct_bounds; lia|]. split; [lia|]. intros _.
    split; [reflexivity | apply pct_nearest; lia].
Qed.

Lemma folder_summary_invariants_witness :
  In (mkFolderRow "Login" "Login" 1 1 0 100 400
        [Normalizer.normalize Host.no_snapshot Host.no_snapshot (Some Runs.login)])
     (folderRows Host.ordinal Runs.three_cases)
  /\ 1 = 1 + 0 /\ 0 <= 100 <= 100
  /\ Spec.nearest (100 * 1) 1 100.
Proof.
  split; [vm_compute; left; reflexivity|].
  pose proof (folder_summary_invariants Host.ordinal Runs.three_cases
                (mkFolderRow "Login" "Login" 1 1 0 100 400
                   [Normalizer.normalize Host.no_snapshot Host.no_snapshot
                      (Some Runs.login)])) as H.
  destruct H as (_ & _ & T & B & _ & N).
  - vm_compute. left. reflexivity.
  - split; [exact T|]. split; [exact B|].
    apply N. discriminate.
Defined.

(** ** The folder table, read back *)

(** The digits of a count are grouped by three from 1000 on. *)
Lemma fmt_examples :
  Builder.fmt 999 = "999" /\ Builder.fmt 1000 = "1,000"
  /\ Builder.fmt 1234567 = "1,234,567".
Proof. repeat split; vm_compute; reflexivity. Qed.

(** On the scenario of three executions the aggregator reads the three rows
    of the folder table back, with the numbers of the builder. *)
Lemma folder_rows_read_back_example :
  List.map Docs.summary (Suite.folderRows Host.ordinal Runs.three_cases)
  = [("Login", (1, 0, 1, 100, 400)); ("Orders", (0, 1, 1, 0, 1500));
     ("Ping", (1, 0, 1, 100, 0))]
  /\ option_map (fun d => List.map Docs.parsed (Aggregator.parseSuiteRows d))
       (Docs.rendered "Billing" "Invoices" Runs.three)
     = Some [("Login", (1, 0, 1, Some (100 # 1), Some (400 # 1)));
             ("Orders", (0, 1, 1, Some (0 # 1), Some (1500 # 1)));
             ("Ping", (1, 0, 1, Some (100 # 1), Some (0 # 1)))].
Proof. split; vm_compute; reflexivity. Qed.

(** C3, at a failing input: 1000 runs of one request.  The builder shows one
    folder with 1000 passed cases and writes the counts as [1,000]; the
    aggregator, whose pattern accepts bare digits in the cells of the
    counts, finds no row at all. *)
Theorem folder_row_lost_at_1000 :
  List.map Docs.summary
    (Suite.folderRows Host.ordinal (Runs.normalized (Docs.pings 1000)))
  = [("Ping", (1000, 0, 1000, 100, 120))]
  /\ option_map Aggregator.parseSuiteRows
       (Docs.rendered "Billing" "Invoices" (Docs.pings 1000))
     = Some [].
Proof. split; vm_compute; reflexivity. Qed.

(** ** A literal text under the flag [i] *)

Lemma lit_i_sound (w : string) :
  forall st k x,
    rmatch (lit_i w) st k = Some x ->
    exists m post, m_rest st = m ++ post /\ Spec.ci_eq m w.
Proof.
  induction w as [|c w IH]; intros st k x H.
  - exists "", (m_rest st). split; reflexivity.
  - cbn [lit_i rmatch] in H.
    destruct (m_rest st) as [|a t] eqn:E; [discriminate|].
    destruct (ci c a) eqn:C; [|discriminate].
    destruct (IH _ _ _ H) as (m & post & Hm & Hci).
    cbn [advance m_rest] in Hm. subst t.
    exists (String a m), post. split; [reflexivity|].
    unfold Spec.ci_eq, Str.toUpperCase in *. cbn [Str.map].
    rewrite Hci. f_equal. apply upper_of_ci. exact C.
Qed.

Lemma lit_i_complete (w : string) :
  forall st k m post,
    m_rest st = m ++ post -> Spec.ci_eq m w ->
    (forall st', k st' <> None) ->
    rmatch (lit_i w) st k <> None.
Proof.
  induction w as [|c w IH]; intros st k m post Hr Hci Hk.
  - apply Hk.
  - unfold Spec.ci_eq in Hci.
    change (Str.toUpperCase (String c w))
      with (String (Str.upper c) (Str.toUpperCase w)) in Hci.
    apply toUpperCase_cons_inv in Hci.
    destruct Hci as (a & m' & -> & Ha & Hm').
    cbn [lit_i rmatch]. rewrite Hr. cbn [append].
    rewrite (ci_of_upper a c Ha).
    apply IH with (m := m') (post := post); [reflexivity | exact Hm' | exact Hk].
Qed.

(** A literal text under the flag [i] is found exactly in the texts that
    contain it, whatever the case of the letters. *)
Lemma test_lit_i_spec (w s : string) :
  test (lit_i w) s = true <-> Spec.contains_ci w s.
Proof.
  rewrite test_true_iff. unfold Spec.contains_ci, at_pos. split.
  - intros (pre & rest & -> & H).
    destruct (rmatch (lit_i w) _ Some) as [x|] eqn:E; [|congruence].
    destruct (lit_i_sound _ _ _ _ E) as (m & post & Hm & Hci).
    cbn [m_rest] in Hm. subst rest. now exists pre, m, post.
  - intros (pre & m & post & -> & Hci).
    exists pre, (m ++ post). split; [reflexivity|].
    destruct (rmatch (lit_i w) _ Some) as [x|] eqn:E; [congruence|].
    exfalso. revert E. apply lit_i_complete with (m := m) (post := post);
      [reflexivity | exact Hci | congruence].
Qed.

(** ** The identity of a suite *)

Import Identity.

Lemma findIndex_Some {A : Type} (p : A -> bool) (l : list A) (i : nat) :
  findIndex p l = Some i ->
  exists x, nth_error l i = Some x /\ p x = true.
Proof.
  revert i. induction l as [|y l IH]; intros i H; simpl in H; [discriminate|].
  destruct (p y) eqn:P.
  - injection H as <-. now exists y.
  - destruct (findIndex p l) as [j|]; [|discriminate].
    injection H as <-. destruct (IH j eq_refl) as (x & Hx & Px). now exists x.
Qed.

Lemma nth_error_removelast {A : Type} (l : list A) (i : nat) (x : A) :
  nth_error l i = Some x -> (S i < List.length l)%nat -> In x (removelast l).
Proof.
  revert i. induction l as [|y l IH]; intros i H L; [destruct i; discriminate|].
  destruct l as [|z l]; [simpl in L; lia|].
  destruct i as [|i]; simpl in H.
  - injection H as ->. now left.
  - right. apply (IH i H). simpl in L |- *. lia.
Qed.

Lemma after_the_anchor (segs : list string) (i j : nat) :
  (forall seg, In seg (removelast segs) -> test anchor_re seg = false) ->
  findIndex (test anchor_re) segs = Some i ->
  nth_error segs (i + S j) = None.
Proof.
  intros Hno Hi. destruct (findIndex_Some _ _ _ Hi) as (x & Hx & Px).
  apply nth_error_None.
  destruct (Nat.lt_ge_cases (S i) (List.length segs)) as [L|L]; [|lia].
  rewrite (Hno x (nth_error_removelast _ _ _ Hx L)) in Px. discriminate.
Qed.

(** C10, as amended.  When no directory segment of the resolved output path
    contains the anchor name (in any letter case), the grouping key is
    [Misc], and the module key is the last segment of the collection name
    between hyphens with the white space around it removed, or [Module] when
    the name is absent or that segment is empty. *)
Theorem identity_without_anchor
        (path_resolve : string -> string)
        (collection_name : option string) (p : string) :
  (forall seg, In seg (removelast (segments path_resolve p)) ->
               ~ Spec.contains_ci "newmancollectionlist" seg) ->
  deriveParentFromPath path_resolve p = "Misc"
  /\ deriveModuleFromPath path_resolve collection_name p
     = match collection_name with
       | None => "Module"
       | Some n =>
           let seg := Str.trim (List.last (Str.split "-" n) "") in
           if Str.is_empty seg then "Module" else seg
       end.
Proof.
  intro Hno.
  assert (Hno' : forall seg, In seg (removelast (segments path_resolve p)) ->
                             test anchor_re seg = false).
  { intros seg Hin. destruct (test anchor_re seg) eqn:T; [|reflexivity].
    exfalso. apply (Hno seg Hin). apply test_lit_i_spec. exact T. }
  unfold deriveParentFromPath, deriveModuleFromPath.
  destruct (findIndex (test anchor_re) (segments path_resolve p)) as [i|] eqn:F.
  - replace (i + 1)%nat with (i + S 0)%nat by lia.
    replace (i + 2)%nat with (i + S 1)%nat by lia.
    rewrite !(after_the_anchor _ _ _ Hno' F). split; [reflexivity|].
    unfold module_fallback. now destruct collection_name.
  - split; [reflexivity|]. unfold module_fallback. now destruct collection_name.
Qed.

Lemma no_anchor_in (s : string) :
  test anchor_re s = false -> ~ Spec.contains_ci "newmancollectionlist" s.
Proof. intros T C. apply test_lit_i_spec in C. unfold anchor_re in T. congruence. Qed.

Lemma identity_without_anchor_witness :
  deriveParentFromPath Host.resolved "/srv/reports/billing.html" = "Misc"
  /\ deriveModuleFromPath Host.resolved (Some "Digital API - Billing")
       "/srv/reports/billing.html" = "Billing".
Proof.
  apply (identity_without_anchor Host.resolved (Some "Digital API - Billing")
           "/srv/reports/billing.html").
  intros seg Hin. apply no_anchor_in.
  vm_compute in Hin.
  destruct Hin as [<-|[<-|[<-|[]]]]; vm_compute; reflexivity.
Defined.

(** C10: the module key of the collection [Digital API - Billing] is
    [Billing], not the last segment between hyphens as it stands (which
    starts with a space); and a name that ends with a hyphen gives [Module]
    although the name is present. *)
Lemma module_key_counterexample :
  (forall seg, In seg (removelast (segments Host.resolved "/srv/reports/billing.html")) ->
               test anchor_re seg = false)
  /\ List.last (Str.split "-" "Digital API - Billing") "" = " Billing"
  /\ deriveModuleFromPath Host.resolved (Some "Digital API - Billing")
       "/srv/reports/billing.html" = "Billing"
  /\ deriveModuleFromPath Host.resolved (Some "Digital API - Billing")
       "/srv/reports/billing.html"
     <> List.last (Str.split "-" "Digital API - Billing") ""
  /\ deriveModuleFromPath Host.resolved (Some "Billing-")
       "/srv/reports/billing.html" = "Module".
Proof.
  split; [|repeat split; try (vm_compute; reflexivity); vm_compute; discriminate].
  intros seg Hin. vm_compute in Hin.
  destruct Hin as [<-|[<-|[<-|[]]]]; vm_compute; reflexivity.
Qed.

(** ** Sets in insertion order *)

Lemma In_set_add (x y : string) (s : list string) :
  In x (Builder.set_add y s) <-> x = y \/ In x s.
Proof.
  unfold Builder.set_add. destruct (existsb (String.eqb y) s) eqn:E.
  - split; [now right|]. intros [->|H]; [|exact H].
    apply existsb_exists in E. destruct E as (z & Hz & Ez).
    apply String.eqb_eq in Ez. now subst z.
  - rewrite in_app_iff. simpl. intuition.
Qed.

Lemma In_fold_set_add {A : Type} (f : A -> string) (x : string) (l : list A) :
  forall s,
    In x (fold_left (fun s a => Builder.set_add (f a) s) l s)
    <-> In x s \/ exists a, In a l /\ f a = x.
Proof.
  induction l as [|a l IH]; intro s; simpl.
  - split; [now left | intros [H|(a & [] & _)]; exact H].
  - rewrite IH, In_set_add. split.
    + intros [[->|H]|(b & Hb & E)].
      * right. exists a. split; [now left | reflexivity].
      * now left.
      * right. exists b. split; [now right | exact E].
    + intros [H|(b & [->|Hb] & E)].
      * left. now right.
      * left. left. now symmetry.
      * right. now exists b.
Qed.

Lemma In_fold_set_add_if (c : string -> bool) (x : string) (l : list string) :
  forall s,
    In x (fold_left (fun s a => if c a then Builder.set_add a s else s) l s)
    <-> In x s \/ (In x l /\ c x = true).
Proof.
  induction l as [|a l IH]; intro s; simpl.
  - intuition.
  - rewrite IH. destruct (c a) eqn:C.
    + rewrite In_set_add. split.
      * intros [[->|H]|[H1 H2]]; [right; split; [now left | exact C] | now left | right; split; [now right | exact H2]].
      * intros [H|[[->|H1] H2]]; [left; now right | left; now left | right; now split].
    + split.
      * intros [H|[H1 H2]]; [now left | right; split; [now right | exact H2]].
      * intros [H|[[->|H1] H2]]; [now left | congruence | right; now split].
Qed.

Lemma fold_left_same {A B : Type} (f g : A -> B -> A) (l : list B) :
  (forall a b, f a b = g a b) ->
  forall a, fold_left f l a = fold_left g l a.
Proof.
  intro H. induction l as [|b l IH]; intro a; simpl; [reflexivity|].
  rewrite H. apply IH.
Qed.

(** ** The list of API names of a document *)

Import Aggregator.

Lemma nonempty_spec (s : string) : nonempty s = true <-> s <> "".
Proof. unfold nonempty. destruct s; simpl; split; congruence. Qed.

Lemma In_row_apis (a : string) (rows : list Row) :
  In a (row_apis rows) <-> a <> "" /\ exists r, In r rows /\ api r = a.
Proof.
  unfold row_apis, dedup.
  rewrite (In_fold_set_add (fun x : string => x)). simpl.
  split.
  - intros [[]|(x & Hx & ->)]. apply filter_In in Hx. destruct Hx as [Hx Hn].
    apply nonempty_spec in Hn. apply in_map_iff in Hx.
    destruct Hx as (r & <- & Hr). split; [exact Hn | now exists r].
  - intros (Hn & r & Hr & <-). right. exists (api r). split; [|reflexivity].
    apply filter_In. split; [now apply in_map | now apply nonempty_spec].
Qed.

Section Api_list.

Variable Number_toString : string -> string.

#[local] Abbreviation registry_of := (extractSuiteApis Number_toString).

Lemma In_detectSoftFailApis (html : string) (rows : list Row) (a : string) :
  In a (detectSoftFailApis Number_toString html rows)
  <-> In a (apiList Number_toString html rows)
      /\ a <> "" /\ soft_flagged html a = true.
Proof.
  unfold detectSoftFailApis.
  rewrite (fold_left_same
             (fun flagged api =>
                if Str.is_empty api then flagged
                else if soft_flagged html api then Builder.set_add api flagged
                else flagged)
             (fun flagged api =>
                if (nonempty api && soft_flagged html api)%bool
                then Builder.set_add api flagged else flagged)).
  - rewrite In_fold_set_add_if. simpl.
    rewrite andb_true_iff, nonempty_spec. intuition.
  - intros flagged api. unfold nonempty. now destruct (Str.is_empty api).
Qed.

Lemma In_unique_names (html : string) (rows : list Row) (n : string) :
  In n (unique_names Number_toString html rows)
  <-> n <> "" /\ exists a, In a (apiList Number_toString html rows) /\ Str.trim a = n.
Proof.
  unfold unique_names. rewrite filter_In, in_map_iff, nonempty_spec. split.
  - intros [(a & E & Ha) Hn]. split; [exact Hn | now exists a].
  - intros (Hn & a & Ha & E). split; [now exists a | exact Hn].
Qed.

(** The two cases of [apiList], by what [extractSuiteApis] returns: the
    names a document contributes to the unique APIs of its parent, and the
    names scanned for the soft-failure marker, are the names
    [extractSuiteApis] returns when it returns any, and the names of the
    summary rows otherwise. *)
Lemma api_list_cases (html : string) (rows : list Row) :
  (registry_of html <> [] ->
     (forall n, In n (unique_names Number_toString html rows)
                <-> n <> "" /\ exists a, In a (registry_of html) /\ Str.trim a = n)
     /\ (forall a, In a (detectSoftFailApis Number_toString html rows)
                   <-> In a (registry_of html) /\ a <> ""
                       /\ soft_flagged html a = true))
  /\ (registry_of html = [] ->
       (forall n, In n (unique_names Number_toString html rows)
                  <-> n <> "" /\ exists r, In r rows /\ Str.trim (api r) = n)
       /\ (forall a, In a (detectSoftFailApis Number_toString html rows)
                     <-> (exists r, In r rows /\ api r = a) /\ a <> ""
                         /\ soft_flagged html a = true))
  /\ (forall st n,
        In n (set_of (extractParent html)
                     (uniqueByParent (scan_step Number_toString st html)))
        <-> In n (set_of (extractParent html) (uniqueByParent st))
            \/ In n (unique_names Number_toString html (parseSuiteRows html))).
Proof.
  split; [|split].
  - intro Hne.
    assert (E : apiList Number_toString html rows = registry_of html).
    { unfold apiList. destruct (registry_of html); [contradiction | reflexivity]. }
    split.
    + intro n. rewrite In_unique_names, E. reflexivity.
    + intro a. rewrite In_detectSoftFailApis, E. reflexivity.
  - intro He.
    assert (E : apiList Number_toString html rows = row_apis rows).
    { unfold apiList. now rewrite He. }
    split.
    + intro n. rewrite In_unique_names, E. split.
      * intros (Hn & a & Ha & Ht). split; [exact Hn|].
        apply In_row_apis in Ha. destruct Ha as (_ & r & Hr & <-). now exists r.
      * intros (Hn & r & Hr & Ht). split; [exact Hn|].
        exists (api r). split; [|exact Ht].
        apply In_row_apis. split; [|now exists r].
        intro Z. rewrite Z in Ht. vm_compute in Ht. congruence.
    + intro a. rewrite In_detectSoftFailApis, E, In_row_apis. intuition.
  - intros st n. unfold scan_step. cbn [uniqueByParent].
    unfold set_of at 1. rewrite map_get_set, String.eqb_refl. cbn [nullish].
    rewrite (In_fold_set_add (fun x : string => x)). split.
    + intros [H|(a & Ha & <-)]; [now left | now right].
    + intros [H|H]; [now left | right; now exists n].
Qed.

End Api_list.

(** A document whose registry lists one API and whose table names another
    (a folder): the registry wins. *)
Lemma registry_wins_example :
  option_map (fun d => (apiList Host.number_text d (parseSuiteRows d),
                        List.map api (parseSuiteRows d)))
             (Docs.rendered "Billing" "Invoices"
                [Some (Runs.execution "Invoices/Get Invoice" [] (Runs.timed 200 120) 0)])
  = Some (["Invoices/Get Invoice"], ["Invoices"]).
Proof. vm_compute. reflexivity. Qed.




(** ** Combined aggregates *)

Section Combined.

Variable Number_toString : string -> string.

Lemma allRows_step (st : Scan) (d : string) :
  allRows (scan_step Number_toString st d) = (allRows st ++ parseSuiteRows d)%list.
Proof. reflexivity. Qed.

Lemma grandUniqueSet_step (st : Scan) (d : string) :
  grandUniqueSet (scan_step Number_toString st d)
  = fold_left (fun s n => Builder.set_add (extractParent d ++ "|" ++ n) s)
      (unique_names Number_toString d (parseSuiteRows d)) (grandUniqueSet st).
Proof. reflexivity. Qed.

Lemma unique_names_of_registry (d : string) (rows : list Row) :
  extractSuiteApis Number_toString d = ["Get Invoice"] ->
  unique_names Number_toString d rows = ["Get Invoice"].
Proof. intro H. unfold unique_names, apiList. rewrite H. vm_compute. reflexivity. Qed.

(** C5, as amended.  Two suite documents of the grouping [Billing] and of
    the same module, each with the row and the registry of the API
    [Get Invoice], one row with 5 passed and 0 failed, the other with 3
    passed and 2 failed: the aggregate of the key has 8 passed, 2 failed and
    10 in total, and the tiles of unique APIs count 1 API, 0 passed and 1
    failed. *)
Theorem same_key_rows_are_summed (d1 d2 : string) (r1 r2 : Row) :
  parseSuiteRows d1 = [r1] -> parseSuiteRows d2 = [r2] ->
  extractSuiteApis Number_toString d1 = ["Get Invoice"] ->
  extractSuiteApis Number_toString d2 = ["Get Invoice"] ->
  extractParent d1 = "Billing" -> extractParent d2 = "Billing" ->
  parent r1 = "Billing" -> parent r2 = "Billing" ->
  module r1 = module r2 ->
  api r1 = "Get Invoice" -> api r2 = "Get Invoice" ->
  pass r1 = 5 -> fail r1 = 0 -> total r1 = 5 ->
  pass r2 = 3 -> fail r2 = 2 -> total r2 = 5 ->
  keyMap (allRows (scan Number_toString [d1; d2]))
  = [("Billing|" ++ module r1 ++ "|Get Invoice", mkSums 8 2 10)]
  /\ grandApiDisp (scan Number_toString [d1; d2]) = mkApiStats 1 0 1 "0%".
Proof.
  intros R1 R2 A1 A2 P1 P2 Q1 Q2 M E1 E2 p1 f1 t1 p2 f2 t2.
  set (st := scan Number_toString [d1; d2]).
  assert (Rows : allRows st = [r1; r2]).
  { subst st. unfold scan. cbn [fold_left]. rewrite !allRows_step, R1, R2. reflexivity. }
  assert (K : keyMap [r1; r2]
              = [("Billing|" ++ module r1 ++ "|Get Invoice", mkSums 8 2 10)]).
  { unfold keyMap. cbn [fold_left]. unfold keyMap_step at 2. cbn [Suite.map_get nullish Suite.map_set].
    unfold keyMap_step.
    assert (Key2 : row_key r2 = row_key r1) by (unfold row_key; now rewrite Q1, Q2, M, E1, E2).
    rewrite Key2. cbn [Suite.map_get Suite.map_set]. rewrite String.eqb_refl.
    cbn [nullish passSum failSum totalSum].
    unfold row_key. rewrite Q1, E1, p1, f1, t1, p2, f2, t2. reflexivity. }
  assert (U : grandUniqueSet st = ["Billing|Get Invoice"]).
  { subst st. unfold scan. cbn [fold_left]. rewrite !grandUniqueSet_step.
    rewrite !unique_names_of_registry by assumption. rewrite P1, P2. reflexivity. }
  rewrite Rows. split; [exact K|].
  unfold grandApiDisp, api_tiles, aggregateApiStatsFromRows.
  rewrite Rows, U, K. reflexivity.
Qed.

End Combined.

Lemma same_key_rows_are_summed_witness :
  keyMap (allRows (scan Host.number_text
                     [Docs.text (Docs.rendered "Billing" "Invoices" Docs.all_pass);
                      Docs.text (Docs.rendered "Billing" "Invoices" Docs.some_fail)]))
  = [("Billing|Invoices|Get Invoice", mkSums 8 2 10)]
  /\ grandApiDisp (scan Host.number_text
                     [Docs.text (Docs.rendered "Billing" "Invoices" Docs.all_pass);
                      Docs.text (Docs.rendered "Billing" "Invoices" Docs.some_fail)])
     = mkApiStats 1 0 1 "0%".
Proof.
  apply (same_key_rows_are_summed Host.number_text
           (Docs.text (Docs.rendered "Billing" "Invoices" Docs.all_pass))
           (Docs.text (Docs.rendered "Billing" "Invoices" Docs.some_fail))
           (mkRow "Billing" "Invoices" "Get Invoice" 5 0 5 (Some (100 # 1)) (Some (120 # 1)))
           (mkRow "Billing" "Invoices" "Get Invoice" 3 2 5 (Some (60 # 1)) (Some (108 # 1))));
    vm_compute; reflexivity.
Defined.

(** C5: when the two documents are of two modules of [Billing], the API has
    two aggregates, none with 8 passed and 2 failed, and the tiles count it
    as passed: 1 unique API, 1 passed, 0 failed. *)
Lemma two_modules_counterexample :
  List.map Docs.parsed
    (allRows (scan Host.number_text
                [Docs.text (Docs.rendered "Billing" "Invoices" Docs.all_pass);
                 Docs.text (Docs.rendered "Billing" "Payments" Docs.some_fail)]))
  = [("Get Invoice", (5, 0, 5, Some (100 # 1), Some (120 # 1)));
     ("Get Invoice", (3, 2, 5, Some (60 # 1), Some (108 # 1)))]
  /\ keyMap
       (allRows (scan Host.number_text
                   [Docs.text (Docs.rendered "Billing" "Invoices" Docs.all_pass);
                    Docs.text (Docs.rendered "Billing" "Payments" Docs.some_fail)]))
     = [("Billing|Invoices|Get Invoice", mkSums 5 0 5);
        ("Billing|Payments|Get Invoice", mkSums 3 2 5)]
  /\ option_map fst
       (grand_tiles Host.number_text
          [Docs.text (Docs.rendered "Billing" "Invoices" Docs.all_pass);
           Docs.text (Docs.rendered "Billing" "Payments" Docs.some_fail)])
     = Some (mkApiStats 1 1 0 "100%").
Proof. repeat split; vm_compute; reflexivity. Qed.

(** The tiles of the two documents of one module, as the script shows
    them. *)
Lemma one_module_tiles_example :
  grand_tiles Host.number_text
    [Docs.text (Docs.rendered "Billing" "Invoices" Docs.all_pass);
     Docs.text (Docs.rendered "Billing" "Invoices" Docs.some_fail)]
  = Some (mkApiStats 1 0 1 "0%", mkCaseStats 10 8 2 "80%").
Proof. vm_compute. reflexivity. Qed.

(** ** The registry of API names, read back *)

(** On the scenario of three executions the aggregator reads back the names
    the builder embedded. *)
Lemma registry_read_back_example :
  Builder.suiteApiSet Runs.three_cases = ["Login"; "Orders"; "Ping"]
  /\ option_map (extractSuiteApis Host.number_text)
       (Docs.rendered "Billing" "Invoices" Runs.three)
     = Some ["Login"; "Orders"; "Ping"].
Proof. split; vm_compute; reflexivity. Qed.

(** C4, at a failing input: a request named [Render </script> tag].  The
    builder embeds the name as it is; the aggregator stops reading the
    registry at the [</script>] inside the name, fails to parse what it read
    and returns no name. *)
Theorem registry_cut_short :
  Builder.suiteApiSet (Runs.normalized Docs.script_tag) = ["Render </script> tag"]
  /\ option_map (extractSuiteApis Host.number_text)
       (Docs.rendered "Billing" "Invoices" Docs.script_tag)
     = Some [].
Proof. split; vm_compute; reflexivity. Qed.

(** C6, at a failing input: the document of the request named
    [Render </script> tag].  The registry the builder embedded is in the
    document and holds one name.  The aggregator reads no name out of it
    (the end tag inside the name cuts it short) and takes the names for the
    unique APIs of the parent, and the names it scans for the soft-failure
    marker, from the summary rows: the folder [Render &lt;], which is not
    a name of the registry. *)
Theorem registry_present_rows_used :
  Builder.suiteApiSet (Runs.normalized Docs.script_tag) = ["Render </script> tag"]
  /\ option_map
       (fun d =>
          (match Str.indexOf
                   (Str.q "<script type=`application/json` id=`suite-apis`>[`Render </script> tag`]</script>")
                   d 0 with
           | Some _ => true
           | None => false
           end,
           List.map api (parseSuiteRows d),
           apiList Host.number_text d (parseSuiteRows d),
           unique_names Host.number_text d (parseSuiteRows d),
           set_of "Billing" (uniqueByParent (scan Host.number_text [d]))))
       (Docs.rendered "Billing" "Invoices" Docs.script_tag)
     = Some (true, ["Render &lt;"], ["Render &lt;"], ["Render &lt;"], ["Render &lt;"]).
Proof. split; vm_compute; reflexivity. Qed.

(** ** The soft-failure marker *)

(** The marker in its two forms, in any letter case and with or without
    white space; the word [Failing] alone is not the marker. *)
Lemma soft_marker_examples :
  test SOFT "Body schema + --> Failing" = true
  /\ test SOFT "+ --&gt; Failing" = true
  /\ test SOFT "body schema +-->failing" = true
  /\ test SOFT "Response is Failing" = false
  /\ test SOFT "--> Failing" = false.
Proof. repeat split; vm_compute; reflexivity. Qed.

(** The API [Pay] is flagged when the message of one of its assertions
    holds the marker (the builder writes it in the escaped form), and is not
    flagged when the message only holds the word [Failing]. *)
Lemma soft_failure_flagged_examples :
  option_map (fun d => detectSoftFailApis Host.number_text d (parseSuiteRows d))
    (Docs.rendered "Billing" "Payments" (Docs.soft "Pay" "Body schema + --> Failing"))
  = Some ["Pay"]
  /\ option_map (fun d => detectSoftFailApis Host.number_text d (parseSuiteRows d))
       (Docs.rendered "Billing" "Payments" (Docs.soft "Pay" "Response is Failing"))
     = Some []
  /\ detectSoftFailApis Host.number_text
       (Docs.by_hand "Pay" "Body schema + --> Failing") [] = ["Pay"]
  /\ detectSoftFailApis Host.number_text
       (Docs.by_hand "Pay" "+ --&gt; Failing") [] = ["Pay"]
  /\ detectSoftFailApis Host.number_text
       (Docs.by_hand "Pay" "Response is Failing") [] = [].
Proof. repeat split; vm_compute; reflexivity. Qed.

(** C7, at a failing input: a request named [Pay & Go] whose failed
    assertion has the message [Body schema + --> Failing].  The registry
    holds the name as it is, the heading of the API holds it escaped, the
    aggregator finds no heading for the name and flags nothing, although the
    document holds the marker. *)
Theorem soft_failure_missed :
  Builder.suiteApiSet
    (Runs.normalized (Docs.soft "Pay & Go" "Body schema + --> Failing"))
  = ["Pay & Go"]
  /\ option_map
       (fun d => (extractSuiteApis Host.number_text d, test SOFT d,
                  detectSoftFailApis Host.number_text d (parseSuiteRows d)))
       (Docs.rendered "Billing" "Payments"
          (Docs.soft "Pay & Go" "Body schema + --> Failing"))
     = Some (["Pay & Go"], true, []).
Proof. split; vm_compute; reflexivity. Qed.

(** ** The matcher and what a regular expression accepts *)

Lemma length_append (a b : string) :
  String.length (a ++ b) = (String.length a + String.length b)%nat.
Proof. induction a as [|c a IH]; simpl; [reflexivity | now rewrite IH]. Qed.

Lemma reads_nothing (st : mstate) : reads st "" (m_rest st) st.
Proof. unfold reads. simpl. repeat split. lia. Qed.

Lemma reads_here (st : mstate) (post : string) :
  m_rest st = post -> reads st "" post st.
Proof. intros <-. apply reads_nothing. Qed.

Lemma reads_then (st st1 st2 : mstate) (m1 m2 post1 post2 : string) :
  reads st m1 post1 st1 -> reads st1 m2 post2 st2 ->
  reads st (m1 ++ m2) post2 st2.
Proof.
  unfold reads. intros (R1 & P1 & N1) (R2 & P2 & N2).
  rewrite prev_after_app, length_append, <- P1.
  repeat split; try assumption. lia.
Qed.

Lemma star_loop_sound (a : regex) (g : bool) (k : mstate -> option mstate)
      (x : mstate) :
  (forall st k', rmatch a st k' = Some x -> sound_at a st k' x) ->
  forall fuel st,
    star_loop (rmatch a) g k fuel st = Some x -> sound_at (Star g a) st k x.
Proof.
  intros IHa.
  assert (Stop : forall st, k st = Some x -> sound_at (Star g a) st k x).
  { intros st Hk. exists "", (m_rest st), st.
    split; [reflexivity|]. split; [constructor|].
    split; [apply reads_nothing | exact Hk]. }
  induction fuel as [|c fuel IH]; intros st H; simpl in H.
  - apply Stop. exact H.
  - assert (More : rmatch a st
                     (fun st1 => if N.eqb (m_pos st1) (m_pos st) then None
                                 else star_loop (rmatch a) g k fuel st1) = Some x ->
                   sound_at (Star g a) st k x).
    { intro Hm. destruct (IHa _ _ Hm) as (m1 & post1 & st1 & E1 & A1 & R1 & K1).
      destruct (N.eqb_spec (m_pos st1) (m_pos st)) as [|Hpos]; [discriminate|].
      destruct (IH _ K1) as (m2 & post & st2 & E2 & A2 & R2 & K2).
      assert (Rr : m_rest st1 = post1) by apply R1.
      assert (Rp : m_prev st1 = prev_after (m_prev st) m1) by apply R1.
      rewrite Rr in E2. subst post1. rewrite Rp in A2.
      exists (m1 ++ m2), post, st2. split; [|split; [|split]].
      - rewrite E1, append_assoc. reflexivity.
      - apply acc_star_cons; [|exact A1 | exact A2].
        intros ->. destruct R1 as (_ & _ & Rn). simpl in Rn. apply Hpos. lia.
      - eapply reads_then; eassumption.
      - exact K2. }
    destruct g.
    + destruct (rmatch a st _) as [y|] eqn:E.
      * injection H as ->. apply More. reflexivity.
      * apply Stop. exact H.
    + destruct (k st) as [y|] eqn:E.
      * injection H as ->. apply Stop. exact E.
      * apply More. exact H.
Qed.

Lemma reads_one (st : mstate) (c : ascii) (t : string) :
  m_rest st = String c t -> reads st (String c "") t (advance st c t).
Proof. intro E. unfold reads, advance. simpl. repeat split. lia. Qed.

(** The matcher is sound: when it succeeds, the expression accepts a prefix
    of the input and the continuation succeeded after that prefix. *)
Lemma rmatch_sound (r : regex) :
  forall st k x, rmatch r st k = Some x -> sound_at r st k x.
Proof.
  induction r as [|p|a IHa b IHb|a IHa b IHb|g a IHa|n a IHa| | |];
    intros st k x H; cbn [rmatch] in H.
  - exists "", (m_rest st), st.
    split; [reflexivity|]. split; [constructor|]. split; [apply reads_nothing | exact H].
  - destruct (m_rest st) as [|c t] eqn:E; [discriminate|].
    destruct (p c) eqn:P; [|discriminate].
    exists (String c ""), t, (advance st c t).
    split; [exact E|]. split; [now constructor|].
    split; [now apply reads_one | exact H].
  - destruct (IHa _ _ _ H) as (m1 & post1 & st1 & E1 & A1 & R1 & K1).
    destruct (IHb _ _ _ K1) as (m2 & post & st2 & E2 & A2 & R2 & K2).
    assert (Rr : m_rest st1 = post1) by apply R1.
    assert (Rp : m_prev st1 = prev_after (m_prev st) m1) by apply R1.
    rewrite Rr in E2. subst post1. rewrite Rp in A2.
    exists (m1 ++ m2), post, st2. split; [|split; [|split]].
    + rewrite E1, append_assoc. reflexivity.
    + now apply acc_seq.
    + eapply reads_then; eassumption.
    + exact K2.
  - destruct (rmatch a st k) as [y|] eqn:E.
    + injection H as ->.
      destruct (IHa _ _ _ E) as (m & post & st' & E1 & A1 & R1 & K1).
      exists m, post, st'. repeat split; try apply R1; try assumption. now apply acc_alt_l.
    + destruct (IHb _ _ _ H) as (m & post & st' & E1 & A1 & R1 & K1).
      exists m, post, st'. repeat split; try apply R1; try assumption. now apply acc_alt_r.
  - eapply star_loop_sound; [|exact H]. intros st0 k' H0. apply IHa. exact H0.
  - destruct (IHa _ _ _ H) as (m & post & st' & E1 & A1 & R1 & K1).
    exists m, post, (set_cap n (Capture (m_rest st) (m_pos st' - m_pos st)) st').
    split; [exact E1|]. split; [now constructor|]. split; [exact R1 | exact K1].
  - destruct (m_prev st) eqn:E; [discriminate|].
    exists "", (m_rest st), st.
    split; [reflexivity|]. split; [rewrite E; constructor|].
    split; [apply reads_nothing | exact H].
  - destruct (m_rest st) eqn:E; [|discriminate].
    exists "", "", st.
    split; [exact E|]. split; [constructor|].
    split; [unfold reads; rewrite E; simpl; repeat split; lia | exact H].
  - destruct (xorb (word_before st) (word_after st)) eqn:E; [|discriminate].
    exists "", (m_rest st), st.
    split; [reflexivity|]. split; [|split; [apply reads_nothing | exact H]].
    constructor. unfold word_before, word_after in E. unfold wordc, head.
    destruct (m_rest st); exact E.
Qed.

Lemma star_loop_complete (a : regex) (g : bool) :
  (forall prev m post,
      accepts a prev m post ->
      forall st k, m_rest st = m ++ post -> m_prev st = prev ->
                   (forall st', reads st m post st' -> k st' <> None) ->
                   rmatch a st k <> None) ->
  forall fuel st k m post,
    (String.length (m_rest st) < String.length fuel)%nat ->
    accepts (Star g a) (m_prev st) m post ->
    m_rest st = m ++ post ->
    (forall st', reads st m post st' -> k st' <> None) ->
    star_loop (rmatch a) g k fuel st <> None.
Proof.
  intros IHa. induction fuel as [|c fuel IH]; intros st k m post L A E K.
  - simpl in L. lia.
  - cbn [star_loop].
    assert (Stop : m = "" -> k st <> None).
    { intros ->. apply K. simpl in E. rewrite <- E. apply reads_nothing. }
    assert (More : m <> "" ->
                   rmatch a st
                     (fun st1 => if N.eqb (m_pos st1) (m_pos st) then None
                                 else star_loop (rmatch a) g k fuel st1) <> None).
    { intro Hm. inversion A as [| | | | |? ? ? ? Em|? ? ? m1 m2 ? Hne A1 A2 Ea Eb Em| | | |];
        subst; [contradiction|].
      apply (IHa _ _ _ A1); [now rewrite E, append_assoc | reflexivity|].
      intros st1 R1.
      assert (Rr : m_rest st1 = m2 ++ post) by apply R1.
      assert (Rp : m_prev st1 = prev_after (m_prev st) m1) by apply R1.
      assert (Rn : m_pos st1 = (m_pos st + N.of_nat (String.length m1))%N) by apply R1.
      destruct (N.eqb_spec (m_pos st1) (m_pos st)) as [Heq|_].
      { exfalso. destruct m1; [contradiction | cbn [String.length] in Rn; lia]. }
      apply (IH st1 k m2 post).
      - rewrite Rr. rewrite E in L. destruct m1; [contradiction|].
        simpl in L. rewrite !length_append in L. rewrite length_append. lia.
      - rewrite Rp. exact A2.
      - exact Rr.
      - intros st' R2. apply K. eapply reads_then; eassumption. }
    destruct g.
    + destruct (rmatch a st _) as [y|] eqn:F; [congruence|].
      destruct m as [|c0 m]; [now apply Stop|].
      exfalso. now apply More.
    + destruct (k st) as [y|] eqn:F; [congruence|].
      destruct m as [|c0 m]; [exfalso; now apply Stop|].
      now apply More.
Qed.

(** The matcher is complete: when the expression accepts a prefix of the
    input and the continuation succeeds after that prefix, the matcher
    succeeds. *)
Lemma rmatch_complete (r : regex) :
  forall prev m post,
    accepts r prev m post ->
    forall st k, m_rest st = m ++ post -> m_prev st = prev ->
                 (forall st', reads st m post st' -> k st' <> None) ->
                 rmatch r st k <> None.
Proof.
  induction r as [|p|a IHa b IHb|a IHa b IHb|g a IHa|n a IHa| | |];
    intros prev m post A st k E P K; cbn [rmatch].
  - inversion A; subst.
    apply K. simpl in E. rewrite <- E. apply reads_nothing.
  - inversion A as [|? ? c ? Hp| | | | | | | | |]; subst.
    simpl in E. rewrite E, Hp. apply K. now apply reads_one.
  - inversion A as [| |? ? ? m1 m2 ? A1 A2| | | | | | | |]; subst.
    apply (IHa _ _ _ A1); [now rewrite E, append_assoc | reflexivity|].
    intros st1 R1.
    apply (IHb _ _ _ A2); [apply R1 | apply R1|].
    intros st' R2. apply K. eapply reads_then; eassumption.
  - inversion A as [| | |? ? ? ? ? A1|? ? ? ? ? A1| | | | | |]; subst.
    + destruct (rmatch a st k) eqn:F; [congruence|].
      exfalso. revert F. apply (IHa _ _ _ A1); auto.
    + destruct (rmatch a st k) eqn:F; [congruence|].
      apply (IHb _ _ _ A1); auto.
  - apply star_loop_complete with (m := m) (post := post); auto;
      try (cbn [String.length]; lia); now subst prev.
  - inversion A as [| | | | | | |? ? ? ? ? A1| | |]; subst.
    apply (IHa _ _ _ A1); [exact E | reflexivity|].
    intros st1 R1. apply K. exact R1.
  - inversion A; subst.
    match goal with H : None = m_prev st |- _ => rewrite <- H end.
    apply K. simpl in E. rewrite <- E. apply reads_nothing.
  - inversion A; subst.
    simpl in E. rewrite E. apply K. apply reads_here. exact E.
  - inversion A as [| | | | | | | | | |? ? X]; subst.
    unfold word_before, word_after. unfold wordc, head in X.
    simpl in E. rewrite E.
    replace (match m_prev st with Some c => Str.is_word c | None => false end)
      with (wordc (m_prev st)) by reflexivity.
    unfold wordc.
    destruct post; rewrite X; apply K; apply reads_here; exact E.
Qed.

(** [re.test(s)] holds exactly when [s] holds a match of the expression. *)
Theorem test_spec (r : regex) (s : string) :
  test r s = true <-> Spec.found r s.
Proof.
  rewrite test_true_iff. unfold Spec.found, at_pos. split.
  - intros (pre & rest & -> & H).
    destruct (rmatch r _ Some) as [x|] eqn:E; [|congruence].
    destruct (rmatch_sound _ _ _ _ E) as (m & post & st' & E1 & A1 & _).
    cbn [m_rest m_prev] in E1, A1. subst rest. now exists pre, m, post.
  - intros (pre & m & post & -> & A).
    exists pre, (m ++ post). split; [reflexivity|].
    destruct (rmatch r _ Some) as [x|] eqn:E; [congruence|].
    exfalso. revert E.
    apply (rmatch_complete _ _ _ _ A); [reflexivity | reflexivity | congruence].
Qed.

(** ** What the expressions of the aggregator accept *)

Lemma accepts_eps (prev : option ascii) (m post : string) :
  accepts Eps prev m post <-> m = "".
Proof. split; [now inversion 1 | intros ->; constructor]. Qed.

Lemma accepts_chr (p : ascii -> bool) (prev : option ascii) (m post : string) :
  accepts (Chr p) prev m post <-> exists c, m = String c "" /\ p c = true.
Proof.
  split.
  - inversion 1; subst. eexists. split; [reflexivity | assumption].
  - intros (c & -> & H). now constructor.
Qed.

Lemma accepts_seq (a b : regex) (prev : option ascii) (m post : string) :
  accepts (Seq a b) prev m post <->
  exists m1 m2, m = m1 ++ m2 /\ accepts a prev m1 (m2 ++ post)
                /\ accepts b (prev_after prev m1) m2 post.
Proof.
  split.
  - inversion 1; subst. eexists _, _. split; [reflexivity|]. now split.
  - intros (m1 & m2 & -> & A & B). now constructor.
Qed.

Lemma accepts_alt (a b : regex) (prev : option ascii) (m post : string) :
  accepts (Alt a b) prev m post <-> accepts a prev m post \/ accepts b prev m post.
Proof.
  split.
  - inversion 1; subst; [now left | now right].
  - intros [A|B]; [now apply acc_alt_l | now apply acc_alt_r].
Qed.

Lemma accepts_group (n : nat) (a : regex) (prev : option ascii) (m post : string) :
  accepts (Group n a) prev m post <-> accepts a prev m post.
Proof. split; [now inversion 1 | now constructor]. Qed.

Lemma accepts_lit_i (w : string) :
  forall prev m post, accepts (lit_i w) prev m post <-> ci_eq m w.
Proof.
  unfold ci_eq.
  induction w as [|c w IH]; intros prev m post; cbn [lit_i].
  - rewrite accepts_eps. split; [now intros -> | apply toUpperCase_nil_inv].
  - rewrite accepts_seq. split.
    + intros (m1 & m2 & -> & A & B). apply accepts_chr in A.
      destruct A as (x & -> & Hx). apply IH in B.
      unfold Str.toUpperCase in *. cbn [append Str.map]. rewrite B.
      f_equal. now apply upper_of_ci.
    + intro H.
      change (Str.toUpperCase (String c w))
        with (String (Str.upper c) (Str.toUpperCase w)) in H.
      apply toUpperCase_cons_inv in H. destruct H as (x & m' & -> & Hx & Hm).
      exists (String x ""), m'. split; [reflexivity|]. split.
      * apply accepts_chr. exists x. split; [reflexivity | now apply ci_of_upper].
      * apply IH. exact Hm.
Qed.

Lemma accepts_spaces (g : bool) :
  forall m prev post,
    accepts (Star g (Chr Str.is_space)) prev m post <-> all_space m.
Proof.
  intros m prev post. split.
  - intro A. remember (Star g (Chr Str.is_space)) as r eqn:R.
    induction A; try discriminate; injection R as -> ->.
    + exact I.
    + apply accepts_chr in A1. destruct A1 as (c & -> & Hc).
      simpl. split; [exact Hc | now apply IHA2].
  - revert prev. induction m as [|c m IH]; intros prev H.
    + constructor.
    + destruct H as [Hc Hm].
      change (String c m) with (String c "" ++ m).
      apply acc_star_cons; [discriminate | now constructor | now apply IH].
Qed.

Lemma accepts_soft_arm (arrow0 : string) (prev : option ascii) (m post : string) :
  accepts (seq [Chr (only "+"); spaces; lit_i arrow0; spaces; lit_i "Failing"])
          prev m post
  <-> exists ws1 arrow ws2 word,
        m = "+" ++ ws1 ++ arrow ++ ws2 ++ word
        /\ all_space ws1 /\ all_space ws2
        /\ ci_eq arrow arrow0 /\ ci_eq word "Failing".
Proof.
  cbn [seq]. unfold spaces. split.
  - intro A.
    apply accepts_seq in A. destruct A as (p & r1 & -> & Ap & A).
    apply accepts_seq in A. destruct A as (ws1 & r2 & -> & A1 & A).
    apply accepts_seq in A. destruct A as (arrow & r3 & -> & A2 & A).
    apply accepts_seq in A. destruct A as (ws2 & r4 & -> & A3 & A).
    apply accepts_seq in A. destruct A as (word & r5 & -> & A4 & A).
    apply accepts_eps in A. subst r5.
    apply accepts_chr in Ap. destruct Ap as (c & -> & Hc).
    apply Ascii.eqb_eq in Hc. subst c.
    exists ws1, arrow, ws2, word. rewrite append_nil_r.
    split; [reflexivity|].
    split; [now apply accepts_spaces in A1|].
    split; [now apply accepts_spaces in A3|].
    split; [now apply accepts_lit_i in A2 | now apply accepts_lit_i in A4].
  - intros (ws1 & arrow & ws2 & word & -> & S1 & S2 & Ha & Hw).
    apply accepts_seq. exists "+", (ws1 ++ arrow ++ ws2 ++ word). split; [reflexivity|].
    split; [apply accepts_chr; exists "+"%char; split; reflexivity|].
    apply accepts_seq. exists ws1, (arrow ++ ws2 ++ word). split; [reflexivity|].
    split; [now apply accepts_spaces|].
    apply accepts_seq. exists arrow, (ws2 ++ word). split; [reflexivity|].
    split; [now apply accepts_lit_i|].
    apply accepts_seq. exists ws2, word. split; [reflexivity|].
    split; [now apply accepts_spaces|].
    apply accepts_seq. exists word, "". split; [now rewrite append_nil_r|].
    split; [now apply accepts_lit_i | now apply accepts_eps].
Qed.

(** The expression [SOFT] finds exactly the soft-failure marker. *)
Theorem SOFT_spec (s : string) : test SOFT s = true <-> has_soft_marker s.
Proof.
  rewrite test_spec. unfold found, has_soft_marker, SOFT. split.
  - intros (pre & m & post & -> & A).
    apply accepts_group, accepts_alt in A.
    destruct A as [A|A]; apply accepts_soft_arm in A;
      destruct A as (ws1 & arrow & ws2 & word & -> & S1 & S2 & Ha & Hw);
      exists pre, ws1, arrow, ws2, word, post;
      (split; [now rewrite !append_assoc|]); repeat split; auto.
  - intros (pre & ws1 & arrow & ws2 & word & post & -> & S1 & S2 & Ha & Hw).
    exists pre, ("+" ++ ws1 ++ arrow ++ ws2 ++ word), post.
    split; [now rewrite !append_assoc|].
    apply accepts_group, accepts_alt.
    destruct Ha as [Ha|Ha]; [left | right]; apply accepts_soft_arm;
      now exists ws1, arrow, ws2, word.
Qed.

(** ** Which APIs are flagged *)

Lemma firstn_skipn (n : nat) (s : string) : Str.firstn n s ++ Str.skipn n s = s.
Proof.
  revert s. induction n as [|n IH]; intro s; [reflexivity|].
  destruct s as [|c s]; [reflexivity|]. simpl. now rewrite IH.
Qed.

(** A slice of a text is a part of it. *)
Lemma slice_part (a b : nat) (s : string) :
  exists pre post, s = pre ++ Str.slice a b s ++ post.
Proof.
  exists (Str.firstn a s), (Str.skipn (b - a) (Str.skipn a s)).
  unfold Str.slice. now rewrite firstn_skipn, firstn_skipn.
Qed.

Lemma soft_section_part (html api sec : string) :
  soft_section html api = Some sec ->
  exists pre post, html = pre ++ sec ++ post.
Proof.
  unfold soft_section. intro H.
  destruct (exec (apiRe api) html) as [m|].
  - injection H as <-. apply slice_part.
  - destruct (Str.indexOf _ _ _) as [i|]; [|discriminate].
    injection H as <-. apply slice_part.
Qed.

Lemma has_soft_marker_part (pre sec post : string) :
  has_soft_marker sec -> has_soft_marker (pre ++ sec ++ post).
Proof.
  intros (p & ws1 & arrow & ws2 & word & q & -> & H).
  exists (pre ++ p), ws1, arrow, ws2, word, (q ++ post).
  split; [|exact H]. now rewrite !append_assoc.
Qed.

Lemma soft_flagged_spec (html api : string) :
  soft_flagged html api = true <->
  exists sec, soft_section html api = Some sec /\ has_soft_marker sec.
Proof.
  unfold soft_flagged. destruct (soft_section html api) as [sec|].
  - rewrite SOFT_spec. split.
    + intro H. now exists sec.
    + intros (sec' & E & H). now injection E as ->.
  - split; [discriminate | intros (sec & E & _); discriminate].
Qed.

Section Flagged.

Variable Number_toString : string -> string.

(** An API is flagged exactly when it is a name of the list of the
    document, not empty, and the section the aggregator finds for it holds
    the soft-failure marker. *)
Theorem flagged_spec (html : string) (rows : list Row) (a : string) :
  In a (detectSoftFailApis Number_toString html rows)
  <-> In a (apiList Number_toString html rows) /\ a <> ""
      /\ exists sec, soft_section html a = Some sec /\ has_soft_marker sec.
Proof. rewrite In_detectSoftFailApis, soft_flagged_spec. reflexivity. Qed.

(** In a document that does not hold the marker, whatever its messages say
    about failing, no API is flagged. *)
Theorem no_marker_no_flag (html : string) (rows : list Row) :
  ~ has_soft_marker html ->
  detectSoftFailApis Number_toString html rows = [].
Proof.
  intro H. destruct (detectSoftFailApis Number_toString html rows) as [|a l] eqn:E;
    [reflexivity|].
  exfalso. apply H.
  assert (Ha : In a (detectSoftFailApis Number_toString html rows))
    by (rewrite E; now left).
  apply flagged_spec in Ha. destruct Ha as (_ & _ & sec & Hs & Hm).
  destruct (soft_section_part _ _ _ Hs) as (pre & post & ->).
  now apply has_soft_marker_part.
Qed.

End Flagged.

(* ================================================================== *)
(** * Further properties of the normalizer and of the suite aggregates *)

Lemma or_else_nonempty (a : option string) (d : string) :
  d <> "" -> or_else a d <> "".
Proof.
  intro H. unfold or_else. destruct a as [s|]; [|exact H].
  destruct s; simpl; [exact H | discriminate].
Qed.

Lemma len_map {A B : Type} (f : A -> B) (l : list A) :
  Num.len (List.map f l) = Num.len l.
Proof. unfold Num.len. now rewrite length_map. Qed.

Lemma len_filter_split {A : Type} (p : A -> bool) (l : list A) :
  Num.len (filter p l) + Num.len (filter (fun x => negb (p x)) l) = Num.len l.
Proof.
  unfold Num.len. induction l as [|x l IH]; simpl; [reflexivity|].
  destruct (p x); simpl List.length; lia.
Qed.

Lemma len_filter_bounds {A : Type} (p : A -> bool) (l : list A) :
  0 <= Num.len (filter p l) <= Num.len l.
Proof. pose proof (len_filter_split p l). unfold Num.len in *. lia. Qed.

Lemma filter_map_swap {A B : Type} (f : A -> B) (p : B -> bool) (l : list A) :
  filter p (List.map f l) = List.map f (filter (fun x => p (f x)) l).
Proof.
  induction l as [|x l IH]; simpl; [reflexivity|].
  destruct (p (f x)); simpl; now rewrite IH.
Qed.

Lemma filter_same {A : Type} (p q : A -> bool) (l : list A) :
  (forall x, In x l -> p x = q x) -> filter p l = filter q l.
Proof.
  induction l as [|x l IH]; simpl; intro H; [reflexivity|].
  rewrite (H x (or_introl eq_refl)), IH; [reflexivity|].
  intros y Hy. apply H. now right.
Qed.

Section Normalizer_more.

Variables Request Payload : Type.
Variable snapshotRequest : option Request -> string.
Variable snapshotResponse : option (RawResponse Payload) -> string.

#[local] Abbreviation Execution := (RawExecution Request Payload).
#[local] Abbreviation normal := (normalize snapshotRequest snapshotResponse).

(** The three counters of a test case agree with its list of checks: the
    total is the number of checks, the failed ones are the checks that are
    not ok, the passed ones are the checks that are ok, and the two add up
    to the total.  A check always has a name, and a check that is ok carries
    the message [OK]. *)
Theorem checks_are_counted (ex : option Execution) :
  checksTotal (normal ex) = Num.len (checks (normal ex))
  /\ checksPassed (normal ex) = Num.len (filter ok (checks (normal ex)))
  /\ checksFailed (normal ex)
     = Num.len (filter (fun c => negb (ok c)) (checks (normal ex)))
  /\ checksPassed (normal ex) + checksFailed (normal ex) = checksTotal (normal ex)
  /\ 0 <= checksPassed (normal ex) /\ 0 <= checksFailed (normal ex)
  /\ (forall c, In c (checks (normal ex)) ->
                name c <> "" /\ (ok c = true -> message c = "OK")).
Proof.
  unfold normalize; simpl.
  set (l := assertions_of ex).
  assert (F : Num.len (filter has_error l)
              = Num.len (filter (fun c => negb (ok c)) (List.map check_of l))).
  { rewrite filter_map_swap, len_map. f_equal. apply filter_same.
    intros a _. unfold has_error, check_of; simpl. now destruct (error a). }
  assert (P : Num.len (filter ok (List.map check_of l))
              = Num.len l - Num.len (filter has_error l)).
  { rewrite F. pose proof (len_filter_split ok (List.map check_of l)) as S.
    rewrite len_map in S. lia. }
  pose proof (len_filter_bounds has_error l) as B.
  repeat split; try (rewrite ?len_map, ?P; lia).
  - apply in_map_iff in H. destruct H as (a & <- & _). unfold check_of; simpl.
    repeat apply or_else_nonempty. discriminate.
  - intro Hok. apply in_map_iff in H. destruct H as (a & <- & _).
    unfold check_of in *; simpl in *.
    destruct (error a); [discriminate | reflexivity].
Qed.

(** The outcome of a present entry, case by case.  It is Skipped exactly
    when the name or the message of one of its checks holds the word [skip];
    otherwise it is Fail exactly when one of its assertions recorded an
    error, and Pass exactly when none did.  It is never NotRun, which is the
    outcome of a missing entry and of no other. *)
Theorem outcome_decision_table (ex : Execution) :
  (result (normal (Some ex)) = Skipped
   <-> exists a, In a (assertions_of (Some ex))
                 /\ (has_skip_word (name (check_of a))
                     \/ has_skip_word (message (check_of a))))
  /\ (result (normal (Some ex)) = Fail
      <-> (forall a, In a (assertions_of (Some ex)) ->
                     ~ has_skip_word (name (check_of a))
                     /\ ~ has_skip_word (message (check_of a)))
          /\ exists a, In a (assertions_of (Some ex)) /\ error a <> None)
  /\ (result (normal (Some ex)) = Pass
      <-> forall a, In a (assertions_of (Some ex)) ->
                    ~ has_skip_word (name (check_of a))
                    /\ ~ has_skip_word (message (check_of a))
                    /\ error a = None)
  /\ result (normal (Some ex)) <> NotRun
  /\ result (normal None) = NotRun.
Proof.
  rewrite result_present.
  set (l := assertions_of (Some ex)).
  assert (SK : existsb is_skip_check (List.map check_of l) = true
               <-> exists a, In a l /\ (has_skip_word (name (check_of a))
                                        \/ has_skip_word (message (check_of a)))).
  { rewrite existsb_exists. split.
    - intros (c & Hc & Hs). apply in_map_iff in Hc. destruct Hc as (a & <- & Ha).
      exists a. split; [exact Ha|]. now apply is_skip_check_spec.
    - intros (a & Ha & Hs). exists (check_of a). split; [now apply in_map|].
      now apply is_skip_check_spec. }
  assert (ER : (Num.len (filter has_error l) >? 0) = true
               <-> exists a, In a l /\ error a <> None).
  { split.
    - intro H. destruct (filter has_error l) as [|a r] eqn:E; [discriminate|].
      assert (Ha : In a (filter has_error l)) by (rewrite E; now left).
      apply filter_In in Ha. destruct Ha as [Ha Hb]. exists a. split; [exact Ha|].
      unfold has_error in Hb. destruct (error a); [discriminate | discriminate].
    - intros (a & Ha & Hb).
      assert (Hf : In a (filter has_error l)).
      { apply filter_In. split; [exact Ha|]. unfold has_error.
        destruct (error a); [reflexivity | now elim Hb]. }
      destruct (filter has_error l); [contradiction|].
      unfold Num.len; simpl List.length. apply Z.gtb_lt. lia. }
  destruct (existsb is_skip_check (List.map check_of l)) eqn:S.
  - assert (M : exists a, In a l /\ (has_skip_word (name (check_of a))
                                   \/ has_skip_word (message (check_of a))))
      by now apply SK.
    repeat split; try discriminate; try (intros; exact M); try reflexivity.
    + intros [H _]. destruct M as (a & Ha & [Hs|Hs]); destruct (H a Ha); contradiction.
    + intro H. destruct M as (a & Ha & [Hs|Hs]); destruct (H a Ha) as (? & ? & ?);
        contradiction.
  - assert (NM : forall a, In a l -> ~ has_skip_word (name (check_of a))
                                   /\ ~ has_skip_word (message (check_of a))).
    { intros a Ha. split; intro Hs.
      + assert (false = true); [|discriminate]. apply SK. exists a. auto.
      + assert (false = true); [|discriminate]. apply SK. exists a. auto. }
    destruct (Num.len (filter has_error l) >? 0) eqn:E.
    + assert (X : exists a, In a l /\ error a <> None) by now apply ER.
      repeat split; try discriminate; try reflexivity; try (intros; assumption).
      * intros (a & Ha & Hs). destruct (NM a Ha). destruct Hs; contradiction.
      * apply NM; assumption.
      * apply NM; assumption.
      * intro H. destruct X as (a & Ha & Hb). destruct (H a Ha) as (_ & _ & Hc).
        contradiction.
    + assert (NX : forall a, In a l -> error a = None).
      { intros a Ha. destruct (error a) eqn:Ea; [|reflexivity].
        assert (false = true); [|discriminate]. apply ER.
        exists a. split; [exact Ha|]. rewrite Ea. discriminate. }
      repeat split; try discriminate; try reflexivity.
      * intros (a & Ha & Hs). destruct (NM a Ha). destruct Hs; contradiction.
      * intros [_ (a & Ha & Hb)]. elim Hb. now apply NX.
      * apply NM; assumption.
      * apply NM; assumption.
      * apply NX; assumption.
Qed.

End Normalizer_more.

(** ** The suite aggregates and the table of folders *)

Lemma filter_filter {A : Type} (p q : A -> bool) (l : list A) :
  filter p (filter q l) = filter (fun x => (q x && p x)%bool) l.
Proof.
  induction l as [|x l IH]; simpl; [reflexivity|].
  destruct (q x); simpl; [destruct (p x)|]; now rewrite IH.
Qed.

Lemma is_pass_considered (tc : TestCase) : is_pass tc = true -> is_considered tc = true.
Proof. unfold is_pass, is_considered. intros ->. reflexivity. Qed.

Lemma is_fail_considered (tc : TestCase) : is_fail tc = true -> is_considered tc = true.
Proof. unfold is_fail, is_considered. intros ->. apply orb_true_r. Qed.

Lemma considered_fail_len (l : list TestCase) :
  Num.len (filter is_fail (considered l))
  = Num.len (filter (fun tc => negb (is_pass tc)) (considered l)).
Proof.
  f_equal. apply filter_same. intros tc H. apply filter_In in H.
  now apply considered_pass_or_fail.
Qed.

(** The suite aggregates, for every list of test cases and every
    threshold: the total is the number of passed cases plus the number of
    failed ones (a Skipped or NotRun case is in none of the three); the
    number of cases within the threshold is at most the total; both
    percentages are between 0 and 100, and are 0 when there is no case to
    count. *)
Theorem suite_aggregates_invariants (sla : Z) (tcs : list TestCase) :
  totalCases tcs = passedCases tcs + failedCases tcs
  /\ passedCases tcs = Spec.count is_pass tcs
  /\ failedCases tcs = Spec.count is_fail tcs
  /\ 0 <= withinSLA sla tcs <= totalCases tcs
  /\ totalCases tcs <= Num.len tcs
  /\ 0 <= Suite.passPct tcs <= 100
  /\ 0 <= withinPct sla tcs <= 100
  /\ (totalCases tcs = 0 -> Suite.passPct tcs = 0 /\ withinPct sla tcs = 0).
Proof.
  assert (T : totalCases tcs = passedCases tcs + failedCases tcs).
  { unfold totalCases, passedCases, failedCases. rewrite considered_fail_len.
    symmetry. apply len_filter_split. }
  assert (P : 0 <= passedCases tcs <= totalCases tcs)
    by apply len_filter_bounds.
  assert (W : 0 <= withinSLA sla tcs <= totalCases tcs)
    by apply len_filter_bounds.
  assert (L : 0 <= totalCases tcs <= Num.len tcs)
    by apply len_filter_bounds.
  repeat split; try lia.
  - unfold passedCases, Spec.count, considered. rewrite filter_filter. f_equal.
    apply filter_same. intros tc _. destruct (is_pass tc) eqn:E.
    + now rewrite (is_pass_considered tc E).
    + apply andb_false_r.
  - unfold failedCases, Spec.count, considered. rewrite filter_filter. f_equal.
    apply filter_same. intros tc _. destruct (is_fail tc) eqn:E.
    + now rewrite (is_fail_considered tc E).
    + apply andb_false_r.
  - unfold Suite.passPct. destruct (totalCases tcs =? 0) eqn:E; [lia|].
    apply Z.eqb_neq in E. apply pct_bounds; lia.
  - unfold Suite.passPct. destruct (totalCases tcs =? 0) eqn:E; [lia|].
    apply Z.eqb_neq in E. apply pct_bounds; lia.
  - unfold withinPct. destruct (totalCases tcs =? 0) eqn:E; [lia|].
    apply Z.eqb_neq in E. apply pct_bounds; lia.
  - unfold withinPct. destruct (totalCases tcs =? 0) eqn:E; [lia|].
    apply Z.eqb_neq in E. apply pct_bounds; lia.
  - unfold Suite.passPct. now rewrite H.
  - unfold withinPct. now rewrite H.
Qed.

(** *** A stable sort is a permutation *)

Section Sort_more.
Variable A : Type.
Variable cmp : A -> A -> comparison.

Lemma insert_sorted_perm (x : A) (l : list A) :
  Permutation (insert_sorted cmp x l) (x :: l).
Proof.
  induction l as [|y l IH]; simpl; [apply Permutation_refl|].
  destruct (cmp x y); try apply Permutation_refl;
    (eapply Permutation_trans; [apply perm_skip, IH | apply perm_swap]).
Qed.

Lemma sort_fold_perm (l : list A) :
  forall acc, Permutation (fold_left (fun a x => insert_sorted cmp x a) l acc)
                          (acc ++ l).
Proof.
  induction l as [|x l IH]; intro acc; simpl.
  - rewrite app_nil_r. apply Permutation_refl.
  - eapply Permutation_trans; [apply IH|].
    eapply Permutation_trans; [apply Permutation_app_tail, insert_sorted_perm|].
    simpl. apply Permutation_cons_app. apply Permutation_refl.
Qed.

Lemma sort_perm (l : list A) : Permutation (sort cmp l) l.
Proof. unfold sort. apply (sort_fold_perm l []). Qed.

End Sort_more.

Lemma sum_perm (l1 l2 : list Z) : Permutation l1 l2 -> Num.sum l1 = Num.sum l2.
Proof. induction 1; simpl; lia. Qed.

(** *** The sums over the map of folders *)

Lemma sum_map_set {V : Type} (f : V -> Z) (g : string) (v : V) (m : list (string * V)) :
  Num.sum (List.map (fun kv => f (snd kv)) (map_set g v m))
  = Num.sum (List.map (fun kv => f (snd kv)) m)
    - match map_get g m with Some a => f a | None => 0 end + f v.
Proof.
  induction m as [|[k a] m IH]; simpl; [lia|].
  destruct (String.eqb k g); simpl; [lia|]. rewrite IH. lia.
Qed.

Lemma byFolder_step_sums (m : list (string * FolderAcc)) (tc : TestCase) :
  Num.sum (List.map (fun kv => acc_total (snd kv)) (byFolder_step m tc))
  = Num.sum (List.map (fun kv => acc_total (snd kv)) m) + 1
  /\ Num.sum (List.map (fun kv => acc_pass (snd kv)) (byFolder_step m tc))
     = Num.sum (List.map (fun kv => acc_pass (snd kv)) m)
       + (if is_pass tc then 1 else 0)
  /\ Num.sum (List.map (fun kv => acc_fail (snd kv)) (byFolder_step m tc))
     = Num.sum (List.map (fun kv => acc_fail (snd kv)) m)
       + (if is_pass tc then 0 else 1).
Proof.
  unfold byFolder_step. rewrite !sum_map_set.
  destruct (map_get (group_key tc) m); simpl; destruct (is_pass tc); lia.
Qed.

Lemma byFolder_fold_sums (l : list TestCase) :
  forall m,
    Num.sum (List.map (fun kv => acc_total (snd kv)) (fold_left byFolder_step l m))
    = Num.sum (List.map (fun kv => acc_total (snd kv)) m) + Num.len l
    /\ Num.sum (List.map (fun kv => acc_pass (snd kv)) (fold_left byFolder_step l m))
       = Num.sum (List.map (fun kv => acc_pass (snd kv)) m)
         + Num.len (filter is_pass l)
    /\ Num.sum (List.map (fun kv => acc_fail (snd kv)) (fold_left byFolder_step l m))
       = Num.sum (List.map (fun kv => acc_fail (snd kv)) m)
         + Num.len (filter (fun tc => negb (is_pass tc)) l).
Proof.
  induction l as [|tc l IH]; intro m; simpl.
  - unfold Num.len; simpl. lia.
  - destruct (IH (byFolder_step m tc)) as (T & P & F).
    destruct (byFolder_step_sums m tc) as (T1 & P1 & F1).
    rewrite T, P, F, T1, P1, F1. unfold Num.len.
    destruct (is_pass tc); simpl List.length; lia.
Qed.

Lemma byFolder_keys (tcs : list TestCase) (k : string) (a : FolderAcc) :
  In (k, a) (byFolder tcs) -> acc_group a = k.
Proof.
  intro H. destruct (byFolder_counted tcs) as [ND C].
  specialize (C k). rewrite (In_map_get _ k a (byFolder tcs) ND H) in C.
  apply C.
Qed.

(** The table of folders accounts for every counted case once: its rows
    name distinct folders, and the totals, the passed and the failed counts
    of the rows add up to the three totals of the suite. *)
Theorem folder_rows_partition_the_suite
        (localeCompare : string -> string -> comparison) (tcs : list TestCase) :
  NoDup (List.map row_group (folderRows localeCompare tcs))
  /\ Num.sum (List.map row_total (folderRows localeCompare tcs)) = totalCases tcs
  /\ Num.sum (List.map row_pass (folderRows localeCompare tcs)) = passedCases tcs
  /\ Num.sum (List.map row_fail (folderRows localeCompare tcs)) = failedCases tcs.
Proof.
  unfold folderRows.
  set (rows := List.map (fun kv => folderRow_of (snd kv)) (byFolder tcs)).
  pose proof (sort_perm _ (fun a b => localeCompare (row_pretty a) (row_pretty b)) rows)
    as SP.
  destruct (byFolder_fold_sums (considered tcs) []) as (T & P & F).
  simpl in T, P, F. fold (byFolder tcs) in T, P, F.
  assert (M : forall (f : FolderRow -> Z) (g : FolderAcc -> Z),
               (forall a, f (folderRow_of a) = g a) ->
                          List.map f rows = List.map (fun kv => g (snd kv)) (byFolder tcs)).
  { intros f g E. unfold rows. rewrite map_map. apply map_ext. intros kv. apply E. }
  repeat split.
  - apply (Permutation_NoDup (l := List.map row_group rows)).
    + apply Permutation_map, Permutation_sym, SP.
    + unfold rows. rewrite map_map.
      destruct (byFolder_counted tcs) as [ND _].
      replace (List.map (fun x => row_group (folderRow_of (snd x))) (byFolder tcs))
        with (List.map fst (byFolder tcs)); [exact ND|].
      apply map_ext_in. intros [k a] H. simpl. symmetry. now apply (byFolder_keys tcs).
  - rewrite (sum_perm _ _ (Permutation_map row_total SP)).
    rewrite (M row_total acc_total (fun _ => eq_refl)). rewrite T. reflexivity.
  - rewrite (sum_perm _ _ (Permutation_map row_pass SP)).
    rewrite (M row_pass acc_pass (fun _ => eq_refl)). rewrite P. reflexivity.
  - rewrite (sum_perm _ _ (Permutation_map row_fail SP)).
    rewrite (M row_fail acc_fail (fun _ => eq_refl)). rewrite F.
    unfold failedCases. now rewrite considered_fail_len.
Qed.

(** *** The average response time *)

Lemma sum_bounds (lo hi : Z) (a : list Z) :
  Forall (fun x => lo <= x <= hi) a ->
  Num.len a * lo <= Num.sum a <= Num.len a * hi.
Proof.
  unfold Num.len. induction 1 as [|x a Hx _ IH]; simpl Num.sum; simpl List.length.
  - lia.
  - rewrite Nat2Z.inj_succ. lia.
Qed.


Lemma sum_num_whole (a : list Z) :
  (Suite.sum_num (List.map inject_Z a) == inject_Z (Num.sum a))%Q.
Proof.
  induction a as [|x r IH]; [reflexivity|].
  cbn [List.map Suite.sum_num Num.sum]. now rewrite IH, inject_Z_plus.
Qed.

Lemma Math_round_proper (x y : Q) : (x == y)%Q -> Num.Math_round x = Num.Math_round y.
Proof. intro E. unfold Num.Math_round. now rewrite E. Qed.

(** On whole numbers [avg_num] is [avg]. *)
Lemma avg_num_whole (a : list Z) : Suite.avg_num (List.map inject_Z a) = Suite.avg a.
Proof.
  destruct a as [|x r]; [reflexivity|].
  unfold Suite.avg, Suite.avg_num. cbn [List.map].
  change (inject_Z x :: List.map inject_Z r) with (List.map inject_Z (x :: r)).
  apply Math_round_proper. unfold Num.div, Num.len.
  now rewrite sum_num_whole, length_map.
Qed.




(** The average of the one time 120.5 is 121. *)
Lemma avg_of_a_half_example : Suite.avg_num [241 # 2] = 121.
Proof. reflexivity. Qed.

(** ** The registry of APIs and the failure of a render *)

Lemma existsb_eqb_In (x : string) (s : list string) :
  existsb (String.eqb x) s = true <-> In x s.
Proof.
  rewrite existsb_exists. split.
  - intros (y & Hy & E). apply String.eqb_eq in E. now subst.
  - intro H. exists x. split; [exact H | apply String.eqb_refl].
Qed.

Lemma NoDup_set_add (x : string) (s : list string) :
  NoDup s -> NoDup (Builder.set_add x s).
Proof.
  intro H. unfold Builder.set_add. destruct (existsb (String.eqb x) s) eqn:E; [exact H|].
  apply NoDup_app; [exact H | repeat constructor; intros [] |].
  intros y Hy [<-|[]]. apply existsb_eqb_In in Hy. congruence.
Qed.

Lemma NoDup_fold_set_add {A : Type} (f : A -> string) (l : list A) :
  forall s, NoDup s -> NoDup (fold_left (fun s a => Builder.set_add (f a) s) l s).
Proof.
  induction l as [|a l IH]; intros s H; simpl; [exact H|].
  apply IH. now apply NoDup_set_add.
Qed.

(** The registry of a suite lists, without repetition, the display names
    of the APIs that have at least one case counted (Pass or Fail), and no
    other name: an API whose cases are all Skipped or NotRun is not in the
    registry. *)
Theorem registry_lists_the_counted_apis (tcs : list TestCase) :
  NoDup (Builder.suiteApiSet tcs)
  /\ forall n, In n (Builder.suiteApiSet tcs)
               <-> exists tc, In tc tcs /\ is_considered tc = true
                              /\ pretty (Builder.api_key tc) = n.
Proof.
  unfold Builder.suiteApiSet. split.
  - apply NoDup_fold_set_add. constructor.
  - intro n. rewrite (In_fold_set_add (fun tc => pretty (Builder.api_key tc))).
    split.
    + intros [[]|(tc & H & E)]. apply filter_In in H. exists tc. tauto.
    + intros (tc & H & C & E). right. exists tc. split; [|exact E].
      apply filter_In. tauto.
Qed.

(** *** The cases of the folders *)

Lemma In_map_set {V : Type} (g k : string) (v a : V) (m : list (string * V)) :
  In (k, a) (map_set g v m) -> (k = g /\ a = v) \/ In (k, a) m.
Proof.
  induction m as [|[k' a'] m IH]; simpl.
  - intros [E|[]]. inversion E. now left.
  - destruct (String.eqb k' g) eqn:E; simpl.
    + apply String.eqb_eq in E. intros [H|H].
      * inversion H. subst. now left.
      * right. now right.
    + intros [H|H]; [right; now left|]. destruct (IH H); [now left | right; now right].
Qed.

Lemma In_map_set_new {V : Type} (g : string) (v : V) (m : list (string * V)) :
  In (g, v) (map_set g v m).
Proof.
  induction m as [|[k' a'] m IH]; simpl; [now left|].
  destruct (String.eqb k' g) eqn:E; simpl.
  - apply String.eqb_eq in E. subst. now left.
  - now right.
Qed.

Lemma In_map_set_old {V : Type} (g k : string) (v a : V) (m : list (string * V)) :
  In (k, a) m -> In (k, a) (map_set g v m) \/ map_get g m = Some a.
Proof.
  induction m as [|[k' a'] m IH]; simpl; [intros []|].
  destruct (String.eqb k' g) eqn:E; simpl.
  - intros [H|H]; [inversion H; subst; now right | left; now right].
  - intros [H|H]; [left; now left|]. destruct (IH H); [left; now right | now right].
Qed.

Lemma map_get_In {V : Type} (g : string) (a : V) (m : list (string * V)) :
  map_get g m = Some a -> In (g, a) m.
Proof.
  induction m as [|[k' a'] m IH]; simpl; [discriminate|].
  destruct (String.eqb k' g) eqn:E.
  - apply String.eqb_eq in E. intro H. inversion H. subst. now left.
  - intro H. right. now apply IH.
Qed.

Lemma byFolder_step_cases (m : list (string * FolderAcc)) (done : list TestCase)
      (tc : TestCase) :
  Terms.holds_cases m done -> Terms.holds_cases (byFolder_step m tc) (done ++ [tc]).
Proof.
  intros H x. unfold byFolder_step.
  set (g := group_key tc).
  set (a0 := nullish (map_get g m) (mkFolderAcc g 0 0 0 [] [])).
  match goal with |- context [map_set g ?v m] => set (v0 := v) end.
  assert (A0 : forall y, In y (acc_apis a0) -> In y done).
  { intros y Hy. unfold a0 in Hy. destruct (map_get g m) as [a|] eqn:E; simpl in Hy.
    - apply H. exists g, a. split; [now apply map_get_In | exact Hy].
    - destruct Hy. }
  split.
  - intros (k & a & Hin & Hx). apply in_or_app.
    destruct (In_map_set _ _ _ _ _ Hin) as [[-> ->]|Hold].
    + unfold v0 in Hx; simpl in Hx. apply in_app_or in Hx.
      destruct Hx as [Hx|Hx]; [left; now apply A0 | now right].
    + left. apply H. now exists k, a.
  - intro Hx. apply in_app_or in Hx. destruct Hx as [Hx|[<-|[]]].
    + apply H in Hx. destruct Hx as (k & a & Hin & Hx).
      destruct (In_map_set_old g k v0 a m Hin) as [Hk|Hg].
      * now exists k, a.
      * exists g, v0. split; [apply In_map_set_new|].
        unfold v0; simpl. apply in_or_app. left. unfold a0. now rewrite Hg.
    + exists g, v0. split; [apply In_map_set_new|].
      unfold v0; simpl. apply in_or_app. right. now left.
Qed.

Lemma byFolder_fold_cases (l : list TestCase) :
  forall m done, Terms.holds_cases m done ->
                 Terms.holds_cases (fold_left byFolder_step l m) (done ++ l).
Proof.
  induction l as [|tc l IH]; intros m done H; simpl.
  - now rewrite app_nil_r.
  - replace (done ++ tc :: l)%list with ((done ++ [tc]) ++ l)%list
      by now rewrite <- app_assoc.
    apply IH. now apply byFolder_step_cases.
Qed.

Lemma byFolder_cases (tcs : list TestCase) : Terms.holds_cases (byFolder tcs) (considered tcs).
Proof.
  apply (byFolder_fold_cases (considered tcs) [] []).
  intro tc. split; [intros (k & a & [] & _) | intros []].
Qed.

Lemma folderRows_cases (localeCompare : string -> string -> comparison)
      (tcs : list TestCase) (tc : TestCase) :
  (exists r, In r (folderRows localeCompare tcs) /\ In tc (Suite.row_apis r))
  <-> In tc (considered tcs).
Proof.
  rewrite <- (byFolder_cases tcs tc). unfold folderRows. split.
  - intros (r & Hr & Htc). apply In_sort in Hr. apply in_map_iff in Hr.
    destruct Hr as ([k a] & <- & Hin). now exists k, a.
  - intros (k & a & Hin & Htc). exists (folderRow_of a). split; [|exact Htc].
    apply In_sort. apply in_map_iff. now exists (k, a).
Qed.

Lemma all_or_none_None {A : Type} (l : list (option A)) :
  Builder.all_or_none l = None <-> In None l.
Proof.
  induction l as [|[x|] l IH]; simpl.
  - split; [discriminate | intros []].
  - destruct (Builder.all_or_none l).
    + split; [discriminate|]. intros [H|H]; [discriminate|].
      apply IH in H. discriminate.
    + split; [intros _; right; now apply IH | reflexivity].
  - split; [now left | reflexivity].
Qed.

Lemma apimap_None (apis : list TestCase) :
  Builder.apimap apis = None
  <-> exists tc, In tc apis /\ Builder.inherited (Builder.api_key tc) = true.
Proof.
  unfold Builder.apimap.
  match goal with |- context [existsb ?p apis] => set (p0 := p) end.
  assert (E : forall tc, p0 tc = Builder.inherited (Builder.api_key tc)).
  { intros [i g a]. unfold p0, Builder.api_key; simpl. now destruct a. }
  destruct (existsb p0 apis) eqn:X.
  - split; [intros _|reflexivity]. apply existsb_exists in X.
    destruct X as (tc & Hin & Hp). exists tc. split; [exact Hin|]. now rewrite <- E.
  - split; [discriminate|]. intros (tc & Hin & Hp).
    assert (existsb p0 apis = true); [|congruence].
    apply existsb_exists. exists tc. split; [exact Hin|]. now rewrite E.
Qed.

(** The builder throws instead of rendering exactly when a counted case
    (Pass or Fail) belongs to a request whose name is the name of a
    property that every object inherits ([constructor], [toString],
    [__proto__] and the like): the object that groups the cases of a folder
    by API already holds a value under that name, and the value has no
    [push].  With no such request the document is always rendered. *)
Theorem render_throws_on_inherited_names
        (localeCompare : string -> string -> comparison)
        (cfg : Builder.Settings) (tcs : list TestCase) :
  Builder.render localeCompare cfg tcs = None
  <-> exists tc, In tc tcs /\ is_considered tc = true
                 /\ In (Builder.api_key tc) Builder.prototype_keys.
Proof.
  assert (R : Builder.render localeCompare cfg tcs = None
              <-> In None (List.map (Builder.render_folder localeCompare)
                                    (folderRows localeCompare tcs))).
  { rewrite <- all_or_none_None. unfold Builder.render.
    destruct (Builder.all_or_none
                (List.map (Builder.render_folder localeCompare)
                          (folderRows localeCompare tcs)));
      split; congruence. }
  rewrite R, in_map_iff. split.
  - intros (r & Hn & Hr). unfold Builder.render_folder in Hn.
    destruct (Builder.apimap (Suite.row_apis r)) eqn:E; [discriminate|].
    apply apimap_None in E. destruct E as (tc & Hin & Hp).
    assert (C : In tc (considered tcs)).
    { apply (folderRows_cases localeCompare). now exists r. }
    apply filter_In in C. exists tc. repeat split; try tauto.
    now apply existsb_eqb_In.
  - intros (tc & Hin & Hc & Hp).
    assert (C : In tc (considered tcs)) by (apply filter_In; tauto).
    apply (folderRows_cases localeCompare) in C. destruct C as (r & Hr & Htc).
    exists r. split; [|exact Hr]. unfold Builder.render_folder.
    replace (Builder.apimap (Suite.row_apis r)) with (@None (list (string * list TestCase)));
      [reflexivity|].
    symmetry. apply apimap_None. exists tc. split; [exact Htc|].
    now apply existsb_eqb_In.
Qed.

(** ** The aggregates of the combined report *)

Lemma sum_app (a b : list Z) : Num.sum (a ++ b) = Num.sum a + Num.sum b.
Proof. induction a as [|x a IH]; simpl; lia. Qed.

Lemma sums_of_app (a b : list Row) :
  Terms.sums_of (a ++ b)
  = mkSums (passSum (Terms.sums_of a) + passSum (Terms.sums_of b))
           (failSum (Terms.sums_of a) + failSum (Terms.sums_of b))
           (totalSum (Terms.sums_of a) + totalSum (Terms.sums_of b)).
Proof. unfold Terms.sums_of; simpl. now rewrite !map_app, !sum_app. Qed.

Lemma keyMap_fold (l : list Row) :
  forall m done,
    NoDup (List.map fst m) ->
    (forall k, map_get k m
               = match Terms.rows_of_key k done with
                 | [] => None
                 | sel => Some (Terms.sums_of sel)
                 end) ->
    NoDup (List.map fst (fold_left keyMap_step l m))
    /\ forall k, map_get k (fold_left keyMap_step l m)
                 = match Terms.rows_of_key k (done ++ l) with
                   | [] => None
                   | sel => Some (Terms.sums_of sel)
                   end.
Proof.
  induction l as [|r l IH]; intros m done ND H; simpl.
  - rewrite app_nil_r. now split.
  - replace (done ++ r :: l)%list with ((done ++ [r]) ++ l)%list
      by now rewrite <- app_assoc.
    apply IH.
    + unfold keyMap_step. now apply NoDup_map_set.
    + intro k. unfold keyMap_step. rewrite map_get_set.
      unfold Terms.rows_of_key. rewrite filter_app. simpl.
      destruct (String.eqb (row_key r) k) eqn:E.
      * apply String.eqb_eq in E. subst k. rewrite (H (row_key r)).
        unfold Terms.rows_of_key.
        destruct (filter (fun r0 => String.eqb (row_key r0) (row_key r)) done)
          as [|x sel]; simpl.
        -- unfold Terms.sums_of; simpl. f_equal. f_equal; lia.
        -- change (x :: sel ++ [r])%list with ((x :: sel) ++ [r])%list.
           rewrite (sums_of_app (x :: sel) [r]). unfold Terms.sums_of; simpl.
           f_equal. f_equal; lia.
      * rewrite app_nil_r. apply H.
Qed.

Lemma keyMap_spec (rows : list Row) :
  NoDup (List.map fst (keyMap rows))
  /\ forall k, map_get k (keyMap rows)
               = match Terms.rows_of_key k rows with
                 | [] => None
                 | sel => Some (Terms.sums_of sel)
                 end.
Proof.
  apply (keyMap_fold rows [] []); [constructor | reflexivity].
Qed.

(** The aggregate of a key is the sum of its rows: for every key, the map
    of the aggregates holds an entry exactly when some row has the key, and
    the entry holds the sums of the passed, failed and total counts of all
    the rows with that key, wherever they stand in the list.  No key has
    two entries. *)
Theorem every_key_sums_its_rows (rows : list Row) (k : string) :
  NoDup (List.map fst (keyMap rows))
  /\ (map_get k (keyMap rows) = None
      <-> forall r, In r rows -> row_key r <> k)
  /\ (forall v, map_get k (keyMap rows) = Some v ->
                v = Terms.sums_of (Terms.rows_of_key k rows)).
Proof.
  destruct (keyMap_spec rows) as [ND H]. split; [exact ND|]. rewrite (H k).
  split.
  - split.
    + intros E r Hr Hk.
      assert (X : In r (Terms.rows_of_key k rows)).
      { apply filter_In. split; [exact Hr|]. now apply String.eqb_eq. }
      destruct (Terms.rows_of_key k rows); [destruct X | discriminate].
    + intro N. destruct (Terms.rows_of_key k rows) as [|x sel] eqn:E; [reflexivity|].
      assert (X : In x (Terms.rows_of_key k rows)) by (rewrite E; now left).
      apply filter_In in X. destruct X as [Hx Hk]. apply String.eqb_eq in Hk.
      now elim (N x Hx).
  - intros v. destruct (Terms.rows_of_key k rows); [discriminate|].
    intro E. now inversion E.
Qed.

(** *** The statistics do not depend on the order of the rows *)

Lemma filter_perm {A : Type} (p : A -> bool) (l l' : list A) :
  Permutation l l' -> Permutation (filter p l) (filter p l').
Proof.
  induction 1 as [|x l l' _ IH|x y l|l l' l'' _ IH1 _ IH2]; simpl.
  - constructor.
  - destruct (p x); [now constructor | exact IH].
  - destruct (p x), (p y); try apply Permutation_refl. apply perm_swap.
  - eapply Permutation_trans; eassumption.
Qed.

Lemma sums_of_perm (l l' : list Row) :
  Permutation l l' -> Terms.sums_of l = Terms.sums_of l'.
Proof.
  intro P. unfold Terms.sums_of.
  rewrite (sum_perm _ _ (Permutation_map pass P)),
          (sum_perm _ _ (Permutation_map fail P)),
          (sum_perm _ _ (Permutation_map total P)).
  reflexivity.
Qed.

Lemma In_keyMap (rows : list Row) (k : string) (v : Sums) :
  In (k, v) (keyMap rows)
  <-> Terms.rows_of_key k rows <> []
      /\ v = Terms.sums_of (Terms.rows_of_key k rows).
Proof.
  destruct (keyMap_spec rows) as [ND H]. split.
  - intro Hin. pose proof (In_map_get _ k v (keyMap rows) ND Hin) as G.
    rewrite (H k) in G. destruct (Terms.rows_of_key k rows); [discriminate|].
    split; [discriminate | now inversion G].
  - intros [Hne ->]. apply map_get_In. rewrite (H k).
    destruct (Terms.rows_of_key k rows); [now elim Hne | reflexivity].
Qed.

Lemma NoDup_pairs {V : Type} (m : list (string * V)) :
  NoDup (List.map fst m) -> NoDup m.
Proof.
  induction m as [|[k v] m IH]; simpl; intro H; [constructor|].
  inversion H as [|? ? Hn Hr]. subst. constructor; [|now apply IH].
  intro Hin. apply Hn. apply in_map_iff. now exists (k, v).
Qed.

Lemma keyMap_perm (rows rows' : list Row) :
  Permutation rows rows' -> Permutation (keyMap rows) (keyMap rows').
Proof.
  intro P. apply NoDup_Permutation.
  - apply NoDup_pairs, keyMap_spec.
  - apply NoDup_pairs, keyMap_spec.
  - intros [k v]. rewrite !In_keyMap.
    assert (Q : Permutation (Terms.rows_of_key k rows) (Terms.rows_of_key k rows'))
      by now apply filter_perm.
    rewrite (sums_of_perm _ _ Q). split; intros [Hne E]; (split; [|exact E]).
    + intro X. rewrite X in Q. apply Permutation_sym, Permutation_nil in Q.
      contradiction.
    + intro X. rewrite X in Q. apply Permutation_nil in Q. contradiction.
Qed.

(** The statistics of the APIs are those of the set of rows: reading the
    suite documents, or their rows, in another order changes neither the
    number of unique keys, nor the number of passed and of failed ones, nor
    the rate. *)
Theorem api_stats_ignore_the_order (rows rows' : list Row) :
  Permutation rows rows' ->
  aggregateApiStatsFromRows rows = aggregateApiStatsFromRows rows'.
Proof.
  intro P. pose proof (keyMap_perm rows rows' P) as K.
  unfold aggregateApiStatsFromRows, Num.len.
  rewrite (Permutation_length K).
  rewrite (Permutation_length (filter_perm (fun kv => api_passed (snd kv)) _ _ K)).
  reflexivity.
Qed.

Lemma api_stats_ignore_the_order_witness :
  aggregateApiStatsFromRows
    [mkRow "Billing" "Invoices" "Get Invoice" 5 0 5 None None;
     mkRow "Billing" "Payments" "Pay" 3 2 5 None None]
  = aggregateApiStatsFromRows
      [mkRow "Billing" "Payments" "Pay" 3 2 5 None None;
       mkRow "Billing" "Invoices" "Get Invoice" 5 0 5 None None].
Proof.
  apply (api_stats_ignore_the_order
           [mkRow "Billing" "Invoices" "Get Invoice" 5 0 5 None None;
            mkRow "Billing" "Payments" "Pay" 3 2 5 None None]
           [mkRow "Billing" "Payments" "Pay" 3 2 5 None None;
            mkRow "Billing" "Invoices" "Get Invoice" 5 0 5 None None]).
  apply perm_swap.
Defined.

(** The counters of the APIs: the number of unique keys is at most the
    number of rows, the passed keys are among the unique ones, and the
    failed ones are the rest. *)
Theorem api_stats_invariants (rows : list Row) :
  0 <= passed (aggregateApiStatsFromRows rows)
  /\ passed (aggregateApiStatsFromRows rows) <= unique (aggregateApiStatsFromRows rows)
  /\ unique (aggregateApiStatsFromRows rows) <= Num.len rows
  /\ passed (aggregateApiStatsFromRows rows) + failed (aggregateApiStatsFromRows rows)
     = unique (aggregateApiStatsFromRows rows)
  /\ (rows <> [] -> 0 < unique (aggregateApiStatsFromRows rows)).
Proof.
  unfold aggregateApiStatsFromRows; simpl.
  pose proof (len_filter_bounds (fun kv : string * Sums => api_passed (snd kv))
                                (keyMap rows)) as B.
  assert (L : Num.len (keyMap rows) <= Num.len rows).
  { unfold Num.len. apply inj_le.
    rewrite <- (length_map fst (keyMap rows)), <- (length_map row_key rows).
    apply NoDup_incl_length; [apply keyMap_spec|].
    intros k Hk. apply in_map_iff in Hk. destruct Hk as ([k' v] & <- & Hin).
    apply In_keyMap in Hin. destruct Hin as [Hne _].
    destruct (Terms.rows_of_key k' rows) as [|x sel] eqn:E; [now elim Hne|].
    assert (X : In x (Terms.rows_of_key k' rows)) by (rewrite E; now left).
    apply filter_In in X. destruct X as [Hx Hk]. apply String.eqb_eq in Hk.
    apply in_map_iff. now exists x. }
  repeat split; try lia.
  intro Hne. destruct rows as [|r rows]; [now elim Hne|].
  assert (X : In (row_key r, Terms.sums_of (Terms.rows_of_key (row_key r) (r :: rows)))
                 (keyMap (r :: rows))).
  { apply In_keyMap. split; [|reflexivity]. unfold Terms.rows_of_key; simpl.
    rewrite String.eqb_refl. discriminate. }
  unfold Num.len. destruct (keyMap (r :: rows)); [destruct X | simpl List.length; lia].
Qed.

(** ** The totals of the test cases and the keys of the rows *)

Lemma fold_left_add {A : Type} (f : A -> Z) (l : list A) :
  forall a, fold_left (fun a r => a + f r) l a = a + Num.sum (List.map f l).
Proof.
  induction l as [|x l IH]; intro a; simpl; [lia|]. rewrite IH. lia.
Qed.

Section Grand_totals.

Variable Number_toString : string -> string.

Lemma allRows_scan (docs : list string) :
  forall st,
    allRows (fold_left (scan_step Number_toString) docs st)
    = (allRows st ++ List.concat (List.map parseSuiteRows docs))%list.
Proof.
  induction docs as [|d docs IH]; intro st; simpl.
  - now rewrite app_nil_r.
  - rewrite IH, allRows_step. now rewrite <- app_assoc.
Qed.

(** The totals of the combined report are the sums of the totals of the
    suite documents: the rows it counts are the rows of the documents, one
    after the other, and the total, passed and failed numbers of test cases
    at the head of the report are the sums, over the documents, of the same
    numbers computed for each document alone. *)
Theorem grand_totals_add_up (docs : list string) :
  allRows (scan Number_toString docs) = List.concat (List.map parseSuiteRows docs)
  /\ cs_total (grandCase (scan Number_toString docs))
     = Num.sum (List.map (fun d => cs_total (aggregateCaseStats (parseSuiteRows d))) docs)
  /\ cs_pass (grandCase (scan Number_toString docs))
     = Num.sum (List.map (fun d => cs_pass (aggregateCaseStats (parseSuiteRows d))) docs)
  /\ cs_fail (grandCase (scan Number_toString docs))
     = Num.sum (List.map (fun d => cs_fail (aggregateCaseStats (parseSuiteRows d))) docs).
Proof.
  assert (R : allRows (scan Number_toString docs)
              = List.concat (List.map parseSuiteRows docs)).
  { unfold scan. now rewrite allRows_scan. }
  split; [exact R|]. unfold grandCase. rewrite R.
  unfold aggregateCaseStats; simpl.
  induction docs as [|d docs IH]; simpl.
  - repeat split.
  - rewrite !fold_left_add in *. rewrite !map_app, !sum_app.
    assert (R' : allRows (scan Number_toString docs)
                 = List.concat (List.map parseSuiteRows docs)).
    { unfold scan. now rewrite allRows_scan. }
    destruct (IH R') as (T & P & F). simpl in T, P, F. simpl.
    rewrite <- T, <- P, <- F. repeat split; lia.
Qed.

End Grand_totals.

(** When every row has a total that is the sum of its passed and failed
    counts, as the rows of a suite report have, the total number of test
    cases is the number of passed plus the number of failed ones. *)
Theorem case_totals_are_consistent (rows : list Row) :
  (forall r, In r rows -> total r = pass r + fail r) ->
  cs_total (aggregateCaseStats rows)
  = cs_pass (aggregateCaseStats rows) + cs_fail (aggregateCaseStats rows).
Proof.
  intro H. unfold aggregateCaseStats; simpl. rewrite !fold_left_add.
  induction rows as [|r rows IH]; simpl; [reflexivity|].
  assert (E : total r = pass r + fail r) by (apply H; now left).
  assert (IH' : Num.sum (List.map (fun r => if total r =? 0 then pass r + fail r
                                            else total r) rows)
                = Num.sum (List.map pass rows) + Num.sum (List.map fail rows)).
  { pose proof (IH (fun r Hr => H r (or_intror Hr))) as X. lia. }
  rewrite IH'. destruct (total r =? 0); lia.
Qed.

Lemma case_totals_are_consistent_witness :
  cs_total (aggregateCaseStats [mkRow "Billing" "Invoices" "Get Invoice" 3 2 5 None None])
  = cs_pass (aggregateCaseStats [mkRow "Billing" "Invoices" "Get Invoice" 3 2 5 None None])
    + cs_fail (aggregateCaseStats [mkRow "Billing" "Invoices" "Get Invoice" 3 2 5 None None]).
Proof.
  apply (case_totals_are_consistent
           [mkRow "Billing" "Invoices" "Get Invoice" 3 2 5 None None]).
  intros r [<-|[]]. reflexivity.
Defined.

(** *** The keys of the rows *)

Lemma bar_split (a a' b b' : string) :
  Terms.has_char "|" a = false -> Terms.has_char "|" a' = false ->
  a ++ String "|" b = a' ++ String "|" b' -> a = a' /\ b = b'.
Proof.
  revert a'. induction a as [|c a IH]; intros [|c' a'] Ha Ha' E; simpl in *.
  - inversion E. now split.
  - inversion E. subst c'. rewrite Ascii.eqb_refl in Ha'. discriminate.
  - inversion E. subst c. rewrite Ascii.eqb_refl in Ha. discriminate.
  - inversion E. subst c'. apply orb_false_iff in Ha, Ha'.
    destruct (IH a' (proj2 Ha) (proj2 Ha') H1) as [-> ->]. now split.
Qed.

(** Two rows share a key only when they agree on the parent, the module
    and the API, provided the parents and the modules hold no vertical bar
    (the separator of the key); the name of the API may hold any
    character. *)
Theorem keys_tell_rows_apart (r1 r2 : Row) :
  Terms.has_char "|" (parent r1) = false -> Terms.has_char "|" (module r1) = false ->
  Terms.has_char "|" (parent r2) = false -> Terms.has_char "|" (module r2) = false ->
  row_key r1 = row_key r2 ->
  parent r1 = parent r2 /\ module r1 = module r2 /\ api r1 = api r2.
Proof.
  intros P1 M1 P2 M2 E. unfold row_key in E.
  destruct (bar_split _ _ _ _ P1 P2 E) as [Ep E'].
  destruct (bar_split _ _ _ _ M1 M2 E') as [Em Ea].
  now repeat split.
Qed.

Lemma keys_tell_rows_apart_witness :
  parent (mkRow "Billing" "Invoices" "Get|Invoice" 1 0 1 None None)
  = parent (mkRow "Billing" "Invoices" "Get|Invoice" 2 1 3 None None)
  /\ module (mkRow "Billing" "Invoices" "Get|Invoice" 1 0 1 None None)
     = module (mkRow "Billing" "Invoices" "Get|Invoice" 2 1 3 None None)
  /\ api (mkRow "Billing" "Invoices" "Get|Invoice" 1 0 1 None None)
     = api (mkRow "Billing" "Invoices" "Get|Invoice" 2 1 3 None None).
Proof.
  apply (keys_tell_rows_apart
           (mkRow "Billing" "Invoices" "Get|Invoice" 1 0 1 None None)
           (mkRow "Billing" "Invoices" "Get|Invoice" 2 1 3 None None));
    reflexivity.
Defined.

(* ================================================================== *)
(** * Replacements: what [replace] with the flag [g] computes *)

Lemma skipn_length_append (w post : string) :
  Str.skipn (String.length w) (w ++ post) = post.
Proof. induction w as [|c w IH]; simpl; [now destruct post | exact IH]. Qed.

Lemma at_pos_sound (r : regex) (pos : N) (prev : option ascii) (rest : string)
      (m : rmatch_result) :
  at_pos r pos prev rest = Some m ->
  exists w, rest = w ++ after m /\ index m = pos
            /\ stop m = (pos + N.of_nat (String.length w))%N
            /\ last m = prev_after prev w
            /\ accepts r prev w (after m).
Proof.
  unfold at_pos. destruct (rmatch r (MState pos prev rest []) Some) as [st|] eqn:E;
    [|discriminate].
  intro H. injection H as <-. simpl.
  destruct (rmatch_sound _ _ _ _ E) as (w & post & st' & E1 & A & (R1 & R2 & R3) & K).
  injection K as ->. simpl in *. exists w. subst post. repeat split; assumption.
Qed.

Lemma matches_go_head (fuel : nat) (r : regex) (pos : N) (prev : option ascii)
      (rest : string) (m : rmatch_result) (ms : list rmatch_result) :
  matches_go fuel r pos prev rest = m :: ms -> search r pos prev rest = Some m.
Proof.
  destruct fuel as [|f]; simpl; [discriminate|].
  destruct (search r pos prev rest) as [m'|]; [|discriminate].
  destruct (N.eqb (stop m') (index m')); [destruct (after m')|]; congruence.
Qed.

Lemma search_bounds (r : regex) (pos : N) (prev : option ascii) (rest : string)
      (m : rmatch_result) :
  search r pos prev rest = Some m -> (pos <= index m <= stop m)%N.
Proof.
  intro H. destruct (search_found _ _ _ _ _ H) as (pre & rest' & _ & Hat).
  destruct (at_pos_sound _ _ _ _ _ Hat) as (w & _ & Hi & Hs & _). lia.
Qed.

(** No match starts at the first character: the character is kept and the
    scan goes on after it. *)
Lemma splice_skip (r : regex) (rep : string) (c : ascii) (t : string)
      (pos : N) (prev : option ascii) (fuel : nat) :
  at_pos r pos prev (String c t) = None ->
  splice (String c t) pos (matches_go (S fuel) r pos prev (String c t)) rep
  = String c (splice t (N.succ pos) (matches_go (S fuel) r (N.succ pos) (Some c) t) rep).
Proof.
  intro H.
  assert (E : matches_go (S fuel) r pos prev (String c t)
              = matches_go (S fuel) r (N.succ pos) (Some c) t).
  { cbn [matches_go search]. rewrite H. reflexivity. }
  rewrite E. destruct (matches_go (S fuel) r (N.succ pos) (Some c) t) as [|m ms] eqn:M;
    [reflexivity|].
  apply matches_go_head in M. apply search_bounds in M.
  cbn [splice].
  replace (N.to_nat (index m - pos)) with (S (N.to_nat (index m - N.succ pos))) by lia.
  replace (N.to_nat (stop m - pos)) with (S (N.to_nat (stop m - N.succ pos))) by lia.
  reflexivity.
Qed.

(** A match that is not empty starts at the current position: it is
    replaced and the scan goes on where it stopped. *)
Lemma splice_take (r : regex) (rep : string) (rest : string)
      (pos : N) (prev : option ascii) (fuel : nat) (m : rmatch_result) :
  at_pos r pos prev rest = Some m -> stop m <> index m ->
  splice rest pos (matches_go (S fuel) r pos prev rest) rep
  = rep ++ splice (after m) (stop m)
             (matches_go fuel r (stop m) (last m) (after m)) rep.
Proof.
  intros H Hne.
  assert (S0 : search r pos prev rest = Some m).
  { destruct rest; cbn [search]; now rewrite H. }
  destruct (at_pos_sound _ _ _ _ _ H) as (w & Er & Hi & Hs & _).
  cbn [matches_go]. rewrite S0.
  destruct (N.eqb (stop m) (index m)) eqn:E; [apply N.eqb_eq in E; contradiction|].
  cbn [splice].
  replace (N.to_nat (index m - pos)) with O by lia.
  replace (N.to_nat (stop m - pos)) with (String.length w) by lia.
  rewrite Er at 1 2. rewrite skipn_length_append. simpl. reflexivity.
Qed.

Lemma splice_end (r : regex) (rep : string) (pos : N) (prev : option ascii)
      (fuel : nat) :
  at_pos r pos prev "" = None ->
  splice "" pos (matches_go fuel r pos prev "") rep = "".
Proof.
  intro H. destruct fuel; [reflexivity|]. cbn [matches_go search]. now rewrite H.
Qed.

(** *** One character at a time *)

Lemma replace_all_chr_go (p : ascii -> bool) (rep : string) (rest : string) :
  forall pos prev fuel,
    (String.length rest < fuel)%nat ->
    splice rest pos (matches_go fuel (Chr p) pos prev rest) rep
    = Terms.subst p rep rest.
Proof.
  induction rest as [|c t IH]; intros pos prev fuel Hf.
  - apply splice_end. reflexivity.
  - destruct fuel as [|fuel]; [simpl in Hf; lia|]. simpl in Hf.
    destruct (p c) eqn:P.
    + rewrite (splice_take _ _ _ _ _ _ (Match pos (N.succ pos) (Some c) t [])).
      * cbn [Terms.subst after stop last]. rewrite P. f_equal. apply IH. lia.
      * unfold at_pos. cbn. rewrite P. reflexivity.
      * simpl. lia.
    + rewrite splice_skip.
      * cbn [Terms.subst]. rewrite P. cbn [append]. f_equal. apply IH. lia.
      * unfold at_pos. cbn. rewrite P. reflexivity.
Qed.

Lemma replace_all_chr (p : ascii -> bool) (rep s : string) :
  replace_all (Chr p) rep s = Terms.subst p rep s.
Proof. unfold replace_all, matches. apply replace_all_chr_go. lia. Qed.

Lemma subst_app (p : ascii -> bool) (rep a b : string) :
  Terms.subst p rep (a ++ b) = Terms.subst p rep a ++ Terms.subst p rep b.
Proof.
  induction a as [|c a IH]; simpl; [reflexivity|].
  rewrite IH. now rewrite append_assoc.
Qed.

Lemma has_char_app (c : ascii) (a b : string) :
  Terms.has_char c (a ++ b) = (Terms.has_char c a || Terms.has_char c b)%bool.
Proof.
  induction a as [|d a IH]; simpl; [reflexivity|]. rewrite IH. apply orb_assoc.
Qed.

(** ** Escaped text *)

Lemma esc_app (a b : string) : esc (a ++ b) = esc a ++ esc b.
Proof.
  unfold esc, replace_char. rewrite !replace_all_chr.
  rewrite (subst_app _ _ a b). do 4 rewrite subst_app. reflexivity.
Qed.

Lemma esc_one (c : ascii) : esc (String c "") = Terms.entity c.
Proof. destruct c as [[] [] [] [] [] [] [] []]; vm_compute; reflexivity. Qed.

Lemma esc_cons (c : ascii) (t : string) : esc (String c t) = Terms.entity c ++ esc t.
Proof. change (String c t) with (String c "" ++ t). now rewrite esc_app, esc_one. Qed.

Lemma esc_nil : esc "" = "".
Proof. reflexivity. Qed.

Lemma entity_cases (c : ascii) :
  (In c Terms.special /\ exists d t, Terms.entity c = String "&" (String d t)
                                    /\ Terms.has_char d "alq#g" = true
                                    /\ (forall c' t', In c' Terms.special ->
                                                   Terms.entity c' = String "&" (String d t') ->
                                                   c' = c))
  \/ (~ In c Terms.special /\ Terms.entity c = String c "").
Proof.
  unfold Terms.entity.
  destruct (Ascii.eqb_spec c "&") as [->|N1].
  { left. split; [simpl; tauto|]. eexists _, _. split; [reflexivity|]. split; [reflexivity|].
    intros c' t' [<-|[<-|[<-|[<-|[<-|[]]]]]]; vm_compute; congruence. }
  destruct (Ascii.eqb_spec c "<") as [->|N2].
  { left. split; [simpl; tauto|]. eexists _, _. split; [reflexivity|]. split; [reflexivity|].
    intros c' t' [<-|[<-|[<-|[<-|[<-|[]]]]]]; vm_compute; congruence. }
  destruct (Ascii.eqb_spec c ">") as [->|N3].
  { left. split; [simpl; tauto|]. eexists _, _. split; [reflexivity|]. split; [reflexivity|].
    intros c' t' [<-|[<-|[<-|[<-|[<-|[]]]]]]; vm_compute; congruence. }
  destruct (Ascii.eqb_spec c Str.dquote) as [->|N4].
  { left. split; [simpl; tauto|]. eexists _, _. split; [reflexivity|]. split; [reflexivity|].
    intros c' t' [<-|[<-|[<-|[<-|[<-|[]]]]]]; vm_compute; congruence. }
  destruct (Ascii.eqb_spec c "'") as [->|N5].
  { left. split; [simpl; tauto|]. eexists _, _. split; [reflexivity|]. split; [reflexivity|].
    intros c' t' [<-|[<-|[<-|[<-|[<-|[]]]]]]; vm_compute; congruence. }
  right. split; [|reflexivity].
  intros [<-|[<-|[<-|[<-|[<-|[]]]]]]; congruence.
Qed.

Lemma entity_free (c d : ascii) :
  In d ["<"; ">"; Str.dquote; "'"]%char -> Terms.has_char d (Terms.entity c) = false.
Proof.
  intro Hd. unfold Terms.entity.
  destruct (Ascii.eqb_spec c "&") as [->|N1];
    [destruct Hd as [<-|[<-|[<-|[<-|[]]]]]; reflexivity|].
  destruct (Ascii.eqb_spec c "<") as [->|N2];
    [destruct Hd as [<-|[<-|[<-|[<-|[]]]]]; reflexivity|].
  destruct (Ascii.eqb_spec c ">") as [->|N3];
    [destruct Hd as [<-|[<-|[<-|[<-|[]]]]]; reflexivity|].
  destruct (Ascii.eqb_spec c Str.dquote) as [->|N4];
    [destruct Hd as [<-|[<-|[<-|[<-|[]]]]]; reflexivity|].
  destruct (Ascii.eqb_spec c "'") as [->|N5];
    [destruct Hd as [<-|[<-|[<-|[<-|[]]]]]; reflexivity|].
  simpl. rewrite orb_false_r. apply Ascii.eqb_neq.
  destruct Hd as [<-|[<-|[<-|[<-|[]]]]]; assumption.
Qed.

Lemma esc_free (s : string) (d : ascii) :
  In d ["<"; ">"; Str.dquote; "'"]%char -> Terms.has_char d (esc s) = false.
Proof.
  intro Hd. induction s as [|c s IH]; [rewrite esc_nil; reflexivity|].
  rewrite esc_cons, has_char_app, IH, (entity_free c d Hd). reflexivity.
Qed.

(** Escaped text holds no character that could open or close a tag or an
    attribute: whatever the text, [esc] returns a text without [<], [>],
    double quote and single quote.  It treats a text piece by piece: the
    escape of two texts put together is their escapes put together. *)
Theorem esc_leaves_no_markup (s : string) :
  (forall d, In d ["<"; ">"; Str.dquote; "'"]%char -> Terms.has_char d (esc s) = false)
  /\ forall t, esc (s ++ t) = esc s ++ esc t.
Proof. split; [apply esc_free | intro t; apply esc_app]. Qed.

Lemma length_esc (s : string) : (String.length s <= String.length (esc s))%nat.
Proof.
  induction s as [|c s IH]; [rewrite esc_nil; simpl; lia|].
  rewrite esc_cons, length_append. cbn [String.length].
  destruct (entity_cases c) as [(_ & d & t & E & _)|(_ & E)]; rewrite E;
    cbn [String.length]; lia.
Qed.

(** [esc] returns a text unchanged exactly when the text holds none of the
    five characters it rewrites (the ampersand, the two angle brackets and
    the two quotes). *)
Theorem esc_keeps_plain_text (s : string) :
  esc s = s <-> forall c, In c Terms.special -> Terms.has_char c s = false.
Proof.
  induction s as [|c s IH]; [rewrite esc_nil; split; reflexivity|].
  rewrite esc_cons. split.
  - intros E c' Hc'.
    destruct (entity_cases c) as [(_ & d & t & Ee & _)|(Hn & Ee)]; rewrite Ee in E.
    + exfalso. cbn [append] in E. injection E as _ E.
      pose proof (length_esc s) as L. apply (f_equal String.length) in E.
      cbn [String.length] in E. rewrite length_append in E. lia.
    + cbn [append] in E. injection E as E. cbn [Terms.has_char].
      rewrite (proj1 IH E c' Hc'), orb_false_r. apply Ascii.eqb_neq. congruence.
  - intro H.
    destruct (entity_cases c) as [(Hs & _)|(Hn & Ee)].
    + specialize (H c Hs). cbn [Terms.has_char] in H.
      rewrite Ascii.eqb_refl in H. discriminate.
    + rewrite Ee. cbn [append]. f_equal. apply IH. intros c' Hc'. specialize (H c' Hc').
      cbn [Terms.has_char] in H. now apply orb_false_iff in H.
Qed.

Lemma append_inj_l (a b c : string) : a ++ b = a ++ c -> b = c.
Proof. induction a as [|x a IH]; simpl; [auto|]. intro H. injection H as H. auto. Qed.

(** [esc] never gives two different texts the same escape. *)
Theorem esc_is_injective (a b : string) : esc a = esc b -> a = b.
Proof.
  revert b. induction a as [|c a IH]; intros [|d b] E.
  - reflexivity.
  - rewrite esc_cons, esc_nil in E.
    destruct (entity_cases d) as [(_ & x & t & Ee & _)|(_ & Ee)]; rewrite Ee in E;
      discriminate.
  - rewrite esc_cons, esc_nil in E.
    destruct (entity_cases c) as [(_ & x & t & Ee & _)|(_ & Ee)]; rewrite Ee in E;
      discriminate.
  - rewrite !esc_cons in E.
    destruct (entity_cases c) as [(Hc & x & t & Ec & Hx & Uc)|(Hc & Ec)];
      destruct (entity_cases d) as [(Hd & y & u & Ed & Hy & Ud)|(Hd & Ed)].
    + assert (X : x = y).
      { rewrite Ec, Ed in E. cbn [append] in E. now injection E. }
      subst y. assert (d = c) by (apply (Uc d u); assumption). subst d.
      f_equal. apply IH. now apply append_inj_l in E.
    + rewrite Ec, Ed in E. cbn [append] in E. injection E as E _. subst d.
      elim Hd. simpl; tauto.
    + rewrite Ec, Ed in E. cbn [append] in E. injection E as E _. subst c.
      elim Hc. simpl; tauto.
    + rewrite Ec, Ed in E. cbn [append] in E. injection E as -> E. f_equal. now apply IH.
Qed.

Lemma esc_is_injective_witness : "Pay & Go" = "Pay & Go".
Proof. apply (esc_is_injective "Pay & Go" "Pay & Go"). reflexivity. Defined.

(** ** Trimmed text and display names *)

Lemma rev_append_app (s : string) :
  forall acc, Str.rev_append s acc = Str.rev_append s "" ++ acc.
Proof.
  induction s as [|c s IH]; intro acc; simpl; [reflexivity|].
  rewrite IH, (IH (String c "")), append_assoc. reflexivity.
Qed.

Lemma rev_cons (c : ascii) (s : string) : Str.rev (String c s) = Str.rev s ++ String c "".
Proof. unfold Str.rev. simpl. apply rev_append_app. Qed.

Lemma rev_app (a b : string) : Str.rev (a ++ b) = Str.rev b ++ Str.rev a.
Proof.
  induction a as [|c a IH]; simpl.
  - now rewrite append_nil_r.
  - now rewrite !rev_cons, IH, append_assoc.
Qed.

Lemma rev_involutive (s : string) : Str.rev (Str.rev s) = s.
Proof.
  induction s as [|c s IH]; [reflexivity|].
  rewrite rev_cons, rev_app, IH. reflexivity.
Qed.

Lemma has_char_rev (c : ascii) (s : string) :
  Terms.has_char c (Str.rev s) = Terms.has_char c s.
Proof.
  induction s as [|d s IH]; [reflexivity|].
  rewrite rev_cons, has_char_app, IH. simpl. rewrite orb_false_r. apply orb_comm.
Qed.

Lemma trimStart_idem (s : string) : Str.trimStart (Str.trimStart s) = Str.trimStart s.
Proof.
  induction s as [|c s IH]; [reflexivity|]. simpl.
  destruct (Str.is_space c) eqn:E; [exact IH|]. simpl. now rewrite E.
Qed.

Lemma has_char_trimStart (c : ascii) (s : string) :
  Terms.has_char c (Str.trimStart s) = true -> Terms.has_char c s = true.
Proof.
  induction s as [|d s IH]; simpl; [auto|].
  destruct (Str.is_space d); [|auto]. intro H. rewrite (IH H). apply orb_true_r.
Qed.

Lemma has_char_trim (c : ascii) (s : string) :
  Terms.has_char c (Str.trim s) = true -> Terms.has_char c s = true.
Proof.
  unfold Str.trim, Str.trimEnd. rewrite has_char_rev. intro H.
  apply has_char_trimStart in H. rewrite has_char_rev in H.
  now apply has_char_trimStart.
Qed.

Lemma trimStart_app (a b : string) :
  Str.trimStart (a ++ b)
  = if Str.is_empty (Str.trimStart a) then Str.trimStart b else Str.trimStart a ++ b.
Proof.
  induction a as [|c a IH]; simpl; [reflexivity|].
  destruct (Str.is_space c); [exact IH | reflexivity].
Qed.

Lemma trimEnd_idem (s : string) : Str.trimEnd (Str.trimEnd s) = Str.trimEnd s.
Proof. unfold Str.trimEnd. now rewrite rev_involutive, trimStart_idem. Qed.

Lemma trimEnd_cons (c : ascii) (s : string) :
  Str.is_space c = false -> Str.trimEnd (String c s) = String c (Str.trimEnd s).
Proof.
  intro H. unfold Str.trimEnd. rewrite rev_cons, trimStart_app.
  destruct (Str.trimStart (Str.rev s)) eqn:E; cbn [Str.is_empty].
  - simpl. now rewrite H.
  - rewrite rev_app. reflexivity.
Qed.

Lemma trimStart_trimEnd (s : string) :
  Str.trimStart s = s -> Str.trimStart (Str.trimEnd s) = Str.trimEnd s.
Proof.
  destruct s as [|c s]; [reflexivity|]. simpl.
  destruct (Str.is_space c) eqn:E.
  - intro H. exfalso.
    assert (L : forall t, (String.length (Str.trimStart t) <= String.length t)%nat).
    { induction t as [|d t IH]; simpl; [lia|]. destruct (Str.is_space d); simpl; lia. }
    specialize (L s). rewrite H in L. simpl in L. lia.
  - intros _. rewrite (trimEnd_cons c s E). simpl. now rewrite E.
Qed.

Lemma trim_idem (s : string) : Str.trim (Str.trim s) = Str.trim s.
Proof.
  unfold Str.trim. rewrite (trimStart_trimEnd (Str.trimStart s) (trimStart_idem s)).
  apply trimEnd_idem.
Qed.

Lemma subst_no_char (c : ascii) (rep s : string) :
  Terms.has_char c rep = false ->
  Terms.has_char c (Terms.subst (only c) rep s) = false.
Proof.
  intro H. induction s as [|d s IH]; [reflexivity|].
  cbn [Terms.subst]. rewrite has_char_app, IH, orb_false_r.
  unfold only. destruct (Ascii.eqb_spec c d) as [->|N]; [exact H|].
  simpl. rewrite orb_false_r. apply Ascii.eqb_neq. congruence.
Qed.

Lemma subst_identity (c : ascii) (rep s : string) :
  Terms.has_char c s = false -> Terms.subst (only c) rep s = s.
Proof.
  induction s as [|d s IH]; [reflexivity|]. cbn [Terms.subst Terms.has_char].
  intro H. apply orb_false_iff in H. destruct H as [H1 H2].
  change (only c d) with (Ascii.eqb c d). rewrite Ascii.eqb_sym, H1. cbn [append].
  now rewrite IH.
Qed.

Lemma is_empty_spec (s : string) : Str.is_empty s = true <-> s = "".
Proof. destruct s; simpl; split; congruence. Qed.

Lemma pretty_clean (s : string) :
  pretty s <> ""
  /\ Str.trim (pretty s) = pretty s
  /\ Terms.has_char "_" (pretty s) = false.
Proof.
  unfold pretty.
  match goal with |- context [Str.trim ?x] => set (t := x) end.
  destruct (Str.is_empty (Str.trim t)) eqn:E.
  - split; [discriminate|]. split; reflexivity.
  - split; [|split].
    + intro H. rewrite H in E. discriminate.
    + apply trim_idem.
    + destruct (Terms.has_char "_" (Str.trim t)) eqn:H; [|reflexivity].
      apply has_char_trim in H. unfold t in H. rewrite replace_all_chr in H.
      rewrite subst_no_char in H; [discriminate | reflexivity].
Qed.

Lemma lit_has_chars (w : string) :
  forall prev m post, accepts (lit w) prev m post -> m = w.
Proof.
  induction w as [|c w IH]; intros prev m post H; cbn [lit] in H.
  - now apply accepts_eps in H.
  - apply accepts_seq in H. destruct H as (m1 & m2 & -> & A & B).
    apply accepts_chr in A. destruct A as (d & -> & Hd).
    unfold only in Hd. apply Ascii.eqb_eq in Hd. subst d.
    simpl. f_equal. eapply IH. exact B.
Qed.

Lemma search_none (r : regex) (s : string) :
  (forall pre w post prev, s = pre ++ w ++ post -> ~ accepts r prev w post) ->
  forall pos prev, search r pos prev s = None.
Proof.
  intros H pos prev. destruct (search r pos prev s) as [m|] eqn:E; [|reflexivity].
  exfalso. destruct (search_found _ _ _ _ _ E) as (pre & rest & -> & Hat).
  destruct (at_pos_sound _ _ _ _ _ Hat) as (w & -> & _ & _ & _ & A).
  exact (H pre w (after m) _ eq_refl A).
Qed.

Lemma pretty_of_clean (s : string) :
  s <> "" -> Str.trim s = s -> Terms.has_char "_" s = false -> pretty s = s.
Proof.
  intros Hne Ht Hu. unfold pretty.
  assert (F : replace_first
                (seq [Bol; lit "SC_"; Plus true (Chr Str.is_digit); Chr (only "_")])
                "" s = s).
  { unfold replace_first, exec. rewrite search_none; [reflexivity|].
    intros pre w post prev -> A. cbn [seq] in A.
    apply accepts_seq in A. destruct A as (m1 & m2 & -> & _ & A).
    apply accepts_seq in A. destruct A as (m3 & m4 & -> & A & _).
    apply lit_has_chars in A. subst m3.
    rewrite !has_char_app in Hu. simpl in Hu.
    repeat rewrite ?orb_true_r, ?orb_true_l in Hu. discriminate. }
  rewrite F, replace_all_chr, (subst_identity "_" " " s Hu), Ht.
  destruct s; [now elim Hne | reflexivity].
Qed.

(** A display name is never empty, has no white space at either end and
    holds no underscore; making a display name of a display name changes
    nothing more. *)
Theorem display_names_are_clean (s : string) :
  pretty s <> ""
  /\ Str.trim (pretty s) = pretty s
  /\ Terms.has_char "_" (pretty s) = false
  /\ pretty (pretty s) = pretty s.
Proof.
  destruct (pretty_clean s) as (A & B & C). repeat split; try assumption.
  now apply pretty_of_clean.
Qed.

(** A name that is not empty, has no white space at either end and holds
    no underscore is its own display name. *)
Theorem display_name_of_a_clean_name (s : string) :
  s <> "" -> Str.trim s = s -> Terms.has_char "_" s = false -> pretty s = s.
Proof. apply pretty_of_clean. Qed.

Lemma display_name_of_a_clean_name_witness : pretty "Get Invoice" = "Get Invoice".
Proof.
  apply (display_name_of_a_clean_name "Get Invoice"); [discriminate | reflexivity | reflexivity].
Defined.

(** The clean-up the aggregator applies to the names of a registry it
    reads (each name trimmed, the empty ones dropped) leaves the registry
    of a suite as the builder computed it. *)
Theorem registry_survives_the_cleanup (tcs : list TestCase) :
  filter nonempty (List.map Str.trim (Builder.suiteApiSet tcs)) = Builder.suiteApiSet tcs.
Proof.
  assert (H : forall n, In n (Builder.suiteApiSet tcs) -> n <> "" /\ Str.trim n = n).
  { intros n Hn. unfold Builder.suiteApiSet in Hn.
    apply (In_fold_set_add (fun tc => pretty (Builder.api_key tc))) in Hn.
    destruct Hn as [[]|(tc & _ & <-)].
    destruct (pretty_clean (Builder.api_key tc)) as (A & B & _). now split. }
  induction (Builder.suiteApiSet tcs) as [|n l IH]; [reflexivity|].
  destruct (H n (or_introl eq_refl)) as [Hn Ht].
  cbn [List.map filter]. rewrite Ht.
  replace (nonempty n) with true by (symmetry; now apply nonempty_spec).
  f_equal. apply IH. intros x Hx. apply H. now right.
Qed.

(** ** The folder of a request *)

Lemma split_go_head (c : ascii) (s : string) :
  forall cur, hd_error (Str.split_go c s cur) = Some (Str.rev cur ++ Terms.before c s).
Proof.
  induction s as [|x s IH]; intro cur; simpl.
  - now rewrite append_nil_r.
  - destruct (Ascii.eqb x c); simpl.
    + now rewrite append_nil_r.
    + rewrite IH, rev_cons, append_assoc. reflexivity.
Qed.

Lemma has_char_before (c : ascii) (s : string) :
  Terms.has_char c (Terms.before c s) = false.
Proof.
  induction s as [|x s IH]; simpl; [reflexivity|].
  destruct (Ascii.eqb x c) eqn:E; simpl; [reflexivity|]. now rewrite E, IH.
Qed.

Section Folder_of_a_request.

Variables Request Payload : Type.
Variable snapshotRequest : option Request -> string.
Variable snapshotResponse : option (RawResponse Payload) -> string.

#[local] Abbreviation Execution := (RawExecution Request Payload).
#[local] Abbreviation normal := (normalize snapshotRequest snapshotResponse).

(** The folder and the API of a test case.  The API is the name of the
    request, or [Request] for an entry without a name.  The folder is the
    part of that name before its first slash, or [Ungrouped] when the name
    starts with a slash; it is never empty and holds no slash. *)
Theorem folder_is_the_first_segment (ex : option Execution) :
  Builder.api_key (normal ex) = item_name_of ex
  /\ item_name_of ex <> ""
  /\ group_key (normal ex)
     = (if Str.is_empty (Terms.before "/" (item_name_of ex)) then "Ungrouped"
        else Terms.before "/" (item_name_of ex))
  /\ group_key (normal ex) <> ""
  /\ Terms.has_char "/" (group_key (normal ex)) = false.
Proof.
  assert (N : item_name_of ex <> "").
  { unfold item_name_of. apply or_else_nonempty. discriminate. }
  assert (G : group_key (normal ex)
              = if Str.is_empty (Terms.before "/" (item_name_of ex)) then "Ungrouped"
                else Terms.before "/" (item_name_of ex)).
  { unfold group_key, normalize; simpl. unfold Str.split. rewrite split_go_head.
    simpl. destruct (Terms.before "/" (item_name_of ex)); reflexivity. }
  split; [|split; [exact N|split; [exact G|]]].
  - unfold Builder.api_key, normalize; simpl.
    destruct (item_name_of ex); [now elim N | reflexivity].
  - rewrite G. destruct (Terms.before "/" (item_name_of ex)) eqn:E; cbn [Str.is_empty].
    + split; [discriminate | reflexivity].
    + split; [discriminate|]. rewrite <- E. apply has_char_before.
Qed.

End Folder_of_a_request.

(** ** Runs of characters: the greedy star of a class *)

Lemma star_loop_greedy_eq (ma : mstate -> (mstate -> option mstate) -> option mstate)
      (k : mstate -> option mstate) (a : ascii) (f : string) (st : mstate) :
  star_loop ma true k (String a f) st
  = match ma st (fun st1 => if N.eqb (m_pos st1) (m_pos st)
                            then None else star_loop ma true k f st1) with
    | Some x => Some x
    | None => k st
    end.
Proof. reflexivity. Qed.

Lemma rmatch_chr_eq (p : ascii -> bool) (st : mstate) (k : mstate -> option mstate) :
  rmatch (Chr p) st k
  = match m_rest st with
    | String c t => if p c then k (advance st c t) else None
    | EmptyString => None
    end.
Proof. reflexivity. Qed.

Lemma rmatch_seq_eq (a b : regex) (st : mstate) (k : mstate -> option mstate) :
  rmatch (Seq a b) st k = rmatch a st (fun st1 => rmatch b st1 k).
Proof. reflexivity. Qed.

Lemma rmatch_star_eq (g : bool) (a : regex) (st : mstate) (k : mstate -> option mstate) :
  rmatch (Star g a) st k = star_loop (rmatch a) g k (String " " (m_rest st)) st.
Proof. reflexivity. Qed.

Lemma rmatch_group_eq (n : nat) (a : regex) (st : mstate) (k : mstate -> option mstate) :
  rmatch (Group n a) st k
  = rmatch a st (fun st1 => k (set_cap n (Capture (m_rest st) (m_pos st1 - m_pos st)) st1)).
Proof. reflexivity. Qed.

(** The greedy star of a class reads the whole run of the class, when what
    follows the star accepts the text after the run. *)
Lemma star_greedy_run (p : ascii -> bool) (k : mstate -> option mstate) (x : mstate)
      (rest' : string) (caps : list (nat * capture)) :
  Terms.run_of p rest' = "" ->
  forall run pos prev fuel,
    Terms.all_in p run = true ->
    (String.length run < String.length fuel)%nat ->
    k (MState (pos + N.of_nat (String.length run)) (prev_after prev run) rest' caps)
    = Some x ->
    star_loop (rmatch (Chr p)) true k fuel (MState pos prev (run ++ rest') caps) = Some x.
Proof.
  intros B run. induction run as [|c r IH]; intros pos prev fuel A L K.
  - destruct fuel as [|a f]; [simpl in L; lia|].
    rewrite star_loop_greedy_eq, rmatch_chr_eq. cbn [m_rest append].
    cbn [String.length N.of_nat prev_after] in K. rewrite N.add_0_r in K.
    destruct rest' as [|d t]; [now rewrite K|].
    cbn [Terms.run_of] in B. destruct (p d); [discriminate|]. now rewrite K.
  - destruct fuel as [|a f]; [simpl in L; lia|].
    cbn [Terms.all_in] in A. apply andb_true_iff in A. destruct A as [Pc A].
    rewrite star_loop_greedy_eq, rmatch_chr_eq. cbn [m_rest append]. rewrite Pc.
    unfold advance. cbn [m_pos m_prev m_caps].
    replace (N.eqb (N.succ pos) pos) with false by (symmetry; apply N.eqb_neq; lia).
    rewrite (IH (N.succ pos) (Some c) f A); [reflexivity | simpl in L; lia |].
    rewrite <- K. cbn [prev_after String.length]. f_equal. f_equal. lia.
Qed.

Lemma run_split (p : ascii -> bool) (s : string) :
  s = Terms.run_of p s ++ Terms.after_run p s
  /\ Terms.all_in p (Terms.run_of p s) = true
  /\ Terms.run_of p (Terms.after_run p s) = ""
  /\ (String.length (Terms.after_run p s) <= String.length s)%nat.
Proof.
  induction s as [|c s (E & A & B & L)]; [repeat split; simpl; lia|].
  cbn [Terms.run_of Terms.after_run]. destruct (p c) eqn:P.
  - cbn [append Terms.all_in String.length]. rewrite P, A. repeat split; try assumption.
    + now rewrite <- E.
    + lia.
  - cbn [append Terms.all_in Terms.run_of String.length]. rewrite P.
    repeat split; lia.
Qed.

Lemma at_pos_plus (p : ascii -> bool) (c : ascii) (t : string) (pos : N)
      (prev : option ascii) :
  p c = true ->
  at_pos (Plus true (Chr p)) pos prev (String c t)
  = Some (Match pos (N.succ pos + N.of_nat (String.length (Terms.run_of p t)))
                (prev_after (Some c) (Terms.run_of p t)) (Terms.after_run p t) []).
Proof.
  intro P. destruct (run_split p t) as (E & A & B & _).
  unfold at_pos, Plus. rewrite rmatch_seq_eq, rmatch_chr_eq. cbn [m_rest]. rewrite P.
  rewrite rmatch_star_eq. unfold advance. cbn [m_pos m_prev m_caps m_rest].
  rewrite E at 1 2.
  rewrite (star_greedy_run p Some
             (MState (N.succ pos + N.of_nat (String.length (Terms.run_of p t)))
                     (prev_after (Some c) (Terms.run_of p t)) (Terms.after_run p t) [])
             (Terms.after_run p t) [] B (Terms.run_of p t) (N.succ pos) (Some c)).
  - reflexivity.
  - exact A.
  - cbn [String.length]. rewrite length_append. lia.
  - reflexivity.
Qed.

Lemma at_pos_plus_none (p : ascii -> bool) (rest : string) (pos : N)
      (prev : option ascii) :
  Terms.run_of p rest = "" -> at_pos (Plus true (Chr p)) pos prev rest = None.
Proof.
  intro B. unfold at_pos, Plus. rewrite rmatch_seq_eq, rmatch_chr_eq. cbn [m_rest].
  destruct rest as [|c t]; [reflexivity|].
  cbn [Terms.run_of] in B. destruct (p c); [discriminate | reflexivity].
Qed.

Lemma squeeze_inside (p : ascii -> bool) (rep s : string) :
  Terms.squeeze p rep true s = Terms.squeeze p rep false (Terms.after_run p s).
Proof.
  induction s as [|c s IH]; [reflexivity|].
  cbn [Terms.squeeze Terms.after_run]. destruct (p c) eqn:P; [exact IH|].
  cbn [Terms.squeeze]. now rewrite P.
Qed.

Lemma replace_all_plus_go (p : ascii -> bool) (rep : string) (n : nat) :
  forall rest pos prev fuel,
    (String.length rest <= n)%nat -> (String.length rest < fuel)%nat ->
    splice rest pos (matches_go fuel (Plus true (Chr p)) pos prev rest) rep
    = Terms.squeeze p rep false rest.
Proof.
  induction n as [|n IH]; intros rest pos prev fuel Hn Hf.
  - destruct rest; [|simpl in Hn; lia]. apply splice_end. reflexivity.
  - destruct rest as [|c t]; [apply splice_end; reflexivity|].
    destruct fuel as [|fuel]; [simpl in Hf; lia|]. simpl in Hn, Hf.
    cbn [Terms.squeeze]. destruct (p c) eqn:P.
    + rewrite (splice_take _ _ _ _ _ _ _ (at_pos_plus p c t pos prev P)).
      * cbn [after stop last]. f_equal. rewrite squeeze_inside.
        destruct (run_split p t) as (_ & _ & _ & L). apply IH; lia.
      * cbn [stop index]. lia.
    + rewrite splice_skip.
      * f_equal. apply IH; lia.
      * apply at_pos_plus_none. cbn [Terms.run_of]. now rewrite P.
Qed.

Lemma replace_all_plus (p : ascii -> bool) (rep s : string) :
  replace_all (Plus true (Chr p)) rep s = Terms.squeeze p rep false s.
Proof.
  unfold replace_all, matches. apply (replace_all_plus_go p rep (String.length s)); lia.
Qed.

(** ** Identifiers *)

#[local] Abbreviation ends_re :=
  (Group 1 (Alt (Seq Bol (Chr (only "-"))) (Seq (Chr (only "-")) Eol))).

Section Ends.

Variable p : ascii -> bool.

#[local] Abbreviation ends_of := (Group 1 (Alt (Seq Bol (Chr p)) (Seq (Chr p) Eol))).

Lemma ends_of_start (d : ascii) (t : string) (pos : N) :
  p d = true ->
  exists m, at_pos ends_of pos None (String d t) = Some m
            /\ index m = pos /\ stop m = N.succ pos /\ last m = Some d
            /\ after m = t.
Proof.
  intro H. eexists. unfold at_pos. cbn. rewrite H. split; [reflexivity|].
  now repeat split.
Qed.

Lemma ends_of_end (d : ascii) (pos : N) (prev : ascii) :
  p d = true ->
  exists m, at_pos ends_of pos (Some prev) (String d "") = Some m
            /\ index m = pos /\ stop m = N.succ pos /\ last m = Some d
            /\ after m = "".
Proof.
  intro H. eexists. unfold at_pos. cbn. rewrite H. split; [reflexivity|].
  now repeat split.
Qed.

Lemma ends_of_inside (d e : ascii) (u : string) (pos : N) (prev : ascii) :
  at_pos ends_of pos (Some prev) (String d (String e u)) = None.
Proof. unfold at_pos. cbn. destruct (p d); reflexivity. Qed.

Lemma ends_of_other (d : ascii) (t : string) (pos : N) (prev : option ascii) :
  p d = false -> at_pos ends_of pos prev (String d t) = None.
Proof. intro H. unfold at_pos. cbn. rewrite H. destruct prev; reflexivity. Qed.

Lemma ends_of_empty (pos : N) (prev : option ascii) : at_pos ends_of pos prev "" = None.
Proof. unfold at_pos. cbn. destruct prev; reflexivity. Qed.

End Ends.

Lemma only_eqb (c d : ascii) : only c d = Ascii.eqb d c.
Proof. unfold only. apply Ascii.eqb_sym. Qed.

Lemma ends_at_start (t : string) (pos : N) :
  exists m, at_pos ends_re pos None (String "-" t) = Some m
            /\ index m = pos /\ stop m = N.succ pos /\ last m = Some "-"%char
            /\ after m = t.
Proof. apply (ends_of_start (only "-")). reflexivity. Qed.

Lemma ends_at_end (pos : N) (prev : ascii) :
  exists m, at_pos ends_re pos (Some prev) (String "-" "") = Some m
            /\ index m = pos /\ stop m = N.succ pos /\ last m = Some "-"%char
            /\ after m = "".
Proof. apply (ends_of_end (only "-")). reflexivity. Qed.

Lemma ends_not_inside (d e : ascii) (u : string) (pos : N) (prev : ascii) :
  at_pos ends_re pos (Some prev) (String d (String e u)) = None.
Proof. apply (ends_of_inside (only "-")). Qed.

Lemma ends_not_other (d : ascii) (t : string) (pos : N) (prev : option ascii) :
  Ascii.eqb d "-" = false -> at_pos ends_re pos prev (String d t) = None.
Proof. intro H. apply (ends_of_other (only "-")). now rewrite only_eqb. Qed.

Lemma ends_not_empty (pos : N) (prev : option ascii) : at_pos ends_re pos prev "" = None.
Proof. apply (ends_of_empty (only "-")). Qed.

Lemma strip_after (rest : string) :
  forall pos prev fuel,
    (String.length rest < fuel)%nat ->
    splice rest pos (matches_go fuel ends_re pos (Some prev) rest) ""
    = Terms.drop_last "-" rest.
Proof.
  induction rest as [|d t IH]; intros pos prev fuel Hf.
  - apply splice_end, ends_not_empty.
  - destruct fuel as [|fuel]; [simpl in Hf; lia|]. simpl in Hf.
    destruct t as [|e u].
    + cbn [Terms.drop_last]. destruct (Ascii.eqb d "-") eqn:E.
      * apply Ascii.eqb_eq in E. subst d.
        destruct (ends_at_end pos prev) as (m & Hm & Hi & Hs & Hl & Ha).
        rewrite (splice_take _ _ _ _ _ _ m Hm) by (rewrite Hi, Hs; lia).
        rewrite Ha, Hl. cbn [append]. apply splice_end, ends_not_empty.
      * rewrite splice_skip by (now apply ends_not_other).
        f_equal; try (apply splice_end; apply ends_not_empty).
    + rewrite splice_skip by apply ends_not_inside.
      change (Terms.drop_last "-" (String d (String e u)))
        with (String d (Terms.drop_last "-" (String e u))).
      f_equal. apply IH. simpl in *. lia.
Qed.

Lemma strip_ends (s : string) :
  replace_all ends_re "" s = Terms.drop_last "-" (Terms.drop_first "-" s).
Proof.
  unfold replace_all, matches. destruct s as [|d t].
  - apply splice_end, ends_not_empty.
  - cbn [Terms.drop_first]. destruct (Ascii.eqb d "-") eqn:E.
    + apply Ascii.eqb_eq in E. subst d.
      destruct (ends_at_start t 0) as (m & Hm & Hi & Hs & Hl & Ha).
      rewrite (splice_take _ _ _ _ _ _ m Hm) by (rewrite Hi, Hs; lia).
      rewrite Ha, Hl, Hs. cbn [append]. apply strip_after. simpl. lia.
    + rewrite splice_skip by (now apply ends_not_other).
      rewrite strip_after by (simpl; lia).
      destruct t; [cbn [Terms.drop_last]; now rewrite E | reflexivity].
Qed.

Lemma idfy_eq (s : string) :
  idfy s = Terms.drop_last "-"
             (Terms.drop_first "-"
                (Terms.squeeze Terms.not_alnum "-" false (Str.toLowerCase s))).
Proof.
  unfold idfy. rewrite strip_ends. f_equal. f_equal.
  apply (replace_all_plus Terms.not_alnum "-").
Qed.

(** *** The shape of a squeezed text *)

Lemma squeeze_shape (s : string) :
  (Terms.all_in Terms.id_char (Terms.squeeze Terms.not_alnum "-" false s) = true
   /\ Terms.spaced "-" (Terms.squeeze Terms.not_alnum "-" false s) = true)
  /\ (Terms.all_in Terms.id_char (Terms.squeeze Terms.not_alnum "-" true s) = true
      /\ Terms.spaced "-" (String "-" (Terms.squeeze Terms.not_alnum "-" true s)) = true).
Proof.
  induction s as [|c s ((A1 & S1) & (A2 & S2))]; [now repeat split|].
  cbn [Terms.squeeze]. destruct (Terms.not_alnum c) eqn:P.
  - cbn [append]. repeat split; try assumption;
      try (cbn [Terms.all_in]; now rewrite A2).
  - assert (I : Terms.id_char c = true).
    { unfold Terms.not_alnum in P. apply negb_false_iff in P.
      unfold Terms.id_char. now rewrite P. }
    assert (D : Ascii.eqb c "-" = false).
    { destruct (Ascii.eqb_spec c "-") as [->|]; [discriminate P | reflexivity]. }
    repeat split.
    + cbn [Terms.all_in]. now rewrite I, A1.
    + cbn [Terms.spaced].
      destruct (Terms.squeeze Terms.not_alnum "-" false s); [reflexivity|].
      now rewrite D.
    + cbn [Terms.all_in]. now rewrite I, A1.
    + change (Terms.spaced "-" (String "-" (String c (Terms.squeeze Terms.not_alnum "-" false s))))
        with ((negb (Ascii.eqb "-" "-" && Ascii.eqb c "-")
               && Terms.spaced "-" (String c (Terms.squeeze Terms.not_alnum "-" false s)))%bool).
      rewrite D. cbn [Ascii.eqb andb negb].
      replace (negb (Ascii.eqb "-" "-" && false)) with true by reflexivity.
      cbn [andb Terms.spaced].
      destruct (Terms.squeeze Terms.not_alnum "-" false s); [reflexivity|].
      now rewrite D.
Qed.

Lemma spaced_tail (c a : ascii) (t : string) :
  Terms.spaced c (String a t) = true -> Terms.spaced c t = true.
Proof.
  cbn [Terms.spaced]. destruct t; [reflexivity|]. intro H.
  now apply andb_true_iff in H.
Qed.

Lemma spaced_head (c : ascii) (b : ascii) (t : string) :
  Terms.spaced c (String c (String b t)) = true -> Ascii.eqb b c = false.
Proof.
  cbn [Terms.spaced]. rewrite Ascii.eqb_refl. intro H.
  apply andb_true_iff in H. destruct H as [H _].
  destruct (Ascii.eqb b c); [discriminate | reflexivity].
Qed.

Lemma all_in_drop_last (p : ascii -> bool) (c : ascii) (s : string) :
  Terms.all_in p s = true -> Terms.all_in p (Terms.drop_last c s) = true.
Proof.
  induction s as [|d t IH]; [reflexivity|]. intro H.
  cbn [Terms.all_in] in H. apply andb_true_iff in H. destruct H as [H1 H2].
  destruct t as [|e u].
  - cbn [Terms.drop_last]. destruct (Ascii.eqb d c); [reflexivity|].
    cbn [Terms.all_in]. now rewrite H1.
  - change (Terms.drop_last c (String d (String e u)))
      with (String d (Terms.drop_last c (String e u))).
    cbn [Terms.all_in]. rewrite H1. now apply IH.
Qed.

Lemma spaced_drop_last (c : ascii) (s : string) :
  Terms.spaced c s = true -> Terms.spaced c (Terms.drop_last c s) = true.
Proof.
  induction s as [|d t IH]; [reflexivity|]. intro H.
  destruct t as [|e u].
  - cbn [Terms.drop_last]. destruct (Ascii.eqb d c); reflexivity.
  - change (Terms.drop_last c (String d (String e u)))
      with (String d (Terms.drop_last c (String e u))).
    pose proof (IH (spaced_tail _ _ _ H)) as IH'.
    cbn [Terms.spaced] in H. apply andb_true_iff in H. destruct H as [H1 H2].
    destruct u as [|f v].
    + cbn [Terms.drop_last] in *. destruct (Ascii.eqb e c) eqn:E; [reflexivity|].
      cbn [Terms.spaced]. now rewrite E, andb_false_r.
    + change (Terms.drop_last c (String e (String f v)))
        with (String e (Terms.drop_last c (String f v))) in *.
      cbn [Terms.spaced]. cbn [Terms.spaced] in IH'. now rewrite H1, IH'.
Qed.

Lemma last_of_drop_last (c : ascii) (s : string) :
  forall prev,
    (prev = Some c -> exists d t, s = String d t /\ Ascii.eqb d c = false) ->
    Terms.spaced c s = true ->
    prev_after prev (Terms.drop_last c s) <> Some c.
Proof.
  induction s as [|d t IH]; intros prev Hp Hs.
  - cbn. intro E. destruct (Hp E) as (? & ? & ? & _). discriminate.
  - destruct t as [|e u].
    + cbn [Terms.drop_last]. destruct (Ascii.eqb d c) eqn:E.
      * cbn. intro X. destruct (Hp X) as (d' & t' & Y & Z). injection Y as <- <-.
        congruence.
      * cbn. intro X. injection X as ->. now rewrite Ascii.eqb_refl in E.
    + change (Terms.drop_last c (String d (String e u)))
        with (String d (Terms.drop_last c (String e u))).
      cbn [prev_after]. apply IH.
      * intro X. injection X as ->. exists e, u. split; [reflexivity|].
        now apply spaced_head in Hs.
      * now apply spaced_tail in Hs.
Qed.

Lemma head_drop_last (c : ascii) (s : string) :
  head s <> Some c -> head (Terms.drop_last c s) <> Some c.
Proof.
  destruct s as [|d t]; [auto|]. destruct t as [|e u].
  - cbn [Terms.drop_last]. destruct (Ascii.eqb d c); [discriminate | auto].
  - auto.
Qed.

(** An identifier is made of small letters, digits and hyphens only, has
    no hyphen at either end and no two hyphens in a row, whatever the text
    it is made from: it can stand in an attribute or in a selector as it
    is. *)
Theorem identifiers_are_plain (s : string) :
  Terms.all_in Terms.id_char (idfy s) = true
  /\ head (idfy s) <> Some "-"%char
  /\ prev_after None (idfy s) <> Some "-"%char
  /\ Terms.spaced "-" (idfy s) = true.
Proof.
  rewrite idfy_eq.
  destruct (squeeze_shape (Str.toLowerCase s)) as ((A & S) & _).
  set (u := Terms.squeeze Terms.not_alnum "-" false (Str.toLowerCase s)) in *.
  assert (A' : Terms.all_in Terms.id_char (Terms.drop_first "-" u) = true).
  { destruct u as [|d t]; [reflexivity|]. cbn [Terms.drop_first].
    destruct (Ascii.eqb d "-"); [|exact A].
    cbn [Terms.all_in] in A. now apply andb_true_iff in A. }
  assert (S' : Terms.spaced "-" (Terms.drop_first "-" u) = true).
  { destruct u as [|d t]; [reflexivity|]. cbn [Terms.drop_first].
    destruct (Ascii.eqb d "-"); [|exact S]. now apply spaced_tail in S. }
  assert (H' : head (Terms.drop_first "-" u) <> Some "-"%char).
  { destruct u as [|d t]; [discriminate|]. cbn [Terms.drop_first].
    destruct (Ascii.eqb d "-") eqn:E.
    - apply Ascii.eqb_eq in E. subst d. destruct t as [|e v]; [discriminate|].
      apply spaced_head in S. cbn. intro X. injection X as ->. discriminate.
    - cbn. intro X. injection X as ->. discriminate. }
  repeat split.
  - now apply all_in_drop_last.
  - now apply head_drop_last.
  - apply last_of_drop_last; [discriminate | exact S'].
  - now apply spaced_drop_last.
Qed.

(** ** Reading back the identity of a suite *)

Lemma clash_fails (w : string) :
  forall s tail pos prev caps k,
    Terms.clash w s = true ->
    rmatch (lit_i w) (MState pos prev (s ++ tail) caps) k = None.
Proof.
  induction w as [|a w IH]; intros s tail pos prev caps k H; [discriminate|].
  destruct s as [|b s]; [discriminate|].
  cbn [Terms.clash] in H. cbn [lit_i]. rewrite rmatch_seq_eq, rmatch_chr_eq.
  cbn [m_rest append]. destruct (ci a b); [|reflexivity].
  unfold advance. cbn [m_pos m_caps]. now apply IH.
Qed.

Lemma search_skip_clashes (w : string) (r : regex) (nxt tail : string) :
  forall pre pos prev,
    Terms.clashes w pre nxt = true ->
    search (Seq (lit_i w) r) pos prev (pre ++ nxt ++ tail)
    = search (Seq (lit_i w) r) (pos + N.of_nat (String.length pre))
             (prev_after prev pre) (nxt ++ tail).
Proof.
  induction pre as [|c pre IH]; intros pos prev H.
  - cbn [append String.length N.of_nat prev_after]. now rewrite N.add_0_r.
  - cbn [Terms.clashes] in H. apply andb_true_iff in H. destruct H as [H1 H2].
    cbn [append search].
    replace (at_pos (Seq (lit_i w) r) pos prev (String c (pre ++ nxt ++ tail)))
      with (@None rmatch_result).
    + rewrite (IH _ _ H2). cbn [prev_after String.length]. f_equal. lia.
    + symmetry. unfold at_pos. rewrite rmatch_seq_eq.
      change (String c (pre ++ nxt ++ tail)) with ((String c pre) ++ nxt ++ tail).
      rewrite <- append_assoc. now rewrite clash_fails.
Qed.

Lemma ci_lt (x : ascii) : ci "<" x = true -> x = "<"%char.
Proof. destruct x as [[] [] [] [] [] [] [] []]; vm_compute; congruence. Qed.

Lemma search_skip_text (w : string) (r : regex) (tail : string) :
  forall e pos prev,
    Terms.has_char "<" e = false ->
    search (Seq (lit_i (String "<" w)) r) pos prev (e ++ tail)
    = search (Seq (lit_i (String "<" w)) r) (pos + N.of_nat (String.length e))
             (prev_after prev e) tail.
Proof.
  induction e as [|c e IH]; intros pos prev H.
  - cbn [append String.length N.of_nat prev_after]. now rewrite N.add_0_r.
  - cbn [Terms.has_char] in H. apply orb_false_iff in H. destruct H as [H1 H2].
    cbn [append search].
    replace (at_pos (Seq (lit_i (String "<" w)) r) pos prev (String c (e ++ tail)))
      with (@None rmatch_result).
    + rewrite (IH _ _ H2). cbn [prev_after String.length]. f_equal. lia.
    + symmetry. unfold at_pos. cbn [lit_i]. rewrite !rmatch_seq_eq, rmatch_chr_eq.
      cbn [m_rest]. destruct (ci "<" c) eqn:E; [|reflexivity].
      apply ci_lt in E. subst c. discriminate.
Qed.

Lemma ci_refl (c : ascii) : ci c c = true.
Proof. unfold ci. apply Ascii.eqb_refl. Qed.

Lemma lit_i_self (w : string) :
  forall rest pos prev caps k,
    rmatch (lit_i w) (MState pos prev (w ++ rest) caps) k
    = k (MState (pos + N.of_nat (String.length w)) (prev_after prev w) rest caps).
Proof.
  induction w as [|c w IH]; intros rest pos prev caps k.
  - cbn [lit_i append String.length N.of_nat prev_after]. now rewrite N.add_0_r.
  - cbn [lit_i]. rewrite rmatch_seq_eq, rmatch_chr_eq. cbn [m_rest append].
    rewrite ci_refl. unfold advance. cbn [m_pos m_caps]. rewrite IH.
    cbn [prev_after String.length]. f_equal. f_equal. lia.
Qed.

Lemma firstn_length_append (e x : string) : Str.firstn (String.length e) (e ++ x) = e.
Proof. induction e as [|c e IH]; simpl; [now destruct x | now rewrite IH]. Qed.

Lemma all_in_but (c : ascii) (e : string) :
  Terms.has_char c e = false -> Terms.all_in (but c) e = true.
Proof.
  induction e as [|d e IH]; [reflexivity|]. cbn [Terms.has_char Terms.all_in].
  intro H. apply orb_false_iff in H. destruct H as [H1 H2].
  unfold but at 1. rewrite Ascii.eqb_sym, H1. now rewrite IH.
Qed.

(** At the tag: the group catches the text up to the closing quote. *)
Lemma meta_at_tag (what e tail : string) (pos : N) (prev : option ascii) :
  e <> "" -> Terms.has_char Str.dquote e = false ->
  exists m,
    search (meta_re what) pos prev
           ((Str.q "<meta name=`" ++ what ++ Str.q "` content=`")
              ++ e ++ String Str.dquote tail) = Some m
    /\ group 1 m = Some e.
Proof.
  intros Hne Hq. destruct e as [|c r]; [now elim Hne|].
  set (w := Str.q "<meta name=`" ++ what ++ Str.q "` content=`").
  set (p := but Str.dquote).
  pose proof (all_in_but _ _ Hq) as A. fold p in A.
  cbn [Terms.all_in] in A. apply andb_true_iff in A. destruct A as [Pc A].
  assert (X : exists st,
             rmatch (meta_re what)
                    (MState pos prev (w ++ String c r ++ String Str.dquote tail) []) Some
             = Some st
             /\ cap 1 (m_caps st) = Some (String c r)).
  { unfold meta_re. fold w. cbn [seq]. rewrite rmatch_seq_eq, lit_i_self.
    rewrite rmatch_seq_eq, rmatch_group_eq. unfold Plus. fold p.
    rewrite rmatch_seq_eq, rmatch_chr_eq. cbn [m_rest append]. rewrite Pc.
    rewrite rmatch_star_eq. unfold advance. cbn [m_pos m_prev m_caps m_rest].
    eexists. split.
    - apply (star_greedy_run p _ _ (String Str.dquote tail) []).
      + reflexivity.
      + exact A.
      + cbn [String.length]. rewrite length_append. lia.
      + rewrite rmatch_seq_eq, rmatch_chr_eq.
        unfold set_cap, advance. cbn [m_pos m_prev m_rest m_caps].
        unfold only. rewrite Ascii.eqb_refl. reflexivity.
    - cbn [m_caps advance cap Nat.eqb]. f_equal.
      unfold capture_text. cbn [cap_len cap_from].
      replace (N.to_nat (N.succ (pos + N.of_nat (String.length w))
                         + N.of_nat (String.length r)
                         - (pos + N.of_nat (String.length w))))
        with (String.length (String c r)) by (cbn [String.length]; lia).
      apply (firstn_length_append (String c r)). }
  destruct X as (st & Hst & Hcap).
  exists (Match pos (m_pos st) (m_prev st) (m_rest st) (m_caps st)). split.
  - assert (Hat : at_pos (meta_re what) pos prev
                         (w ++ String c r ++ String Str.dquote tail)
                  = Some (Match pos (m_pos st) (m_prev st) (m_rest st) (m_caps st))).
    { unfold at_pos. now rewrite Hst. }
    destruct (w ++ String c r ++ String Str.dquote tail); cbn [search]; now rewrite Hat.
  - exact Hcap.
Qed.

(** *** The head of a rendered document *)

#[local] Abbreviation head_text := (Str.q "<!doctype html>
<html>
<head>
<meta http-equiv=`Content-Type` content=`text/html; charset=utf-8`>
<meta charset=`utf-8`/>
<meta name=`viewport` content=`width=device-width,initial-scale=1`/>
<meta name=`suite-parent` content=`").
#[local] Abbreviation before_parent := (Str.q "<!doctype html>
<html>
<head>
<meta http-equiv=`Content-Type` content=`text/html; charset=utf-8`>
<meta charset=`utf-8`/>
<meta name=`viewport` content=`width=device-width,initial-scale=1`/>
").
#[local] Abbreviation between_text := (Str.q "`/>
<meta name=`suite-module` content=`").
#[local] Abbreviation before_module := (Str.q "`/>
").
#[local] Abbreviation after_text := (Str.q "`/>
<title>").
#[local] Abbreviation tag_of what := (Str.q "<meta name=`" ++ what ++ Str.q "` content=`").

Lemma meta_re_eq (what : string) :
  meta_re what
  = Seq (lit_i (tag_of what))
        (Seq (Group 1 (Plus true (Chr (but Str.dquote))))
             (Seq (Chr (only Str.dquote)) Eps)).
Proof. reflexivity. Qed.

Lemma extract_meta_found (what fallback doc e : string) (m : rmatch_result) :
  search (meta_re what) 0 None doc = Some m -> group 1 m = Some e -> e <> "" ->
  extract_meta what fallback doc = e.
Proof.
  intros H G Hne. unfold extract_meta, exec. rewrite H. cbn [opt_get]. rewrite G.
  destruct e; [now elim Hne | reflexivity].
Qed.

Lemma parent_read_back (e tail : string) :
  e <> "" -> Terms.has_char Str.dquote e = false ->
  extractParent (head_text ++ e ++ String Str.dquote tail) = e.
Proof.
  intros Hne Hq.
  destruct (meta_at_tag "suite-parent" e tail
              (0 + N.of_nat (String.length before_parent))
              (prev_after None before_parent) Hne Hq) as (m & Hm & Hg).
  apply (extract_meta_found "suite-parent" "Parent" _ e m); [|exact Hg|exact Hne].
  rewrite <- Hm. rewrite meta_re_eq.
  change head_text with (before_parent ++ tag_of "suite-parent").
  rewrite append_assoc.
  apply (search_skip_clashes (tag_of "suite-parent") _ (tag_of "suite-parent")).
  vm_compute. reflexivity.
Qed.

Lemma clash_lt (w : string) (c : ascii) :
  Ascii.eqb c "<" = false -> Terms.clash (String "<" w) (String c "") = true.
Proof.
  intro H. cbn [Terms.clash]. destruct (ci "<" c) eqn:E; [|reflexivity].
  apply ci_lt in E. subst c. discriminate.
Qed.

Lemma search_skip_plain (w : string) (r : regex) (tail : string) :
  forall e pos prev,
    Terms.has_char "<" e = false ->
    search (Seq (lit_i (String "<" w)) r) pos prev (e ++ tail)
    = search (Seq (lit_i (String "<" w)) r) (pos + N.of_nat (String.length e))
             (prev_after prev e) tail.
Proof. apply search_skip_text. Qed.

Lemma module_read_back (p e tail : string) :
  Terms.has_char "<" p = false ->
  e <> "" -> Terms.has_char Str.dquote e = false ->
  extractModule (head_text ++ p ++ between_text ++ e ++ after_text ++ tail) = e.
Proof.
  intros Hp Hne Hq.
  set (pos1 := (0 + N.of_nat (String.length head_text))%N).
  set (prev1 := prev_after None head_text).
  set (pos2 := (pos1 + N.of_nat (String.length p))%N).
  set (prev2 := prev_after prev1 p).
  destruct (meta_at_tag "suite-module" e
              (Str.skipn 1 after_text ++ tail)
              (pos2 + N.of_nat (String.length before_module))
              (prev_after prev2 before_module) Hne Hq) as (m & Hm & Hg).
  apply (extract_meta_found "suite-module" "Module" _ e m); [|exact Hg|exact Hne].
  rewrite <- Hm. rewrite meta_re_eq.
  change (after_text ++ tail) with (String Str.dquote (Str.skipn 1 after_text ++ tail)).
  change between_text with (before_module ++ tag_of "suite-module").
  rewrite (append_assoc before_module).
  transitivity (search (Seq (lit_i (tag_of "suite-module"))
                            (Seq (Group 1 (Plus true (Chr (but Str.dquote))))
                                 (Seq (Chr (only Str.dquote)) Eps)))
                       pos1 prev1
                       (p ++ before_module ++ tag_of "suite-module" ++ e
                          ++ String Str.dquote (Str.skipn 1 after_text ++ tail))).
  { apply (search_skip_clashes (tag_of "suite-module") _ ""
             (p ++ before_module ++ tag_of "suite-module" ++ e
                ++ String Str.dquote (Str.skipn 1 after_text ++ tail)) head_text 0 None).
    vm_compute. reflexivity. }
  transitivity (search (Seq (lit_i (tag_of "suite-module"))
                            (Seq (Group 1 (Plus true (Chr (but Str.dquote))))
                                 (Seq (Chr (only Str.dquote)) Eps)))
                       pos2 prev2
                       (before_module ++ tag_of "suite-module" ++ e
                          ++ String Str.dquote (Str.skipn 1 after_text ++ tail))).
  { apply (search_skip_plain
             (Str.skipn 1 (tag_of "suite-module")) _ _ p pos1 prev1 Hp). }
  apply (search_skip_clashes (tag_of "suite-module") _ (tag_of "suite-module")).
  vm_compute. reflexivity.
Qed.

Lemma esc_nonempty (s : string) : s <> "" -> esc s <> "".
Proof.
  intros H E. pose proof (length_esc s) as L. rewrite E in L.
  destruct s; [now elim H | simpl in L; lia].
Qed.

Lemma render_head (localeCompare : string -> string -> comparison)
      (cfg : Builder.Settings) (tcs : list TestCase) (doc : string) :
  Builder.render localeCompare cfg tcs = Some doc ->
  exists tail,
    doc = head_text ++ esc (Builder.SUITE_PARENT cfg) ++ between_text
            ++ esc (Builder.SUITE_MODULE cfg) ++ after_text ++ tail.
Proof.
  unfold Builder.render.
  destruct (Builder.all_or_none
              (List.map (Builder.render_folder localeCompare)
                        (folderRows localeCompare tcs))); [|discriminate].
  intro H. injection H as <-. cbn [Str.concat]. eexists. reflexivity.
Qed.

(** The aggregator reads back the identity of a suite in its escaped
    form: from a document the builder rendered for a parent and a module
    that are not empty, [extractParent] and [extractModule] return the
    escapes of the two names, and every row it parses carries them.  The
    names themselves come back only when they hold none of the characters
    that [esc] rewrites. *)
Theorem identity_is_read_back_escaped
        (localeCompare : string -> string -> comparison)
        (cfg : Builder.Settings) (tcs : list TestCase) (doc : string) :
  Builder.render localeCompare cfg tcs = Some doc ->
  Builder.SUITE_PARENT cfg <> "" -> Builder.SUITE_MODULE cfg <> "" ->
  extractParent doc = esc (Builder.SUITE_PARENT cfg)
  /\ extractModule doc = esc (Builder.SUITE_MODULE cfg)
  /\ forall r, In r (parseSuiteRows doc) ->
               parent r = esc (Builder.SUITE_PARENT cfg)
               /\ module r = esc (Builder.SUITE_MODULE cfg).
Proof.
  intros H Hp Hm. destruct (render_head _ _ _ _ H) as (tail & ->).
  assert (P : extractParent
                (head_text ++ esc (Builder.SUITE_PARENT cfg) ++ between_text
                   ++ esc (Builder.SUITE_MODULE cfg) ++ after_text ++ tail)
              = esc (Builder.SUITE_PARENT cfg)).
  { set (rest := esc (Builder.SUITE_MODULE cfg) ++ after_text ++ tail).
    change (between_text ++ rest)
      with (String Str.dquote (Str.skipn 1 between_text ++ rest)).
    apply parent_read_back; [now apply esc_nonempty|].
    apply esc_free. simpl; tauto. }
  assert (M : extractModule
                (head_text ++ esc (Builder.SUITE_PARENT cfg) ++ between_text
                   ++ esc (Builder.SUITE_MODULE cfg) ++ after_text ++ tail)
              = esc (Builder.SUITE_MODULE cfg)).
  { apply module_read_back; [| now apply esc_nonempty |].
    - apply esc_free. simpl; tauto.
    - apply esc_free. simpl; tauto. }
  split; [exact P|]. split; [exact M|].
  intros r Hr. unfold parseSuiteRows in Hr. apply in_map_iff in Hr.
  destruct Hr as (m & <- & _). unfold row_of_match. cbn [parent module].
  now rewrite P, M.
Qed.

Lemma identity_is_read_back_escaped_witness :
  extractParent (Docs.text (Docs.rendered "R&D" "Invoices" Runs.three)) = esc "R&D"
  /\ extractModule (Docs.text (Docs.rendered "R&D" "Invoices" Runs.three))
     = esc "Invoices"
  /\ forall r, In r (parseSuiteRows (Docs.text (Docs.rendered "R&D" "Invoices" Runs.three))) ->
               parent r = esc "R&D" /\ module r = esc "Invoices".
Proof.
  apply (identity_is_read_back_escaped Host.ordinal (Docs.settings "R&D" "Invoices")
           (Runs.normalized Runs.three)
           (Docs.text (Docs.rendered "R&D" "Invoices" Runs.three))).
  - vm_compute. reflexivity.
  - discriminate.
  - discriminate.
Defined.

(** ** Documents without metadata, and the soft-failure marker *)

Lemma meta_needs_its_tag (what : string) (prev : option ascii) (w post : string) :
  accepts (meta_re what) prev w post ->
  contains_ci (Str.q "<meta name=`" ++ what ++ Str.q "` content=`") w.
Proof.
  intro A. unfold meta_re in A. cbn [seq] in A.
  apply accepts_seq in A. destruct A as (m1 & m2 & -> & A & _).
  apply accepts_lit_i in A. exists "", m1, m2. split; [reflexivity | exact A].
Qed.

Lemma contains_ci_part (needle pre w post : string) :
  contains_ci needle w -> contains_ci needle (pre ++ w ++ post).
Proof.
  intros (a & x & b & -> & E). exists (pre ++ a), x, (b ++ post).
  split; [|exact E]. now rewrite !append_assoc.
Qed.

(** A document that does not hold the tag of a key (in any letter case)
    gives the default of the key: [Parent] for the parent, [Module] for the
    module.  Whatever the document, neither key is ever empty. *)
Theorem missing_metadata_gives_the_defaults (html : string) :
  (~ contains_ci (Str.q "<meta name=`suite-parent` content=`") html ->
   extractParent html = "Parent")
  /\ (~ contains_ci (Str.q "<meta name=`suite-module` content=`") html ->
      extractModule html = "Module")
  /\ extractParent html <> "" /\ extractModule html <> "".
Proof.
  assert (D : forall what fallback,
             ~ contains_ci (Str.q "<meta name=`" ++ what ++ Str.q "` content=`") html ->
             extract_meta what fallback html = fallback).
  { intros what fallback H. unfold extract_meta, exec. rewrite search_none.
    - cbn [opt_get or_else]. reflexivity.
    - intros pre w post prev -> A. apply H. apply contains_ci_part.
      eapply meta_needs_its_tag. exact A. }
  split; [apply (D "suite-parent" "Parent")|].
  split; [apply (D "suite-module" "Module")|].
  split; apply or_else_nonempty; discriminate.
Qed.

(** The pattern of the soft-failure marker accepts a text exactly when the
    text holds a plus sign, then an arrow written [-->] or [--&gt;], then
    the word [Failing] in any letter case, with any white space (or none)
    between the three. *)
Theorem soft_marker_pattern (s : string) :
  test SOFT s = true <-> has_soft_marker s.
Proof. apply SOFT_spec. Qed.

Lemma no_marker_no_flag_witness :
  detectSoftFailApis Host.number_text (Docs.by_hand "Pay" "Response is Failing") [] = [].
Proof.
  apply (no_marker_no_flag Host.number_text (Docs.by_hand "Pay" "Response is Failing") []).
  intro H. apply SOFT_spec in H. vm_compute in H. discriminate.
Defined.

(** ** The identity of a suite under the anchor directory *)

Lemma findIndex_first {A : Type} (p : A -> bool) (pre : list A) (a : A) (rest : list A) :
  (forall x, In x pre -> p x = false) -> p a = true ->
  findIndex p (pre ++ a :: rest) = Some (List.length pre).
Proof.
  induction pre as [|x pre IH]; intros Hpre Ha; simpl.
  - now rewrite Ha.
  - rewrite (Hpre x (or_introl eq_refl)), IH; [reflexivity | | exact Ha].
    intros y Hy. apply Hpre. now right.
Qed.

Lemma nth_error_after {A : Type} (pre : list A) (a : A) (rest : list A) (j : nat) :
  nth_error (pre ++ a :: rest) (List.length pre + S j) = nth_error rest j.
Proof.
  induction pre as [|x pre IH]; simpl; [reflexivity | exact IH].
Qed.

(** When a segment of the resolved output path holds the anchor name (as
    a part of it, in any letter case), the first such segment decides: the
    grouping key is the segment after it and the module key the one after
    that; a segment that is missing or empty gives way to [Misc] for the
    grouping key and to the name drawn from the collection for the module
    key. *)
Theorem identity_after_the_anchor
        (path_resolve : string -> string) (collection_name : option string)
        (p : string) (pre : list string) (a : string) (rest : list string) :
  segments path_resolve p = (pre ++ a :: rest)%list ->
  (forall seg, In seg pre -> ~ contains_ci "newmancollectionlist" seg) ->
  contains_ci "newmancollectionlist" a ->
  deriveParentFromPath path_resolve p = or_else (nth_error rest 0) "Misc"
  /\ deriveModuleFromPath path_resolve collection_name p
     = or_else (nth_error rest 1) (module_fallback collection_name).
Proof.
  intros E Hpre Ha. unfold deriveParentFromPath, deriveModuleFromPath. rewrite E.
  rewrite (findIndex_first (test anchor_re) pre a rest).
  - replace (List.length pre + 1)%nat with (List.length pre + S 0)%nat by lia.
    replace (List.length pre + 2)%nat with (List.length pre + S 1)%nat by lia.
    now rewrite !nth_error_after.
  - intros seg Hin. destruct (test anchor_re seg) eqn:T; [|reflexivity].
    exfalso. apply (Hpre seg Hin). now apply test_lit_i_spec.
  - now apply test_lit_i_spec.
Qed.

Lemma identity_after_the_anchor_witness :
  deriveParentFromPath Host.resolved "/home/ci/MyNewmanCollectionList2/Billing/Invoices/out.html"
  = or_else (nth_error ["Billing"; "Invoices"; "out.html"] 0) "Misc"
  /\ deriveModuleFromPath Host.resolved (Some "Digital API - Payments")
       "/home/ci/MyNewmanCollectionList2/Billing/Invoices/out.html"
     = or_else (nth_error ["Billing"; "Invoices"; "out.html"] 1)
               (module_fallback (Some "Digital API - Payments")).
Proof.
  apply (identity_after_the_anchor Host.resolved (Some "Digital API - Payments")
           "/home/ci/MyNewmanCollectionList2/Billing/Invoices/out.html"
           [""; "home"; "ci"] "MyNewmanCollectionList2" ["Billing"; "Invoices"; "out.html"]).
  - vm_compute. reflexivity.
  - intros seg [<-|[<-|[<-|[]]]] H; apply test_lit_i_spec in H; vm_compute in H;
      discriminate.
  - apply test_lit_i_spec. vm_compute. reflexivity.
Defined.

(** ** The segments of a path *)

Lemma all_in_app (p : ascii -> bool) (a b : string) :
  Terms.all_in p (a ++ b) = (Terms.all_in p a && Terms.all_in p b)%bool.
Proof.
  induction a as [|c a IH]; simpl; [reflexivity|]. rewrite IH. apply andb_assoc.
Qed.

Lemma all_in_rev (p : ascii -> bool) (s : string) :
  Terms.all_in p (Str.rev s) = Terms.all_in p s.
Proof.
  induction s as [|c s IH]; [reflexivity|].
  rewrite rev_cons, all_in_app, IH. simpl. rewrite andb_true_r. apply andb_comm.
Qed.

Lemma split_plus_go (p : ascii -> bool) (fuel : nat) :
  forall rest cur prev,
    (String.length rest < fuel)%nat ->
    Terms.all_in (fun c => negb (p c)) cur = true ->
    Forall (fun seg => Terms.all_in (fun c => negb (p c)) seg = true)
           (split_go fuel (Plus true (Chr p)) prev rest cur).
Proof.
  induction fuel as [|fuel IH]; intros rest cur prev Hf Hc; [lia|].
  destruct rest as [|c t]; cbn [split_go].
  - constructor; [|constructor]. now rewrite all_in_rev.
  - simpl in Hf. destruct (p c) eqn:P.
    + rewrite (at_pos_plus p c t 0 prev P). cbn [stop last after].
      replace (N.eqb (N.succ 0 + N.of_nat (String.length (Terms.run_of p t))) 0)
        with false by (symmetry; apply N.eqb_neq; lia).
      constructor; [now rewrite all_in_rev|].
      destruct (run_split p t) as (_ & _ & _ & L). apply IH; [lia | reflexivity].
    + rewrite at_pos_plus_none by (cbn [Terms.run_of]; now rewrite P).
      apply IH; [lia|]. cbn [Terms.all_in]. now rewrite P, Hc.
Qed.

Lemma segments_hold_no_separator (path_resolve : string -> string) (p seg : string) :
  In seg (segments path_resolve p) ->
  Terms.has_char "/" seg = false /\ Terms.has_char "\" seg = false.
Proof.
  intro H. unfold segments, sep_re, Re.split in H.
  pose proof (split_plus_go (fun c => (Ascii.eqb c "\" || Ascii.eqb c "/")%bool)
                (S (String.length (path_resolve p))) (path_resolve p) "" None
                (Nat.lt_succ_diag_r _) eq_refl) as F.
  rewrite Forall_forall in F. specialize (F seg H). clear H.
  induction seg as [|c seg IH]; [now split|].
  cbn [Terms.all_in] in F. apply andb_true_iff in F. destruct F as [F1 F2].
  apply negb_true_iff, orb_false_iff in F1. destruct F1 as [B S].
  destruct (IH F2) as [I1 I2]. cbn [Terms.has_char]. now rewrite B, S, I1, I2.
Qed.

(** The two keys of a suite are never empty, and the grouping key is one
    name of a path: it holds neither a slash nor a backslash, so that the
    directory made of it under [Temp] is one level deep.  The module key
    is one name as well when the path gives it; drawn from the name of the
    collection, it may hold any character. *)
Theorem identity_keys_are_names
        (path_resolve : string -> string) (collection_name : option string)
        (p : string) :
  deriveParentFromPath path_resolve p <> ""
  /\ Terms.has_char "/" (deriveParentFromPath path_resolve p) = false
  /\ Terms.has_char "\" (deriveParentFromPath path_resolve p) = false
  /\ deriveModuleFromPath path_resolve collection_name p <> ""
  /\ (deriveModuleFromPath path_resolve collection_name p
      = module_fallback collection_name
      \/ (Terms.has_char "/" (deriveModuleFromPath path_resolve collection_name p) = false
          /\ Terms.has_char "\" (deriveModuleFromPath path_resolve collection_name p)
             = false)).
Proof.
  assert (K : forall i d,
             or_else (nth_error (segments path_resolve p) i) d = d
             \/ In (or_else (nth_error (segments path_resolve p) i) d)
                   (segments path_resolve p)).
  { intros i d. destruct (nth_error (segments path_resolve p) i) as [s|] eqn:E;
      [|now left]. cbn [or_else]. destruct (Str.is_empty s); [now left|].
    right. eapply nth_error_In. exact E. }
  assert (F : module_fallback collection_name <> "").
  { unfold module_fallback. apply or_else_nonempty. discriminate. }
  unfold deriveParentFromPath, deriveModuleFromPath.
  destruct (findIndex (test anchor_re) (segments path_resolve p)) as [i|].
  - split; [apply or_else_nonempty; discriminate|].
    destruct (K (i + 1)%nat "Misc") as [->|Hin];
      [split; [reflexivity|split; [reflexivity|]]
      |destruct (segments_hold_no_separator _ _ _ Hin) as [A B];
       split; [exact A|split; [exact B|]]].
    + split; [now apply or_else_nonempty|].
      destruct (K (i + 2)%nat (module_fallback collection_name)) as [->|Hin];
        [now left | right; now apply (segments_hold_no_separator path_resolve p)].
    + split; [now apply or_else_nonempty|].
      destruct (K (i + 2)%nat (module_fallback collection_name)) as [->|Hin2];
        [now left | right; now apply (segments_hold_no_separator path_resolve p)].
  - repeat split; try discriminate; try exact F. now left.
Qed.

(** ** The summaries of the APIs of a folder *)







(** ** The names of the suite documents *)

Lemma accepts_eol (prev : option ascii) (m post : string) :
  accepts Eol prev m post <-> m = "" /\ post = "".
Proof.
  split.
  - inversion 1; subst. now split.
  - intros [-> ->]. constructor.
Qed.

Lemma accepts_times (p : ascii -> bool) (n : nat) :
  forall prev m post,
    accepts (Files.times n (Chr p)) prev m post
    <-> String.length m = n /\ Terms.all_in p m = true.
Proof.
  induction n as [|n IH]; intros prev m post; cbn [Files.times].
  - rewrite accepts_eps. split.
    + intros ->. now split.
    + intros [H _]. now destruct m.
  - rewrite accepts_seq. split.
    + intros (m1 & m2 & -> & A & B). apply accepts_chr in A.
      destruct A as (c & -> & Pc). apply IH in B. destruct B as [L A].
      cbn [append String.length Terms.all_in]. now rewrite L, Pc, A.
    + intros [L A]. destruct m as [|c m]; [discriminate|].
      cbn [String.length Terms.all_in] in L, A. injection L as L.
      apply andb_true_iff in A. destruct A as [Pc A].
      exists (String c ""), m. split; [reflexivity|]. split.
      * apply accepts_chr. now exists c.
      * apply IH. now split.
Qed.

Lemma latest_spec (name : string) :
  test Files.latest_re name = true <-> Terms.ends_ci "_latest.html" name.
Proof.
  rewrite test_spec. unfold found, Terms.ends_ci, Files.latest_re. cbn [seq]. split.
  - intros (pre & m & post & -> & A).
    apply accepts_seq in A. destruct A as (m1 & m2 & -> & A & B).
    apply accepts_lit_i in A.
    apply accepts_seq in B. destruct B as (m3 & m4 & -> & B & C).
    apply accepts_eol in B. destruct B as [-> B]. apply accepts_eps in C. subst m4.
    cbn [append] in B. subst post. exists pre, m1. split; [|exact A].
    now rewrite !append_nil_r.
  - intros (pre & m & -> & E). exists pre, m, "". split; [now rewrite append_nil_r|].
    apply accepts_seq. exists m, "". split; [now rewrite append_nil_r|].
    split; [now apply accepts_lit_i|].
    apply accepts_seq. exists "", "". split; [reflexivity|].
    split; [now apply accepts_eol | now apply accepts_eps].
Qed.

Lemma stamped_spec (name : string) :
  test Files.stamped_re name = true <-> Terms.ends_stamped name.
Proof.
  rewrite test_spec. unfold found, Terms.ends_stamped, Files.stamped_re. cbn [seq]. split.
  - intros (pre & m & post & -> & A).
    apply accepts_seq in A. destruct A as (u1 & r1 & -> & A1 & A).
    apply accepts_chr in A1. destruct A1 as (c1 & -> & C1).
    apply Ascii.eqb_eq in C1. subst c1.
    apply accepts_seq in A. destruct A as (day & r2 & -> & A2 & A).
    apply accepts_times in A2. destruct A2 as [L2 D2].
    apply accepts_seq in A. destruct A as (u3 & r3 & -> & A3 & A).
    apply accepts_chr in A3. destruct A3 as (c3 & -> & C3).
    apply Ascii.eqb_eq in C3. subst c3.
    apply accepts_seq in A. destruct A as (time & r4 & -> & A4 & A).
    apply accepts_times in A4. destruct A4 as [L4 D4].
    apply accepts_seq in A. destruct A as (ext & r5 & -> & A5 & A).
    apply accepts_lit_i in A5.
    apply accepts_seq in A. destruct A as (m6 & m7 & -> & A6 & A7).
    apply accepts_eol in A6. destruct A6 as [-> A6]. apply accepts_eps in A7. subst m7.
    cbn [append] in A6. subst post.
    exists pre, day, time, ext. repeat split; try assumption.
    cbn [append]. repeat rewrite append_nil_r. repeat rewrite append_assoc.
    cbn [append]. repeat rewrite append_nil_r. reflexivity.
  - intros (pre & day & time & ext & -> & L2 & D2 & L4 & D4 & E).
    exists pre, ("_" ++ day ++ "_" ++ time ++ ext), "".
    split; [now rewrite append_nil_r|].
    apply accepts_seq. exists "_", (day ++ "_" ++ time ++ ext). split; [reflexivity|].
    split; [apply accepts_chr; now exists "_"%char|].
    apply accepts_seq. exists day, ("_" ++ time ++ ext). split; [reflexivity|].
    split; [apply accepts_times; now split|].
    apply accepts_seq. exists "_", (time ++ ext). split; [reflexivity|].
    split; [apply accepts_chr; now exists "_"%char|].
    apply accepts_seq. exists time, ext. split; [reflexivity|].
    split; [apply accepts_times; now split|].
    apply accepts_seq. exists ext, "". split; [now rewrite append_nil_r|].
    split; [now apply accepts_lit_i|].
    apply accepts_seq. exists "", "". split; [reflexivity|].
    split; [now apply accepts_eol | now apply accepts_eps].
Qed.

(** The aggregator takes a file for a suite document exactly when its
    name ends with [_latest.html], or with an underscore, eight digits, an
    underscore, six digits and [.html], the letters in any case.  The copy
    the builder leaves under [Temp] is always taken, whatever the module
    key. *)
Theorem suite_documents_by_name (name : string) :
  (Files.is_suite_html name = true
   <-> Terms.ends_ci "_latest.html" name \/ Terms.ends_stamped name)
  /\ forall SUITE_MODULE, Files.is_suite_html (Files.temp_name SUITE_MODULE) = true.
Proof.
  split.
  - unfold Files.is_suite_html. rewrite orb_true_iff, latest_spec, stamped_spec.
    reflexivity.
  - intro m. unfold Files.is_suite_html. apply orb_true_iff. left.
    apply latest_spec. exists m, "_latest.html". now split.
Qed.

(* ================================================================== *)
(** * Emptying the [Temp] directory *)

Lemma remove_cons (x : string) (q : Cleanup.path) (es : list (string * Cleanup.node)) :
  q <> [] ->
  Cleanup.remove (x :: q) (Cleanup.Dir es)
  = Cleanup.Dir (Cleanup.update_entry x (Cleanup.remove q) es).
Proof. destruct q; [now intros [] | reflexivity]. Qed.

Lemma update_entry_same (x : string) (f g : Cleanup.node -> Cleanup.node)
      (es : list (string * Cleanup.node)) :
  (forall c, Cleanup.find_entry x es = Some c -> f c = g c) ->
  Cleanup.update_entry x f es = Cleanup.update_entry x g es.
Proof.
  induction es as [|[k c] es IH]; simpl; intro H; [reflexivity|].
  destruct (String.eqb k x); [now rewrite (H c eq_refl) | now rewrite IH].
Qed.

Lemma find_update_entry (x : string) (f : Cleanup.node -> Cleanup.node)
      (es : list (string * Cleanup.node)) (y : string) :
  Cleanup.find_entry y (Cleanup.update_entry x f es)
  = if String.eqb x y then option_map f (Cleanup.find_entry x es)
    else Cleanup.find_entry y es.
Proof.
  induction es as [|[k c] es IH]; simpl; [now destruct (String.eqb x y)|].
  destruct (String.eqb k x) eqn:E; simpl.
  - apply String.eqb_eq in E. subst k. destruct (String.eqb x y); reflexivity.
  - destruct (String.eqb k y) eqn:F.
    + apply String.eqb_eq in F. subst k. rewrite String.eqb_sym, E. reflexivity.
    + exact IH.
Qed.

Lemma update_entry_twice (x : string) (f g : Cleanup.node -> Cleanup.node)
      (es : list (string * Cleanup.node)) :
  Cleanup.update_entry x f (Cleanup.update_entry x g es)
  = Cleanup.update_entry x (fun c => f (g c)) es.
Proof.
  induction es as [|[k c] es IH]; simpl; [reflexivity|].
  destruct (String.eqb k x) eqn:E; simpl; rewrite E; [reflexivity | now rewrite IH].
Qed.

Lemma update_entry_id (x : string) (f : Cleanup.node -> Cleanup.node)
      (es : list (string * Cleanup.node)) :
  (forall c, Cleanup.find_entry x es = Some c -> f c = c) ->
  Cleanup.update_entry x f es = es.
Proof.
  induction es as [|[k c] es IH]; simpl; intro H; [reflexivity|].
  destruct (String.eqb k x); [now rewrite (H c eq_refl) | now rewrite IH].
Qed.

Lemma lookup_child (p : Cleanup.path) :
  forall fs n c tl,
    Cleanup.lookup p fs = Some (Cleanup.Dir ((n, c) :: tl)) ->
    Cleanup.lookup (p ++ [n])%list fs = Some c.
Proof.
  induction p as [|x p IH]; intros fs n c tl H; simpl in *.
  - injection H as ->. simpl. now rewrite String.eqb_refl.
  - destruct fs as [|t|es]; [discriminate|discriminate|].
    destruct (Cleanup.find_entry x es) as [d|]; [|discriminate].
    eapply IH. exact H.
Qed.

Lemma remove_child (p : Cleanup.path) :
  forall fs n c tl,
    Cleanup.lookup p fs = Some (Cleanup.Dir ((n, c) :: tl)) ->
    Cleanup.remove (p ++ [n])%list fs = Cleanup.replace_at p (Cleanup.Dir tl) fs.
Proof.
  induction p as [|x p IH]; intros fs n c tl H; simpl in H.
  - injection H as ->. simpl. now rewrite String.eqb_refl.
  - destruct fs as [|t|es]; [discriminate|discriminate|].
    change ((x :: p) ++ [n])%list with (x :: (p ++ [n]))%list.
    rewrite remove_cons by (destruct p; discriminate).
    cbn [Cleanup.replace_at]. f_equal. apply update_entry_same.
    intros d Hd. rewrite Hd in H. eapply IH. exact H.
Qed.

Lemma lookup_replace_at (p : Cleanup.path) :
  forall fs s new,
    Cleanup.lookup p fs = Some s ->
    Cleanup.lookup p (Cleanup.replace_at p new fs) = Some new.
Proof.
  induction p as [|x p IH]; intros fs s new H; simpl in *; [reflexivity|].
  destruct fs as [|t|es]; [discriminate|discriminate|].
  rewrite find_update_entry, String.eqb_refl.
  destruct (Cleanup.find_entry x es) as [d|]; [|discriminate]. simpl.
  eapply IH. exact H.
Qed.

Lemma replace_at_twice (p : Cleanup.path) :
  forall fs a b,
    Cleanup.replace_at p a (Cleanup.replace_at p b fs) = Cleanup.replace_at p a fs.
Proof.
  induction p as [|x p IH]; intros fs a b; simpl; [reflexivity|].
  destruct fs as [|t|es]; [reflexivity|reflexivity|].
  rewrite update_entry_twice. f_equal. apply update_entry_same. intros c _. apply IH.
Qed.

Lemma replace_at_same (p : Cleanup.path) :
  forall fs s, Cleanup.lookup p fs = Some s -> Cleanup.replace_at p s fs = fs.
Proof.
  induction p as [|x p IH]; intros fs s H; simpl in *; [congruence|].
  destruct fs as [|t|es]; [reflexivity|reflexivity|]. f_equal. apply update_entry_id.
  intros c Hc. rewrite Hc in H. now apply IH.
Qed.

Lemma remove_entry_update (x : string) (f : Cleanup.node -> Cleanup.node)
      (es : list (string * Cleanup.node)) :
  Cleanup.remove_entry x (Cleanup.update_entry x f es) = Cleanup.remove_entry x es.
Proof.
  induction es as [|[k c] es IH]; simpl; [reflexivity|].
  destruct (String.eqb k x) eqn:E; simpl; rewrite E; [reflexivity | now rewrite IH].
Qed.

Lemma remove_replace_at (p : Cleanup.path) :
  forall fs new,
    p <> [] ->
    Cleanup.remove p (Cleanup.replace_at p new fs) = Cleanup.remove p fs.
Proof.
  induction p as [|x p IH]; intros fs new Hp; [now elim Hp|].
  destruct fs as [|t|es]; [reflexivity|reflexivity|]. cbn [Cleanup.replace_at].
  destruct p as [|y p].
  - cbn [Cleanup.remove]. f_equal. apply remove_entry_update.
  - rewrite !remove_cons by discriminate. rewrite update_entry_twice. f_equal.
    apply update_entry_same. intros c _. apply IH. discriminate.
Qed.

Lemma depth_child (es : list (string * Cleanup.node)) (n : string) (c : Cleanup.node) :
  In (n, c) es -> (S (Cleanup.depth c) <= Cleanup.depth (Cleanup.Dir es))%nat.
Proof.
  cbn [Cleanup.depth]. induction es as [|[k d] es IH]; intros H; [destruct H|].
  destruct H as [H|H].
  - injection H as -> ->. lia.
  - specialize (IH H). lia.
Qed.

Lemma depth_positive (n : Cleanup.node) : (1 <= Cleanup.depth n)%nat.
Proof. destruct n; simpl; lia. Qed.


Lemma lookup_app (p : Cleanup.path) :
  forall q fs,
    Cleanup.lookup (p ++ q)%list fs
    = match Cleanup.lookup p fs with
      | Some c => Cleanup.lookup q c
      | None => None
      end.
Proof.
  induction p as [|x p IH]; intros q fs; [reflexivity|].
  cbn [app Cleanup.lookup]. destruct fs as [|t|es]; try reflexivity.
  destruct (Cleanup.find_entry x es) as [c|]; [apply IH | reflexivity].
Qed.

Lemma plain_child (es : list (string * Cleanup.node)) (n : string) (c : Cleanup.node) :
  Cleanup.plain (Cleanup.Dir es) = true -> In (n, c) es -> Cleanup.plain c = true.
Proof.
  cbn [Cleanup.plain]. induction es as [|[k d] es IH]; intros P H; [destruct H|].
  apply andb_true_iff in P. destruct P as [P1 P2]. destruct H as [H|H].
  - now injection H as -> ->.
  - now apply IH.
Qed.

Lemma plain_tail (e : string * Cleanup.node) (es : list (string * Cleanup.node)) :
  Cleanup.plain (Cleanup.Dir (e :: es)) = true -> Cleanup.plain (Cleanup.Dir es) = true.
Proof. destruct e as [k d]. cbn [Cleanup.plain]. intro P. now apply andb_true_iff in P. Qed.

(** ** Paths that go through directories only *)

Lemma follow_eq (links : nat) (fs : Cleanup.node) (done todo : Cleanup.path) :
  Cleanup.follow links fs done todo
  = match todo with
    | [] => Some done
    | name :: rest =>
        match Cleanup.lookup (done ++ [name])%list fs with
        | Some (Cleanup.Link target) =>
            match links with
            | O => None
            | S l => Cleanup.follow l fs [] (target ++ rest)%list
            end
        | Some _ => Cleanup.follow links fs (done ++ [name])%list rest
        | None => None
        end
    end.
Proof. destruct links; destruct todo; reflexivity. Qed.

Lemma follow_directories (links : nat) (fs : Cleanup.node) (todo : Cleanup.path) :
  forall done sub,
    Cleanup.lookup (done ++ todo)%list fs = Some sub -> Cleanup.not_a_link sub ->
    Cleanup.follow links fs done todo = Some (done ++ todo)%list.
Proof.
  induction todo as [|n rest IH]; intros done sub H N; rewrite follow_eq.
  - now rewrite app_nil_r.
  - change (n :: rest) with ([n] ++ rest)%list in H. rewrite app_assoc in H.
    rewrite lookup_app in H.
    destruct (Cleanup.lookup (done ++ [n])%list fs) as [c|] eqn:E; [|discriminate].
    assert (R : Cleanup.follow links fs (done ++ [n])%list rest
                = Some (done ++ n :: rest)%list).
    { rewrite (IH (done ++ [n])%list sub).
      - now rewrite <- app_assoc.
      - now rewrite lookup_app, E.
      - exact N. }
    destruct c as [|t|es]; try exact R.
    destruct rest; [|discriminate]. injection H as <-. destruct N.
Qed.

Lemma follow_app_directories (links : nat) (fs : Cleanup.node) (todo : Cleanup.path) :
  forall done rest sub,
    Cleanup.lookup (done ++ todo)%list fs = Some sub -> Cleanup.not_a_link sub ->
    Cleanup.follow links fs done (todo ++ rest)%list
    = Cleanup.follow links fs (done ++ todo)%list rest.
Proof.
  induction todo as [|n t IH]; intros done rest sub H N.
  - now rewrite app_nil_r.
  - change ((n :: t) ++ rest)%list with (n :: (t ++ rest))%list. rewrite follow_eq.
    change (n :: t) with ([n] ++ t)%list in H. rewrite app_assoc in H.
    pose proof H as H'. rewrite lookup_app in H'.
    destruct (Cleanup.lookup (done ++ [n])%list fs) as [c|] eqn:E; [|discriminate].
    assert (R : Cleanup.follow links fs (done ++ [n])%list (t ++ rest)%list
                = Cleanup.follow links fs (done ++ n :: t)%list rest).
    { rewrite (IH (done ++ [n])%list rest sub H N). now rewrite <- app_assoc. }
    destruct c as [|tg|es]; try exact R.
    destruct t; [|discriminate]. injection H' as <-. destruct N.
Qed.

Lemma remove_at_child (p : Cleanup.path) :
  forall fs n l,
    Cleanup.lookup p fs = Some (Cleanup.Dir l) ->
    Cleanup.remove (p ++ [n])%list fs
    = Cleanup.replace_at p (Cleanup.Dir (Cleanup.remove_entry n l)) fs.
Proof.
  induction p as [|x p IH]; intros fs n l H; simpl in H.
  - injection H as ->. reflexivity.
  - destruct fs as [|t|es]; [discriminate|discriminate|].
    change ((x :: p) ++ [n])%list with (x :: (p ++ [n]))%list.
    rewrite remove_cons by (destruct p; discriminate).
    cbn [Cleanup.replace_at]. f_equal. apply update_entry_same.
    intros d Hd. rewrite Hd in H. eapply IH. exact H.
Qed.

Lemma replace_at_child (p : Cleanup.path) :
  forall fs n l new,
    Cleanup.lookup p fs = Some (Cleanup.Dir l) ->
    Cleanup.replace_at (p ++ [n])%list new fs
    = Cleanup.replace_at p (Cleanup.Dir (Cleanup.update_entry n (fun _ => new) l)) fs.
Proof.
  induction p as [|x p IH]; intros fs n l new H; simpl in H.
  - injection H as ->. reflexivity.
  - destruct fs as [|t|es]; [discriminate|discriminate|].
    cbn [app Cleanup.replace_at]. f_equal. apply update_entry_same.
    intros d Hd. rewrite Hd in H. eapply IH. exact H.
Qed.

Lemma plain_find (l : list (string * Cleanup.node)) (n : string) (c : Cleanup.node) :
  Cleanup.plain (Cleanup.Dir l) = true -> Cleanup.find_entry n l = Some c ->
  Cleanup.plain c = true.
Proof.
  cbn [Cleanup.plain]. induction l as [|[k d] l IH]; intros P H; [discriminate|].
  apply andb_true_iff in P. destruct P as [P1 P2]. simpl in H.
  destruct (String.eqb k n); [now injection H as <- | now apply IH].
Qed.

Lemma plain_remove_entry (l : list (string * Cleanup.node)) (n : string) :
  Cleanup.plain (Cleanup.Dir l) = true ->
  Cleanup.plain (Cleanup.Dir (Cleanup.remove_entry n l)) = true.
Proof.
  cbn [Cleanup.plain]. induction l as [|[k d] l IH]; intros P; [reflexivity|].
  apply andb_true_iff in P. destruct P as [P1 P2]. simpl.
  destruct (String.eqb k n); [exact P2|].
  apply andb_true_iff. split; [exact P1 | now apply IH].
Qed.

Lemma plain_update_entry (l : list (string * Cleanup.node)) (n : string)
      (new : Cleanup.node) :
  Cleanup.plain (Cleanup.Dir l) = true -> Cleanup.plain new = true ->
  Cleanup.plain (Cleanup.Dir (Cleanup.update_entry n (fun _ => new) l)) = true.
Proof.
  cbn [Cleanup.plain]. induction l as [|[k d] l IH]; intros P Q; [reflexivity|].
  apply andb_true_iff in P. destruct P as [P1 P2]. simpl.
  destruct (String.eqb k n); apply andb_true_iff; split; auto.
Qed.

Lemma plain_not_a_link (n : Cleanup.node) :
  Cleanup.plain n = true -> Cleanup.not_a_link n.
Proof. destruct n; [intros _; exact I | discriminate | intros _; exact I]. Qed.

Section Willing_host.

Variable refused : Cleanup.call -> Cleanup.path -> bool.
Variable max_links : nat.

#[local] Abbreviation quiet := (Cleanup.quiet refused).
#[local] Abbreviation rmrf := (Cleanup.rmrf refused max_links).
#[local] Abbreviation main := (Cleanup.main refused max_links).

Lemma quiet_here (p : Cleanup.path) (c : Cleanup.call) : quiet p -> refused c p = false.
Proof. intro Q. specialize (Q c []). now rewrite app_nil_r in Q. Qed.

Lemma quiet_child (p : Cleanup.path) (n : string) : quiet p -> quiet (p ++ [n])%list.
Proof. intros Q c q. rewrite <- app_assoc. apply Q. Qed.

Lemma realpath_directories (p : Cleanup.path) (fs sub : Cleanup.node) :
  Cleanup.lookup p fs = Some sub -> Cleanup.not_a_link sub ->
  Cleanup.realpath max_links p fs = Some p.
Proof. intros H N. unfold Cleanup.realpath. now apply (follow_directories _ _ p [] sub). Qed.

Lemma entry_directories (p : Cleanup.path) (fs sub : Cleanup.node) :
  p <> [] -> Cleanup.lookup p fs = Some sub ->
  Cleanup.entry max_links p fs = Some p.
Proof.
  intros Hp H. unfold Cleanup.entry. destruct p as [|x p]; [now elim Hp|].
  set (P := (x :: p)) in *.
  rewrite (app_removelast_last EmptyString Hp) in H. rewrite lookup_app in H.
  destruct (Cleanup.lookup (removelast P) fs) as [c|] eqn:E; [|discriminate].
  rewrite (realpath_directories (removelast P) fs c E).
  - now rewrite <- (app_removelast_last EmptyString Hp).
  - destruct c; [discriminate | discriminate | exact I].
Qed.

Lemma rmrf_spec (fuel : nat) :
  forall p fs sub,
    p <> [] -> Cleanup.lookup p fs = Some sub ->
    Cleanup.plain sub = true -> quiet p ->
    (Cleanup.depth sub <= fuel)%nat ->
    rmrf fuel p fs = (Cleanup.remove p fs, true).
Proof.
  induction fuel as [|f IH]; intros p fs sub Hp H P Q D.
  - pose proof (depth_positive sub). lia.
  - assert (N : Cleanup.not_a_link sub) by (destruct sub; [exact I | discriminate | exact I]).
    cbn [Cleanup.rmrf]. unfold Cleanup.existsSync, Cleanup.statSync, Cleanup.readdirSync.
    rewrite !(quiet_here p _ Q), (realpath_directories p fs sub H N), H. cbn [negb].
    destruct sub as [|t|es]; [|discriminate|].
    + unfold Cleanup.unlinkSync.
      now rewrite (quiet_here p _ Q), (entry_directories p fs _ Hp H), H.
    + assert (E : forall l fs',
                 Cleanup.lookup p fs' = Some (Cleanup.Dir l) ->
                 (forall n c, In (n, c) l ->
                              (Cleanup.depth c <= f)%nat /\ Cleanup.plain c = true) ->
                 Cleanup.each
                   (fun name => Cleanup.rmrf refused max_links f (p ++ [name])%list)
                   (List.map fst l) fs'
                 = (Cleanup.replace_at p (Cleanup.Dir []) fs', true)).
      { induction l as [|[n c] tl IHl]; intros fs' H' D'.
        - simpl. now rewrite (replace_at_same p fs' _ H').
        - cbn [List.map fst Cleanup.each].
          rewrite (IH (p ++ [n])%list fs' c).
          + rewrite (remove_child p fs' n c tl H').
            rewrite IHl.
            * now rewrite replace_at_twice.
            * eapply lookup_replace_at. exact H'.
            * intros n' c' Hin. apply (D' n' c'). now right.
          + destruct p; discriminate.
          + eapply lookup_child. exact H'.
          + apply (D' n c). now left.
          + now apply quiet_child.
          + apply (D' n c). now left. }
      rewrite (E es fs H).
      * unfold Cleanup.rmdirSync. rewrite (quiet_here p _ Q).
        pose proof (lookup_replace_at p fs _ (Cleanup.Dir []) H) as H1.
        rewrite (entry_directories p _ _ Hp H1), H1.
        now rewrite remove_replace_at.
      * intros n c Hin. split.
        -- pose proof (depth_child es n c Hin). lia.
        -- now apply (plain_child es n c).
Qed.

Lemma realpath_missing_child (p : Cleanup.path) (fs : Cleanup.node)
      (l : list (string * Cleanup.node)) (n : string) :
  Cleanup.lookup p fs = Some (Cleanup.Dir l) -> Cleanup.find_entry n l = None ->
  Cleanup.realpath max_links (p ++ [n])%list fs = None.
Proof.
  intros H E. unfold Cleanup.realpath.
  rewrite (follow_app_directories max_links fs p [] [n] (Cleanup.Dir l) H I).
  cbn [app]. rewrite follow_eq, lookup_app, H. cbn [Cleanup.lookup]. now rewrite E.
Qed.

Lemma rmrf_missing (fuel : nat) (q : Cleanup.path) (fs : Cleanup.node) :
  Cleanup.realpath max_links q fs = None -> fst (rmrf fuel q fs) = fs.
Proof.
  destruct fuel; [reflexivity|]. cbn [Cleanup.rmrf]. unfold Cleanup.existsSync.
  intros ->. now destruct (refused Cleanup.Exists q).
Qed.

(** What [rmrf] leaves of a tree without links, whatever is refused: the
    file system without the entry, or the file system with a part of the
    tree at the place of the tree. *)
#[local] Abbreviation inside_at fuel :=
  (forall p fs sub,
     p <> [] -> Cleanup.lookup p fs = Some sub -> Cleanup.plain sub = true ->
     rmrf fuel p fs = (Cleanup.remove p fs, true)
     \/ exists sub',
          Cleanup.plain sub' = true
          /\ fst (rmrf fuel p fs) = Cleanup.replace_at p sub' fs
          /\ (snd (rmrf fuel p fs) = true -> refused Cleanup.Exists p = true)).

Lemma child_inside (f : nat) (IHf : inside_at f) :
  forall p fs l n,
    Cleanup.lookup p fs = Some (Cleanup.Dir l) ->
    Cleanup.plain (Cleanup.Dir l) = true ->
    exists l1,
      Cleanup.plain (Cleanup.Dir l1) = true
      /\ fst (rmrf f (p ++ [n])%list fs) = Cleanup.replace_at p (Cleanup.Dir l1) fs.
Proof.
  intros p fs l n H P. destruct (Cleanup.find_entry n l) as [c|] eqn:F.
  - assert (Hc : Cleanup.lookup (p ++ [n])%list fs = Some c).
    { rewrite lookup_app, H. cbn [Cleanup.lookup]. now rewrite F. }
    assert (Np : (p ++ [n])%list <> []) by (destruct p; discriminate).
    destruct (IHf (p ++ [n])%list fs c Np Hc (plain_find l n c P F))
      as [R|(sub' & P' & R & _)]; rewrite R.
    + exists (Cleanup.remove_entry n l). split; [now apply plain_remove_entry|].
      cbn [fst]. now apply remove_at_child.
    + exists (Cleanup.update_entry n (fun _ => sub') l).
      split; [now apply plain_update_entry|]. now apply replace_at_child.
  - exists l. split; [exact P|].
    rewrite (rmrf_missing f _ fs (realpath_missing_child p fs l n H F)).
    symmetry. now apply replace_at_same.
Qed.

Lemma rmrf_inside (fuel : nat) : inside_at fuel.
Proof.
  induction fuel as [|f IH]; intros p fs sub Hp H P.
  - right. exists sub. split; [exact P|]. split; [|discriminate].
    symmetry. now apply replace_at_same.
  - assert (Same : forall ok : bool,
               exists sub',
                 Cleanup.plain sub' = true
                 /\ fst (fs, ok) = Cleanup.replace_at p sub' fs).
    { intro ok. exists sub. split; [exact P|]. symmetry. now apply replace_at_same. }
    pose proof (plain_not_a_link sub P) as N.
    cbn [Cleanup.rmrf]. unfold Cleanup.existsSync.
    destruct (refused Cleanup.Exists p) eqn:RE; cbn [negb].
    { right. destruct (Same true) as (s & Ps & Es). exists s. now repeat split. }
    rewrite (realpath_directories p fs sub H N). cbn [negb].
    unfold Cleanup.statSync. destruct (refused Cleanup.Stat p).
    { right. destruct (Same false) as (s & Ps & Es). exists s.
      split; [exact Ps|]. split; [exact Es | discriminate]. }
    rewrite (realpath_directories p fs sub H N), H.
    destruct sub as [|tg|es]; [|discriminate|].
    + unfold Cleanup.unlinkSync. destruct (refused Cleanup.Unlink p).
      { right. destruct (Same false) as (s & Ps & Es). exists s.
        split; [exact Ps|]. split; [exact Es | discriminate]. }
      left. now rewrite (entry_directories p fs _ Hp H), H.
    + unfold Cleanup.readdirSync. destruct (refused Cleanup.Readdir p).
      { right. destruct (Same false) as (s & Ps & Es). exists s.
        split; [exact Ps|]. split; [exact Es | discriminate]. }
      rewrite (realpath_directories p fs _ H N), H.
      assert (E : forall names fs' l,
                 Cleanup.lookup p fs' = Some (Cleanup.Dir l) ->
                 Cleanup.plain (Cleanup.Dir l) = true ->
                 exists l',
                   Cleanup.plain (Cleanup.Dir l') = true
                   /\ fst (Cleanup.each (fun name => rmrf f (p ++ [name])%list)
                                        names fs')
                      = Cleanup.replace_at p (Cleanup.Dir l') fs').
      { induction names as [|n r IHn]; intros fs' l H' P'.
        - exists l. split; [exact P'|]. symmetry. now apply replace_at_same.
        - cbn [Cleanup.each].
          destruct (child_inside f IH p fs' l n H' P') as (l1 & P1 & E1).
          destruct (rmrf f (p ++ [n])%list fs') as [fs1 ok]. cbn [fst] in E1. subst fs1.
          destruct ok.
          + destruct (IHn (Cleanup.replace_at p (Cleanup.Dir l1) fs') l1
                          (lookup_replace_at p fs' _ _ H') P1) as (l' & Pl & El).
            exists l'. split; [exact Pl|]. rewrite El. apply replace_at_twice.
          + exists l1. split; [exact P1 | reflexivity]. }
      destruct (E (List.map fst es) fs es H P) as (l' & Pl & El).
      destruct (Cleanup.each (fun name => rmrf f (p ++ [name])%list)
                             (List.map fst es) fs) as [fs1 ok].
      cbn [fst] in El. subst fs1.
      pose proof (lookup_replace_at p fs _ (Cleanup.Dir l') H) as H1.
      destruct ok.
      * unfold Cleanup.rmdirSync. destruct (refused Cleanup.Rmdir p).
        { right. exists (Cleanup.Dir l'). split; [exact Pl|].
          split; [reflexivity | discriminate]. }
        rewrite (entry_directories p _ _ Hp H1), H1. destruct l' as [|e l'].
        -- left. now rewrite remove_replace_at.
        -- right. exists (Cleanup.Dir (e :: l')). split; [exact Pl|].
           split; [reflexivity | discriminate].
      * right. exists (Cleanup.Dir l'). split; [exact Pl|].
        split; [reflexivity | discriminate].
Qed.


Lemma lookup_off_path (p : Cleanup.path) :
  forall q fs new,
    (forall r, q <> (p ++ r)%list) -> (forall r, p <> (q ++ r)%list) ->
    Cleanup.lookup q (Cleanup.replace_at p new fs) = Cleanup.lookup q fs.
Proof.
  induction p as [|x p IH]; intros q fs new H1 H2.
  - now elim (H1 q).
  - destruct q as [|y q]; [now elim (H2 (x :: p))|].
    destruct fs as [|t|es]; [reflexivity|reflexivity|]. cbn [Cleanup.replace_at Cleanup.lookup].
    rewrite find_update_entry. destruct (String.eqb x y) eqn:E; [|reflexivity].
    apply String.eqb_eq in E. subst y.
    destruct (Cleanup.find_entry x es) as [c|]; [|reflexivity]. simpl.
    apply IH.
    + intros r Er. apply (H1 r). simpl. now rewrite Er.
    + intros r Er. apply (H2 r). simpl. now rewrite Er.
Qed.


Lemma main_spec
        (fuel : nat) (tempDir : Cleanup.path) (fs : Cleanup.node)
        (es : list (string * Cleanup.node)) :
  Cleanup.lookup tempDir fs = Some (Cleanup.Dir es) ->
  Cleanup.plain (Cleanup.Dir es) = true -> quiet tempDir ->
  (Cleanup.depth (Cleanup.Dir es) <= S fuel)%nat ->
  main fuel tempDir fs = (Cleanup.replace_at tempDir (Cleanup.Dir []) fs, 0).
Proof.
  intros H P Q D.
  assert (E : forall l fs',
             Cleanup.lookup tempDir fs' = Some (Cleanup.Dir l) ->
             (forall n c, In (n, c) l ->
                          (Cleanup.depth c <= fuel)%nat /\ Cleanup.plain c = true) ->
             fold_left (Cleanup.clean_entry refused max_links fuel tempDir)
                       (List.map fst l) fs'
             = Cleanup.replace_at tempDir (Cleanup.Dir []) fs').
  { induction l as [|[n c] tl IHl]; intros fs' H' D'.
    - simpl. now rewrite (replace_at_same tempDir fs' _ H').
    - cbn [List.map fst fold_left]. unfold Cleanup.clean_entry at 2.
      pose proof (lookup_child tempDir fs' n c tl H') as Hc.
      destruct (D' n c (or_introl eq_refl)) as [Dc Pc].
      assert (Nc : Cleanup.not_a_link c) by (destruct c; [exact I | discriminate | exact I]).
      unfold Cleanup.statSync.
      rewrite (quiet_here _ _ (quiet_child tempDir n Q)),
              (realpath_directories _ fs' c Hc Nc), Hc.
      assert (R : fst (Cleanup.rmrf refused max_links fuel (tempDir ++ [n])%list fs')
                  = Cleanup.replace_at tempDir (Cleanup.Dir tl) fs').
      { rewrite (rmrf_spec fuel (tempDir ++ [n])%list fs' c).
        - cbn [fst]. apply (remove_child tempDir fs' n c tl H').
        - destruct tempDir; discriminate.
        - exact Hc.
        - exact Pc.
        - now apply quiet_child.
        - exact Dc. }
      assert (R' : match c with
                   | Cleanup.Dir _ => Some true
                   | Cleanup.File => Some false
                   | _ => None
                   end <> None) by (destruct c; [discriminate | destruct Nc | discriminate]).
      destruct (match c with
                | Cleanup.Dir _ => Some true
                | Cleanup.File => Some false
                | _ => None
                end) as [b|]; [|now elim R'].
      rewrite R, IHl.
      + now rewrite replace_at_twice.
      + eapply lookup_replace_at. exact H'.
      + intros n' c' Hin. apply (D' n' c'). now right. }
  assert (M : main fuel tempDir fs
              = (Cleanup.replace_at tempDir (Cleanup.Dir []) fs, 0)).
  { unfold Cleanup.main, Cleanup.existsSync, Cleanup.readdirSync.
    rewrite !(quiet_here tempDir _ Q), (realpath_directories tempDir fs _ H I), H.
    cbn [negb].
    destruct es as [|e es'] eqn:Ees.
    - cbn [List.map]. now rewrite (replace_at_same tempDir fs _ H).
    - rewrite <- Ees in *. 
      assert (X : exists a l, List.map fst es = a :: l) by (rewrite Ees; destruct e; now eexists _, _).
      destruct X as (a & l & X). rewrite X, <- X. f_equal. apply (E es fs H).
      intros n c Hin. split.
      + pose proof (depth_child es n c Hin). lia.
      + now apply (plain_child es n c). }
  exact M.
Qed.

Lemma main_inside (fuel : nat) (tempDir : Cleanup.path) (fs : Cleanup.node)
      (es : list (string * Cleanup.node)) :
  Cleanup.lookup tempDir fs = Some (Cleanup.Dir es) ->
  Cleanup.plain (Cleanup.Dir es) = true ->
  exists left,
    Cleanup.plain (Cleanup.Dir left) = true
    /\ fst (main fuel tempDir fs) = Cleanup.replace_at tempDir (Cleanup.Dir left) fs.
Proof.
  intros H P.
  assert (Same : exists left,
             Cleanup.plain (Cleanup.Dir left) = true
             /\ fs = Cleanup.replace_at tempDir (Cleanup.Dir left) fs).
  { exists es. split; [exact P|]. symmetry. now apply replace_at_same. }
  assert (E : forall names fs' l,
             Cleanup.lookup tempDir fs' = Some (Cleanup.Dir l) ->
             Cleanup.plain (Cleanup.Dir l) = true ->
             exists l',
               Cleanup.plain (Cleanup.Dir l') = true
               /\ fold_left (Cleanup.clean_entry refused max_links fuel tempDir) names fs'
                  = Cleanup.replace_at tempDir (Cleanup.Dir l') fs').
  { induction names as [|n r IHn]; intros fs' l H' P'.
    - exists l. split; [exact P'|]. symmetry. now apply replace_at_same.
    - cbn [fold_left].
      assert (S1 : exists l1,
                 Cleanup.plain (Cleanup.Dir l1) = true
                 /\ Cleanup.clean_entry refused max_links fuel tempDir fs' n
                    = Cleanup.replace_at tempDir (Cleanup.Dir l1) fs').
      { unfold Cleanup.clean_entry.
        destruct (Cleanup.statSync refused max_links (tempDir ++ [n])%list fs').
        - apply (child_inside fuel (rmrf_inside fuel) tempDir fs' l n H' P').
        - exists l. split; [exact P'|]. symmetry. now apply replace_at_same. }
      destruct S1 as (l1 & P1 & ->).
      destruct (IHn (Cleanup.replace_at tempDir (Cleanup.Dir l1) fs') l1
                    (lookup_replace_at tempDir fs' _ _ H') P1) as (l' & Pl & El).
      exists l'. split; [exact Pl|]. rewrite El. apply replace_at_twice. }
  unfold Cleanup.main.
  destruct (negb (Cleanup.existsSync refused max_links tempDir fs)); [exact Same|].
  destruct (Cleanup.readdirSync refused max_links tempDir fs) as [[|n names]|];
    [exact Same | | exact Same].
  cbn [fst]. apply (E (n :: names) fs es H P).
Qed.

(** The script empties [Temp] and nothing else.  [Temp] is a directory
    reached through directories and nothing in it is a link.  When the
    operating system refuses nothing in it (and the fuel is enough for its
    depth), the script leaves the file system with an empty [Temp]
    directory in the place of the old one and exits with 0.  Whatever is
    refused and whatever the fuel, the script leaves a directory at
    [Temp], changed or not, and a path that is neither in [Temp] nor on the
    way to it leads to what it led to before; it exits with 1 when
    [readdirSync] is refused on [Temp] and with 0 otherwise. *)
Theorem cleanup_empties_temp_only
        (fuel : nat) (tempDir : Cleanup.path) (fs : Cleanup.node)
        (es : list (string * Cleanup.node)) :
  Cleanup.lookup tempDir fs = Some (Cleanup.Dir es) ->
  Cleanup.plain (Cleanup.Dir es) = true ->
  (quiet tempDir -> (Cleanup.depth (Cleanup.Dir es) <= S fuel)%nat ->
   main fuel tempDir fs = (Cleanup.replace_at tempDir (Cleanup.Dir []) fs, 0))
  /\ (exists left,
        Cleanup.plain (Cleanup.Dir left) = true
        /\ Cleanup.lookup tempDir (fst (main fuel tempDir fs)) = Some (Cleanup.Dir left))
  /\ (forall q,
        (forall r, q <> (tempDir ++ r)%list) -> (forall r, tempDir <> (q ++ r)%list) ->
        Cleanup.lookup q (fst (main fuel tempDir fs)) = Cleanup.lookup q fs)
  /\ snd (main fuel tempDir fs)
     = if (negb (refused Cleanup.Exists tempDir) && refused Cleanup.Readdir tempDir)%bool
       then 1 else 0.
Proof.
  intros H P. destruct (main_inside fuel tempDir fs es H P) as (left & Pl & El).
  split; [|split; [|split]].
  - intros Q D. now apply (main_spec fuel tempDir fs es).
  - exists left. split; [exact Pl|]. rewrite El. eapply lookup_replace_at. exact H.
  - intros q H1 H2. rewrite El. now apply lookup_off_path.
  - unfold Cleanup.main, Cleanup.existsSync, Cleanup.readdirSync.
    destruct (refused Cleanup.Exists tempDir); [reflexivity|].
    rewrite (realpath_directories tempDir fs _ H I). cbn [negb andb].
    destruct (refused Cleanup.Readdir tempDir); [reflexivity|].
    rewrite H. now destruct (List.map fst es).
Qed.

End Willing_host.


Lemma cleanup_empties_temp_only_witness :
  Cleanup.main Cleanup.willing Cleanup.linux_links 2 ["Temp"]
    (Cleanup.Dir [("Temp", Cleanup.Dir
                     [("Billing", Cleanup.Dir [("Invoices_latest.html", Cleanup.File)]);
                      ("notes.txt", Cleanup.File)]);
                  ("EmailReports", Cleanup.Dir [("report.html", Cleanup.File)])])
  = (Cleanup.Dir [("Temp", Cleanup.Dir []);
                  ("EmailReports", Cleanup.Dir [("report.html", Cleanup.File)])], 0).
Proof.
  apply (cleanup_empties_temp_only Cleanup.willing Cleanup.linux_links 2 ["Temp"]
           (Cleanup.Dir [("Temp", Cleanup.Dir
                            [("Billing", Cleanup.Dir [("Invoices_latest.html", Cleanup.File)]);
                             ("notes.txt", Cleanup.File)]);
                         ("EmailReports", Cleanup.Dir [("report.html", Cleanup.File)])])
           [("Billing", Cleanup.Dir [("Invoices_latest.html", Cleanup.File)]);
            ("notes.txt", Cleanup.File)]).
  - reflexivity.
  - reflexivity.
  - intros c q. reflexivity.
  - simpl. lia.
Defined.

(** A file in use in [Temp]: [unlinkSync] throws, the throw leaves
    [rmrf] and is caught in the loop of the script, which goes on with the
    next entry and exits with 0; the file and its directory stay. *)
Lemma file_in_use_example :
  Cleanup.main (Cleanup.busy ["Temp"; "Billing"; "Invoices_latest.html"])
    Cleanup.linux_links 5 ["Temp"]
    (Cleanup.Dir [("Temp", Cleanup.Dir
                     [("Billing", Cleanup.Dir [("Invoices_latest.html", Cleanup.File);
                                               ("Orders_latest.html", Cleanup.File)]);
                      ("notes.txt", Cleanup.File)]);
                  ("EmailReports", Cleanup.Dir [("report.html", Cleanup.File)])])
  = (Cleanup.Dir [("Temp", Cleanup.Dir
                     [("Billing", Cleanup.Dir [("Invoices_latest.html", Cleanup.File);
                                               ("Orders_latest.html", Cleanup.File)])]);
                  ("EmailReports", Cleanup.Dir [("report.html", Cleanup.File)])], 0).
Proof. vm_compute. reflexivity. Qed.

(** Why the tree must hold no link: a link in [Temp] that leads to a
    directory outside.  [statSync] and [readdirSync] follow it, the target
    is emptied, [rmdirSync] throws on the link, the throw is caught, and
    the script exits with 0. *)
Lemma link_out_of_temp_example :
  Cleanup.main Cleanup.willing Cleanup.linux_links 5 ["Temp"]
    (Cleanup.Dir [("Temp", Cleanup.Dir
                     [("shared", Cleanup.Link ["EmailReports"]);
                      ("notes.txt", Cleanup.File)]);
                  ("EmailReports", Cleanup.Dir [("report.html", Cleanup.File)])])
  = (Cleanup.Dir [("Temp", Cleanup.Dir [("shared", Cleanup.Link ["EmailReports"])]);
                  ("EmailReports", Cleanup.Dir [])], 0).
Proof. vm_compute. reflexivity. Qed.
